(* ===== verification/_CoqProject ===== *)
-Q . S2P
Prelude.v
Grid.v
Json.v
Spec.v
Examples.v
Init.v
Neighbours.v
Select.v
AC3.v
AC3Spec.v
Backtrack.v
Correctness.v
Solve.v
Explored.v
Driver.v
Search.v
SpecSearch.v
