(* ===== verification/Prelude.v ===== *)
(** * A verified model of the sudoku-solver repository

    The program is one JavaScript class, [Sudoku] in
    [src/javascript/sudoku.js]: a constraint-satisfaction solver for 9x9
    puzzles.  Its parts and how they call each other:
    - the constructor (lines 6-60) checks the shape, lists the variables
      (the falsy cells) and gives each one its initial domain;
    - [solve] (62-70) runs [backtrack] (72-105) from the object's state;
    - [backtrack] selects a cell with [unassigned_variable] (107-140),
      checks each candidate with [consistent] (142-153), propagates it with
      [ac3] (191-217), which calls [revise] (219-231), and recurses;
    - [consistent] and [ac3] use [neighbours] (155-189), which uses
      [itemInArray] (234-239);
    - [this.explored] counts the nodes [backtrack] opens.
    [src/javascript/example.js] builds one grid and prints the result.

    ** Files (in dependency order) and what they model
    - [Prelude]: two-dimensional arrays ([g[x][y]] read and write), the
      JavaScript [Set] as an insertion-ordered list without duplicates,
      and the counter monad [M] (state: [this.explored]; [None]: the fuel
      ran out or the code would throw).  Hint database [sudoku].
    - [Grid]: cells ([option nat], [null] is [None]), grids, domain grids
      ([dcell]: a cell of [structuredClone(grid)] or a [Set]), positions,
      rows, columns, blocks, [peers].
    - [Json]: [JSON.stringify] of a position ([json_pos], decimal
      numerals) and [JSON.parse] of such a string ([json_parse_pos]), as
      [neighbours], [itemInArray] and [ac3] use them.
    - [Spec]: what a solution is, the contract of [solve] ([solver_spec]),
      the refinement order on domains, and the class [Propagator], the
      interface the search expects from propagation.
    - [Examples]: the grid of [example.js] and the inputs at which the
      theorems with hypotheses are instantiated (among them the grids of
      the findings: [wipeout_grid], [ones_grid]).
    - [Init]: the constructor [sudoku_new] (record [sudoku] = the fields
      [explored], [variables], [values], [domains]).
    - [Neighbours]: [item_in_array] and [neighbours] on JSON strings,
      [consistent]; [neighbour_cells] is the same loops on positions.
    - [Select]: [unassigned_variable] and the reference scan [mrv_last].
    - [AC3]: [revise], the loop [ac3_loop], [ac3], and the instance
      [ac3_propagator] of [Propagator].
    - [AC3Spec]: [ac3_spec], the same loop with the failure test of the
      specification (the domain of the revised cell [a], where line 205
      tests [domains[a[0]][b[0]]]), and its [Propagator] record
      [ac3_spec_propagator]; a yardstick, not code of the repository.
    - [Backtrack]: [try_values] (the [for] loop of [backtrack]) and
      [backtrack], written against [Propagator].
    - [Correctness]: the search invariant, soundness and completeness of
      the search.
    - [Solve]: [solve], its termination, the refinement theorem, the
      counter, full grids, fidelity, and the single-gap scenario.
    - [Explored]: the bounds on the explored counter ([tree_nodes k] is
      the number of inner nodes of a nine-way tree of depth [k]).
    - [Driver]: [example_script], the value [example.js] hands to
      [console.log].
    - [Search]: the search as a transition system: [search_step] (one
      recursive call of [backtrack]) and [reachable] (the search tree of a
      grid), with its invariants.
    - [SpecSearch]: the search run with [ac3] and with [ac3_spec] side
      by side, under the invariant [live] (every solution that keeps the
      filled cells is allowed by the domains).
    Each operation that changes state is a function from the old state to
    the new one: [update2] for [g[x][y] = v] on the copies the code makes
    with [structuredClone], [ac3] returns the domain grid it mutates, and
    [backtrack] threads the counter through [M].

    ** Theorems
    - Refinement: [Solve.solve_correct]: on a well-formed grid the
      constructor succeeds, [solve] returns, and its answer meets
      [solver_spec] (a solution when one exists, [null] only when none
      does); [Solve.solve_total]: on every 9x9 grid [solve] returns.
      Both rest on [Correctness.backtrack_sound],
      [Correctness.backtrack_complete] and [Backtrack.backtrack_total].
    - Propagation: [AC3.ac3_complete] (no solution is pruned),
      [AC3.ac3_terminates], [AC3.ac3_refines] (candidates are only
      removed).
    - Selection: [Select.unassigned_variable_mrv] (the degree bookkeeping
      is dead: the selection is the plain minimum-remaining-values scan)
      and [Select.unassigned_variable_spec] (the last cell of minimum size).
    - Constraint graph: [Neighbours.neighbours_perm],
      [Neighbours.consistent_assign], [Neighbours.neighbours_bound] (at
      most 20 neighbours, exactly 20 when every cell is a variable); the
      JSON [Set] of [neighbours] is the set of positions because parsing
      inverts printing ([Json.json_parse_print]).
    - AC-3 re-run: [AC3.ac3_pinned_idempotent] (from a cell pinned to one
      value, a second run on the result of a successful run changes
      nothing; its witness shows that from an unpinned cell a second run
      can refute satisfiable domains).
    - Constructor: [Init.sudoku_new_spec], [Init.sudoku_new_error].
    - Counter: [Solve.solve_explored_accumulates];
      [Explored.solve_explored_bound] (after the first [solve],
      [8 * explored + 1 <= 9^k] for [k] empty cells) and
      [Explored.solve_explored_path] (a search that finds a solution
      explores at least [k] nodes).
    - Search safety: [Backtrack.empty_domain_abandoned] (an empty domain
      of an empty cell makes the next node select such a cell and return
      [null] at once), [Solve.solve_keeps_givens] (on every accepted
      grid, well formed or not, a returned grid keeps every filled cell of
      the input) and [Backtrack.try_values_short_circuit] (the first
      solution wins: candidates after it are neither tried nor counted).
    - The search against the specification's AC-3:
      [SpecSearch.spec_search_same_answer] (on every well-formed grid the
      search answers the same with either propagation: the wrong cell
      tested at line 205 costs explored nodes, never the answer; the
      witness shows two nodes against one on [wipeout_grid]).
    - The example script: [Driver.example_prints_solution] ([example.js]
      prints a solution of its grid; shown from [Solve.solve_init_spec]
      without running the search).
    - Search tree: [Search.reachable_state_ok] (states are 9x9 grids that
      keep the givens), [Search.reachable_domain_bound] (domains of empty
      cells have at most 9 candidates, below the initial [mrv = 10]),
      [Search.search_depth] (a run of [k] steps fills exactly [k] cells),
      and [Search.solve_reaches] ([solve] returns the grid of a reachable
      solved state).
    - End-to-end scenarios of the specification: [Solve.solve_single_gap]
      (a grid with one empty cell whose peers hold all digits but one is
      completed with that digit, nothing else changed, for every such
      grid).
    - Departures from the specification: [Solve.solve_full_grid] (every
      grid without a [null] cell is returned as it is, conflicting givens
      and 0 cells included, where the specification asks for
      [NoSolution]); the degree tie-break is dead ([Select.unassigned_variable_mrv]);
      the counter is never reset ([Solve.solve_explored_accumulates]); the
      wrong cell of line 205 ([SpecSearch.spec_search_same_answer]); the
      unpinned re-run of AC-3 ([AC3.ac3_pinned_idempotent]).

    ** Fuel
    [ac3_loop] gets [1 + 28 * (total size of the sets) + length queue]
    steps: each iteration either pops an arc, or removes a candidate
    (the total drops by one) and queues at most 27 arcs (the bound on the
    number of neighbours), so the measure drops by one each time
    ([AC3.ac3_terminates] proves the fuel never runs out).  [backtrack]
    gets [1 + number of null cells]: every recursive call fills one more
    null cell ([Solve.solve_total] proves it never runs out).

    ** Not modelled
    The text [console.log] prints for the value [example_script] (pure
    I/O).  The solution [example.js] prints is shown to be a solution of
    its grid, but not to be [Examples.example_solution]: that would need
    the uniqueness of the solution, or running the search, which takes
    minutes of evaluation.  [JSON.parse] is modelled on the strings
    [JSON.stringify] produces for positions, the only strings the code
    parses; on other strings it is [None].  Inputs are grids of
    [option nat]: JavaScript values other than numbers and [null]
    (strings, negative or fractional numbers) are outside the model. *)

From stdpp Require Export base list list_relations decidable sets.
From Stdlib Require Export Lia.

Declare Scope sudoku_scope.
Delimit Scope sudoku_scope with sudoku.
Open Scope sudoku_scope.

Create HintDb sudoku discriminated.
#[global] Hint Constants Transparent : sudoku.
#[global] Hint Variables Opaque : sudoku.

(** ** Two-dimensional arrays

    The JavaScript code indexes its grids as [g[x][y]] and writes them as
    [g[x][y] = v].  [lookup2] and [update2] are these two operations on a
    list of rows; out of range, [update2] changes nothing (the code never
    writes out of range: every position it writes is one it has read). *)

Definition lookup2 {A} (g : list (list A)) (p : nat * nat) : option A :=
  g !! p.1 ≫= (λ row, row !! p.2).

Definition update2 {A} (g : list (list A)) (p : nat * nat) (v : A) : list (list A) :=
  alter (λ row, <[p.2 := v]> row) p.1 g.

Notation "g !!@ p" := (lookup2 g p) (at level 20) : sudoku_scope.

Section Array2.
Context {A : Type}.
Implicit Types (g : list (list A)) (p q : nat * nat) (v : A).

Lemma lookup2_update2_eq g p v :
  is_Some (g !!@ p) → update2 g p v !!@ p = Some v.
Proof.
  unfold lookup2, update2. destruct p as [x y]; simpl. intros [w Hw].
  rewrite list_lookup_alter. rewrite decide_True by done.
  destruct (g !! x) as [row|]; simplify_eq/=.
  apply list_lookup_insert_eq. by eapply lookup_lt_Some.
Qed.

Lemma lookup2_update2_ne g p q v :
  p ≠ q → update2 g p v !!@ q = g !!@ q.
Proof.
  unfold lookup2, update2. destruct p as [x y], q as [i j]; simpl. intros Hne.
  rewrite list_lookup_alter. case_decide as Hx; [|done]. subst i.
  destruct (g !! x) as [row|]; simpl; [|done].
  apply list_lookup_insert_ne. congruence.
Qed.

Lemma lookup2_update2 g p q v :
  update2 g p v !!@ q =
    if decide (p = q) then (if g !!@ p is Some _ then Some v else None) else g !!@ q.
Proof.
  case_decide as Hpq; [subst q|by apply lookup2_update2_ne].
  destruct (g !!@ p) eqn:E; [by apply lookup2_update2_eq|].
  unfold lookup2, update2 in *. destruct p as [x y]; simpl in *.
  rewrite list_lookup_alter, decide_True by done.
  destruct (g !! x) as [row|]; simpl in *; [|done].
  rewrite list_insert_ge; [done|]. by apply lookup_ge_None.
Qed.

Lemma update2_shape g p v : length <$> update2 g p v = length <$> g.
Proof.
  unfold update2. destruct p as [x y]; simpl. revert x.
  induction g as [|row g IH]; intros [|x]; simpl; [done|done| |].
  - by rewrite length_insert.
  - f_equal. apply IH.
Qed.

Lemma lookup2_Some_shape g g' p :
  length <$> g' = length <$> g → is_Some (g !!@ p) → is_Some (g' !!@ p).
Proof.
  unfold lookup2. destruct p as [x y]; simpl. intros Hsh [w Hw].
  destruct (g !! x) as [row|] eqn:Hr; simplify_eq/=.
  assert ((length <$> g') !! x = Some (length row)) as Hl.
  { rewrite Hsh, list_lookup_fmap, Hr. done. }
  rewrite list_lookup_fmap in Hl.
  destruct (g' !! x) as [row'|]; simplify_eq/=.
  apply lookup_lt_is_Some. apply lookup_lt_Some in Hw. lia.
Qed.
End Array2.

(** Sums over a list changed at one index. *)
Lemma sum_list_with_alter {A} (f : A → nat) (h : A → A) (l : list A) i x :
  l !! i = Some x → sum_list_with f (alter h i l) + f x = sum_list_with f l + f (h x).
Proof.
  revert i. induction l as [|y l IH]; intros [|i] Hi; simplify_eq/=; [lia|].
  specialize (IH i Hi). lia.
Qed.

Lemma sum_list_with_insert {A} (f : A → nat) (l : list A) i x y :
  l !! i = Some x → sum_list_with f (<[i:=y]> l) + f x = sum_list_with f l + f y.
Proof. rewrite list_insert_alter. apply sum_list_with_alter. Qed.

Lemma sum_list_with_update2 {A} (f : A → nat) (g : list (list A)) p x y :
  g !!@ p = Some x →
  sum_list_with (sum_list_with f) (update2 g p y) + f x = sum_list_with (sum_list_with f) g + f y.
Proof.
  unfold lookup2, update2. destruct p as [i j]; simpl.
  destruct (g !! i) as [row|] eqn:Hrow; simpl; [|done]. intros Hx.
  pose proof (sum_list_with_alter (sum_list_with f) (λ row, <[j:=y]> row) g i row Hrow) as H1.
  pose proof (sum_list_with_insert f row j x y Hx) as H2. simpl in H1. lia.
Qed.

(** Filtering with a stronger predicate that misses one element of the
    list keeps strictly fewer elements. *)
Lemma list_filter_iff_in {A} (P Q : A → Prop) `{∀ x, Decision (P x)} `{∀ x, Decision (Q x)}
    (l : list A) :
  (∀ x, x ∈ l → P x ↔ Q x) → filter P l = filter Q l.
Proof.
  intros HPQ. induction l as [|y l IH]; [done|]. rewrite !filter_cons.
  rewrite IH by (intros; apply HPQ; by right).
  destruct (decide (P y)) as [Hp|Hp]; [rewrite decide_True|rewrite decide_False]; try done;
    rewrite <-HPQ by left; done.
Qed.

(** Filtering a list without duplicates with two predicates that differ
    only at [x], which only the first holds, keeps exactly one more. *)
Lemma length_filter_one {A} (P Q : A → Prop) `{∀ x, Decision (P x)} `{∀ x, Decision (Q x)}
    (l : list A) x :
  NoDup l → x ∈ l → P x → ¬ Q x → (∀ y, y ≠ x → P y ↔ Q y) →
  length (filter P l) = S (length (filter Q l)).
Proof.
  intros Hnd Hx HP HQ HPQ. induction l as [|y l IH]; [by apply elem_of_nil in Hx|].
  apply NoDup_cons in Hnd as [Hy Hnd]. rewrite !filter_cons.
  apply elem_of_cons in Hx as [<-|Hx].
  - rewrite decide_True, decide_False by done. simpl. f_equal.
    f_equal. apply list_filter_iff_in. intros z Hz. apply HPQ. by intros ->.
  - assert (P y ↔ Q y) as Hiff by (apply HPQ; by intros ->). specialize (IH Hnd Hx).
    do 2 case_decide; simpl; try lia; tauto.
Qed.

(** A list without duplicates whose only element is [x] is [[x]]. *)
Lemma NoDup_singleton_eq {A} (l : list A) x : NoDup l → (∀ y, y ∈ l ↔ y = x) → l = [x].
Proof.
  intros Hnd Hl. destruct l as [|a [|b l]].
  - exfalso. apply (elem_of_nil x), Hl. done.
  - f_equal. apply Hl. left.
  - assert (a = x) as -> by (apply Hl; left). assert (b = x) as -> by (apply Hl; right; left).
    apply NoDup_cons in Hnd as [Hn _]. exfalso. apply Hn. left.
Qed.

(** ** JavaScript [Set]s of positions kept as insertion-ordered lists

    [new Set()] followed by [s.add(x)] keeps the first insertion of each
    element, in insertion order; iteration follows that order. *)

Definition js_set_add {A} `{EqDecision A} (s : list A) (x : A) : list A :=
  if bool_decide (x ∈ s) then s else s ++ [x].

Section JsSet.
Context {A B : Type} `{EqDecision A}.
Implicit Types (s : list A) (x y : A).

Lemma elem_of_js_set_add s x y : y ∈ js_set_add s x ↔ y = x ∨ y ∈ s.
Proof.
  unfold js_set_add. case_bool_decide; rewrite ?elem_of_app, ?list_elem_of_singleton;
    naive_solver.
Qed.

Lemma NoDup_js_set_add s x : NoDup s → NoDup (js_set_add s x).
Proof.
  unfold js_set_add. intros Hs. case_bool_decide; [done|].
  apply list.NoDup_app. split_and!; [done| |by apply NoDup_singleton].
  intros z Hz ->%list_elem_of_singleton. done.
Qed.

Lemma length_js_set_add s x : length (js_set_add s x) ≤ S (length s).
Proof. unfold js_set_add. case_bool_decide; rewrite ?length_app; simpl; lia. Qed.

(** A loop [for (i of l) if (c(i)) s.add(f(i))], the shape of every
    loop of [neighbours]. *)
Definition js_add_loop (c : B → bool) (f : B → A) (l : list B) (s : list A) : list A :=
  fold_left (λ s i, if c i then js_set_add s (f i) else s) l s.

Lemma elem_of_js_add_loop c f l s y :
  y ∈ js_add_loop c f l s ↔ y ∈ s ∨ ∃ i, i ∈ l ∧ c i = true ∧ y = f i.
Proof.
  unfold js_add_loop. revert s. induction l as [|i l IH]; intros s; simpl.
  - split; [auto|]. intros [?|(?&?%elem_of_nil&?)]; done.
  - rewrite IH. setoid_rewrite elem_of_cons.
    destruct (c i) eqn:Hc; [rewrite elem_of_js_set_add|]; split.
    + intros [[->|Hs]|(j&Hj&Hcj&->)]; eauto 10.
    + intros [Hs|(j&[->|Hj]&Hcj&->)]; eauto 10.
    + intros [Hs|(j&Hj&Hcj&->)]; eauto 10.
    + intros [Hs|(j&[->|Hj]&Hcj&->)]; [auto|congruence|eauto 10].
Qed.

Lemma NoDup_js_add_loop c f l s : NoDup s → NoDup (js_add_loop c f l s).
Proof.
  unfold js_add_loop. revert s. induction l as [|i l IH]; intros s Hs; simpl; [done|].
  apply IH. destruct (c i); [by apply NoDup_js_set_add|done].
Qed.

Lemma length_js_add_loop c f l s : length (js_add_loop c f l s) ≤ length s + length l.
Proof.
  unfold js_add_loop. revert s. induction l as [|i l IH]; intros s; simpl; [lia|].
  etrans; [apply IH|]. destruct (c i); [pose proof (length_js_set_add s (f i))|]; lia.
Qed.
End JsSet.

(** A [Set] of the images [h x] under an injective [h] (the JSON strings
    of positions) holds the images of the [Set] of the [x]s. *)
Lemma js_add_loop_inj {A A' B} `{EqDecision A, EqDecision A'} (h : A → A') `{!Inj (=) (=) h}
    (c : B → bool) (f : B → A) l s :
  js_add_loop c (λ i, h (f i)) l (h <$> s) = h <$> js_add_loop c f l s.
Proof.
  unfold js_add_loop. revert s. induction l as [|i l IH]; intros s; simpl; [done|].
  rewrite <-IH. destruct (c i); [|done]. f_equal. unfold js_set_add.
  rewrite (bool_decide_ext _ _ (list_elem_of_fmap_inj h s (f i))).
  case_bool_decide; [done|]. by rewrite fmap_app.
Qed.


(** ** The state of the solver object: an explored-node counter

    [Sudoku.backtrack] threads [this.explored] through its recursive calls.
    [M A] passes that counter explicitly; [None] is an execution that does
    not return normally (the model's fuel ran out, or the JavaScript would
    raise a TypeError); the termination theorems show it never happens. *)

Definition M (A : Type) : Type := nat → option (A * nat).

Definition ret {A} (a : A) : M A := λ n, Some (a, n).
Definition bind {A B} (m : M A) (k : A → M B) : M B :=
  λ n, match m n with Some (a, n') => k a n' | None => None end.
Definition crash {A} : M A := λ _, None.
Definition tick : M unit := λ n, Some (tt, S n).

Notation "'let*' x ':=' m 'in' k" := (bind m (λ x, k))
  (at level 200, x name, m at level 100, k at level 200) : sudoku_scope.
Notation "m ;; k" := (bind m (λ _ : unit, k)) (at level 100, right associativity) : sudoku_scope.

Lemma bind_Some {A B} (m : M A) (k : A → M B) n b n' :
  bind m k n = Some (b, n') ↔ ∃ a n1, m n = Some (a, n1) ∧ k a n1 = Some (b, n').
Proof. unfold bind. destruct (m n) as [[a n1]|]; naive_solver. Qed.

Lemma bind_None {A B} (m : M A) (k : A → M B) n :
  bind m k n = None ↔ m n = None ∨ ∃ a n1, m n = Some (a, n1) ∧ k a n1 = None.
Proof. unfold bind. destruct (m n) as [[a n1]|]; naive_solver. Qed.

#[export] Hint Rewrite @bind_Some @bind_None : sudoku.

(** A computation is [shiftable] when starting the counter at [n] only
    adds [n] to the final count: it counts relative to its start. *)
Definition shiftable {A} (m : M A) : Prop :=
  ∀ n, m n = (λ ak, (ak.1, n + ak.2)) <$> m 0.

Lemma ret_shiftable {A} (a : A) : shiftable (ret a).
Proof. intros n. unfold ret. simpl. by rewrite Nat.add_0_r. Qed.

Lemma crash_shiftable {A} : shiftable (@crash A).
Proof. done. Qed.

Lemma tick_shiftable : shiftable tick.
Proof. intros n. unfold tick. simpl. by rewrite Nat.add_1_r. Qed.

Lemma bind_shiftable {A B} (m : M A) (k : A → M B) :
  shiftable m → (∀ a, shiftable (k a)) → shiftable (bind m k).
Proof.
  intros Hm Hk n. unfold bind. rewrite (Hm n). destruct (m 0) as [[a j]|]; simpl; [|done].
  rewrite (Hk a (n + j)), (Hk a j). destruct (k a 0) as [[b i]|]; simpl; [|done].
  by rewrite Nat.add_assoc.
Qed.

#[export] Hint Resolve ret_shiftable crash_shiftable tick_shiftable bind_shiftable : sudoku.

(** ** Tactics *)

Ltac inv H := inversion H; subst; clear H.

(** Turn the boolean tests of the model back into propositions. *)
Ltac unbool :=
  repeat match goal with
  | H : bool_decide _ = true |- _ => apply bool_decide_eq_true in H
  | H : bool_decide _ = false |- _ => apply bool_decide_eq_false in H
  | H : (_ =? _) = true |- _ => apply Nat.eqb_eq in H
  | H : (_ =? _) = false |- _ => apply Nat.eqb_neq in H
  | H : (_ <=? _) = true |- _ => apply Nat.leb_le in H
  | H : (_ <=? _) = false |- _ => apply Nat.leb_gt in H
  | H : (_ <? _) = true |- _ => apply Nat.ltb_lt in H
  | H : (_ <? _) = false |- _ => apply Nat.ltb_ge in H
  | H : negb _ = true |- _ => apply negb_true_iff in H
  | H : negb _ = false |- _ => apply negb_false_iff in H
  | H : (_ && _) = true |- _ => apply andb_prop in H as [? ?]
  end.
