(* ===== verification/Grid.v ===== *)
(** * Grid: the data the solver works on

    The JavaScript grids of [src/javascript/sudoku.js]: a puzzle is an
    array of 9 rows of cells holding a number or [null]; [this.domains]
    is [structuredClone(grid)] in which every variable cell is replaced by
    a [Set] of candidate digits.  Positions are the two-element arrays
    [[x, y]] of the code.  This file also fixes the board geometry (rows,
    columns, 3x3 blocks) and the JavaScript [Set] operations on domains. *)

From S2P Require Import Prelude.

(** ** Cells, grids, positions *)

(** A cell of the input grid: a JavaScript number, or [null] ([None]). *)
Definition cell : Type := option nat.
Definition grid : Type := list (list cell).
(** A position [[x, y]]: row [x], column [y]. *)
Definition pos : Type := (nat * nat)%type.

Definition cell_at (g : grid) (p : pos) : cell := default None (g !!@ p).

(** [!grid[i][j]]: the cells the constructor takes as variables are the
    falsy ones, [null] and the number [0]. *)
Definition is_falsy (c : cell) : bool :=
  match c with None => true | Some 0 => true | Some _ => false end.

(** ** Domains

    [structuredClone(grid)] copies numbers and [null]s; the constructor
    then stores a [Set] at every variable.  [DNull] and [DNum] are the
    cloned cells, [DSet s] a set whose iteration order is the list [s]. *)
Inductive dcell : Type :=
  | DNull
  | DNum (n : nat)
  | DSet (s : list nat).

#[export] Instance dcell_eq_dec : EqDecision dcell.
Proof. solve_decision. Defined.

Definition domains : Type := list (list dcell).

Definition clone_cell (c : cell) : dcell :=
  match c with None => DNull | Some n => DNum n end.

(** [domains[x][y]] read as a set; a cell that is not a [Set] is never
    read this way (see [Init.vars_have_sets]) and reads as empty. *)
Definition dom_at (D : domains) (p : pos) : list nat :=
  match D !!@ p with Some (DSet s) => s | _ => [] end.

(** [domains[x][y].size]: [undefined] ([None]) when the cell is not a [Set]. *)
Definition size_at (D : domains) (p : pos) : option nat :=
  match D !!@ p with Some (DSet s) => Some (length s) | _ => None end.

(** [s.has(v)] where [v] is a grid cell: [null] is never in a set of digits. *)
Definition set_has (s : list nat) (c : cell) : bool :=
  match c with Some n => bool_decide (n ∈ s) | None => false end.

(** [s.delete(n)], keeping the order of the other elements. *)
Definition set_delete (s : list nat) (n : nat) : list nat := filter (λ m, m ≠ n) s.

(** The sum of the sizes of all the sets of a domain grid: the measure that
    bounds the work of AC-3. *)
Definition dsize (d : dcell) : nat := match d with DSet s => length s | _ => 0 end.
Definition dom_total (D : domains) : nat := sum_list_with (sum_list_with dsize) D.

(** ** Board geometry *)

(** [for (let i = 0; i < 9; i++) for (let j = 0; j < 9; j++)]: row-major. *)
Definition all_cells : list pos := flat_map (λ i, map (λ j, (i, j)) (seq 0 9)) (seq 0 9).

(** [x - (x % 3)]: the first row (column) of the block of row (column) [x]. *)
Definition box_start (x : nat) : nat := x - x mod 3.

(** The nine cells of the block of [p], in the order of the code's loops. *)
Definition box_cells (p : pos) : list pos :=
  flat_map (λ i, map (λ j, (i, j)) (seq (box_start p.2) 3)) (seq (box_start p.1) 3).

Definition on_board (p : pos) : Prop := p.1 < 9 ∧ p.2 < 9.

(** Same row, same column or same 3x3 block. *)
Definition same_unit (p q : pos) : Prop :=
  p.1 = q.1 ∨ p.2 = q.2 ∨ (p.1 / 3 = q.1 / 3 ∧ p.2 / 3 = q.2 / 3).

(** Two distinct cells of the board that constrain each other. *)
Definition peers (p q : pos) : Prop := on_board p ∧ on_board q ∧ p ≠ q ∧ same_unit p q.

#[export] Instance on_board_dec p : Decision (on_board p).
Proof. unfold on_board. apply _. Defined.
#[export] Instance same_unit_dec p q : Decision (same_unit p q).
Proof. unfold same_unit. apply _. Defined.
#[export] Instance peers_dec p q : Decision (peers p q).
Proof. unfold peers. apply _. Defined.

(** The shape the constructor checks: 9 rows of 9 cells. *)
Definition shape9 {A} (g : list (list A)) : Prop := length <$> g = replicate 9 9.

#[export] Instance shape9_dec {A} (g : list (list A)) : Decision (shape9 g).
Proof. unfold shape9. apply _. Defined.

(** The number of [null] cells: the bound on the depth of the search. *)
Definition count_null (g : grid) : nat := length (filter (λ p, cell_at g p = None) all_cells).

(** ** Lemmas on the geometry *)

Lemma elem_of_all_cells p : p ∈ all_cells ↔ on_board p.
Proof.
  destruct p as [x y]. unfold all_cells, on_board. rewrite list_elem_of_In, in_flat_map.
  setoid_rewrite in_map_iff. setoid_rewrite in_seq. simpl. split.
  - intros (i & Hi & j & [= -> ->] & Hj). lia.
  - intros [Hx Hy]. exists x. split; [lia|]. exists y. split; [done|lia].
Qed.

(** A property of every cell of the board is a property of the 81
    elements of [all_cells]; when it is decidable, evaluation decides it. *)
Lemma forall_on_board (P : pos → Prop) : (∀ p, on_board p → P p) ↔ Forall P all_cells.
Proof. rewrite Forall_forall. setoid_rewrite elem_of_all_cells. done. Qed.

Lemma forall_on_board_dec (P : pos → Prop) `{∀ p, Decision (P p)} :
  bool_decide (Forall P all_cells) → ∀ p, on_board p → P p.
Proof. intros Hall. apply forall_on_board. by apply bool_decide_unpack in Hall. Qed.

Lemma NoDup_all_cells : NoDup all_cells.
Proof. apply NoDup_ListNoDup. vm_compute. repeat constructor; simpl; intuition discriminate. Qed.

Lemma box_start_spec x i : box_start x ≤ i < box_start x + 3 ↔ i / 3 = x / 3.
Proof. unfold box_start. pose proof (Nat.div_mod_eq x 3). pose proof (Nat.div_mod_eq i 3).
  pose proof (Nat.mod_upper_bound x 3). pose proof (Nat.mod_upper_bound i 3). split; intros; nia. Qed.

Lemma same_block_lt9 i x : i / 3 = x / 3 → x < 9 → i < 9.
Proof.
  intros Hb Hx. pose proof (Nat.div_mod_eq i 3). pose proof (Nat.mod_upper_bound i 3).
  pose proof (Nat.div_mod_eq x 3). pose proof (Nat.mod_upper_bound x 3). nia.
Qed.

Lemma elem_of_box_cells p q : q ∈ box_cells p ↔ q.1 / 3 = p.1 / 3 ∧ q.2 / 3 = p.2 / 3.
Proof.
  destruct p as [x y], q as [i j]. unfold box_cells. rewrite list_elem_of_In, in_flat_map.
  setoid_rewrite in_map_iff. setoid_rewrite in_seq. simpl.
  rewrite <-(box_start_spec x i), <-(box_start_spec y j). split.
  - intros (i' & Hi & j' & [= -> ->] & Hj). lia.
  - intros [Hx Hy]. exists i. split; [lia|]. exists j. split; [done|lia].
Qed.

Lemma length_box_cells p : length (box_cells p) = 9.
Proof. reflexivity. Qed.

Lemma shape9_lookup2 {A} (g : list (list A)) p : shape9 g → is_Some (g !!@ p) ↔ on_board p.
Proof.
  unfold shape9, lookup2, on_board. destruct p as [x y]; simpl. intros Hsh.
  assert (length g = 9) as Hlen.
  { rewrite <-(length_fmap length g), Hsh. done. }
  destruct (g !! x) as [row|] eqn:Hrow; simpl.
  - assert ((length <$> g) !! x = Some (length row)) as Hl by (rewrite list_lookup_fmap, Hrow; done).
    rewrite Hsh in Hl. destruct (proj1 (lookup_replicate 9 9 (length row) x) Hl) as [<- Hx].
    rewrite lookup_lt_is_Some. lia.
  - apply lookup_ge_None in Hrow. split; [intros []; done|lia].
Qed.

Lemma shape9_update2 {A} (g : list (list A)) p v : shape9 g → shape9 (update2 g p v).
Proof. unfold shape9. by rewrite update2_shape. Qed.

#[export] Hint Resolve shape9_update2 NoDup_all_cells : sudoku.

Lemma elem_of_set_delete s n m : m ∈ set_delete s n ↔ m ∈ s ∧ m ≠ n.
Proof. unfold set_delete. rewrite list_elem_of_filter. tauto. Qed.

Lemma length_set_delete s n : n ∈ s → length (set_delete s n) < length s.
Proof.
  unfold set_delete. induction s as [|m s IH]; intros Hn; [by apply elem_of_nil in Hn|].
  rewrite filter_cons. apply elem_of_cons in Hn as [<-|Hn].
  - rewrite decide_False by tauto. pose proof (length_filter (λ m, m ≠ n) s). simpl. lia.
  - specialize (IH Hn). case_decide; simpl; lia.
Qed.

Lemma set_delete_subseteq s n : set_delete s n ⊆ s.
Proof. intros m. rewrite elem_of_set_delete. tauto. Qed.

Lemma dom_total_update2 D p d d' :
  D !!@ p = Some d → dom_total (update2 D p d') + dsize d = dom_total D + dsize d'.
Proof. apply sum_list_with_update2. Qed.

Lemma dom_at_update2 D p q s :
  is_Some (D !!@ p) → dom_at (update2 D p (DSet s)) q = if decide (p = q) then s else dom_at D q.
Proof.
  intros [w Hw]. unfold dom_at. rewrite lookup2_update2, Hw. by case_decide.
Qed.

Lemma size_at_update2 D p q s :
  is_Some (D !!@ p) →
  size_at (update2 D p (DSet s)) q = if decide (p = q) then Some (length s) else size_at D q.
Proof.
  intros [w Hw]. unfold size_at. rewrite lookup2_update2, Hw. by case_decide.
Qed.

Lemma cell_at_update2 (g : grid) p q c :
  is_Some (g !!@ p) → cell_at (update2 g p (Some c)) q = if decide (p = q) then Some c else cell_at g q.
Proof.
  intros [w Hw]. unfold cell_at. rewrite lookup2_update2, Hw. by case_decide.
Qed.

Lemma lookup2_fmap {A B} (f : A → B) (g : list (list A)) p :
  ((fmap (M:=list) f) <$> g) !!@ p = f <$> g !!@ p.
Proof.
  unfold lookup2. destruct p as [x y]; simpl. rewrite list_lookup_fmap.
  destruct (g !! x) as [row|]; simpl; [|done]. by rewrite list_lookup_fmap.
Qed.

Lemma shape9_fmap {A B} (f : A → B) (g : list (list A)) : shape9 g → shape9 ((fmap (M:=list) f) <$> g).
Proof.
  unfold shape9. intros <-. rewrite <-list_fmap_compose.
  apply list_fmap_ext. intros i row _. simpl. by rewrite length_fmap.
Qed.

Lemma peers_sym p q : peers p q → peers q p.
Proof. unfold peers, same_unit. intros (? & ? & ? & ?). split_and!; auto; intuition congruence. Qed.

Lemma size_at_dom_at D p n :
  size_at D p = Some n → D !!@ p = Some (DSet (dom_at D p)) ∧ length (dom_at D p) = n.
Proof. unfold size_at, dom_at. destruct (D !!@ p) as [[]|]; naive_solver. Qed.
