(* ===== verification/Json.v ===== *)
(** * Json: [JSON.stringify] and [JSON.parse] on positions

    [neighbours] (sudoku.js, lines 166-187) stores each neighbour as the
    string [JSON.stringify([i, j])] in a [Set] and turns the set back into
    positions with [JSON.parse]; [itemInArray] (lines 235-239) and the
    filter of [ac3] (lines 207-209) compare positions through their JSON
    text.  A position is an array of two non-negative integers, whose JSON
    text is ["[" ++ digits ++ "," ++ digits ++ "]"], the digits being the
    decimal numeral ([json_nat], equal to stdpp's [pretty]).  [json_parse_pos] reads that
    grammar back; on any other string [JSON.parse] would throw or return
    something else, and [None] stands for that (it never happens: every
    string parsed is a [json_pos] output, [json_parse_print]). *)

From stdpp Require Import pretty.
From Stdlib Require Import Ascii.
From S2P Require Import Prelude Grid.

(** ** Printing *)

(** The decimal numeral of [n], the text [JSON.stringify] gives a
    non-negative integer, written digit by digit from the right. *)
Fixpoint decimal_go (fuel n : nat) (acc : string) : string :=
  match fuel with
  | 0 => acc
  | S fuel =>
    let acc := String (pretty_N_char (N.of_nat (n mod 10))) acc in
    if n <? 10 then acc else decimal_go fuel (n / 10) acc
  end.

Definition json_nat (n : nat) : string := decimal_go (S n) n "".

(** [JSON.stringify([x, y])]. *)
Definition json_pos (p : pos) : string :=
  "[" +:+ json_nat p.1 +:+ "," +:+ json_nat p.2 +:+ "]".

(** ** Reading *)

(** The value of a decimal digit character (codes 48 to 57). *)
Definition digit_val (c : ascii) : option N :=
  let k := nat_of_ascii c in
  if (48 <=? k) && (k <=? 57) then Some (N.of_nat (k - 48)) else None.

Fixpoint read_digits (acc : N) (s : string) : N * string :=
  match s with
  | String c s' => match digit_val c with
                   | Some d => read_digits (acc * 10 + d)%N s'
                   | None => (acc, s)
                   end
  | EmptyString => (acc, EmptyString)
  end.

(** [JSON.parse] on the strings of the form [json_pos p]. *)
Definition json_parse_pos (s : string) : option pos :=
  match s with
  | String "[" s1 =>
    let '(x, s2) := read_digits 0 s1 in
    match s2 with
    | String "," s3 =>
      let '(y, s4) := read_digits 0 s3 in
      match s4 with
      | String "]" EmptyString => Some (N.to_nat x, N.to_nat y)
      | _ => None
      end
    | _ => None
    end
  | _ => None
  end%char.

(** ** The round trip *)

Lemma decimal_go_pretty fuel n acc :
  n < fuel → 0 < n → decimal_go fuel n acc = pretty_N_go (N.of_nat n) acc.
Proof.
  revert n acc. induction fuel as [|fuel IH]; intros n acc Hf Hn; [lia|].
  cbn [decimal_go]. rewrite (pretty_N_go_step (N.of_nat n)) by lia.
  destruct (Nat.ltb_spec n 10) as [Hlt|Hge].
  - rewrite Nat.mod_small by done.
    assert (N.of_nat n `div` 10 = 0)%N as -> by (apply N.div_small; lia).
    assert (N.of_nat n `mod` 10 = N.of_nat n)%N as -> by (apply N.mod_small; lia). done.
  - rewrite IH.
    + by rewrite Nat2N.inj_div, Nat2N.inj_mod.
    + pose proof (Nat.div_lt n 10). lia.
    + apply Nat.div_str_pos. lia.
Qed.

Lemma json_nat_pretty n : json_nat n = pretty n.
Proof.
  unfold json_nat, pretty, pretty_nat, pretty, pretty_N. case_decide as H0.
  - assert (n = 0) as -> by lia. done.
  - apply decimal_go_pretty; lia.
Qed.


Lemma digit_val_char x : (x < 10)%N → digit_val (pretty_N_char x) = Some x.
Proof.
  intros Hx. assert (x = 0 ∨ x = 1 ∨ x = 2 ∨ x = 3 ∨ x = 4 ∨ x = 5 ∨ x = 6 ∨ x = 7 ∨ x = 8 ∨ x = 9)%N
    as H by lia. by repeat destruct H as [->|H]; [..|subst].
Qed.

Lemma append_String c s t : String c s +:+ t = String c (s +:+ t).
Proof. done. Qed.
Lemma append_Empty t : "" +:+ t = t.
Proof. done. Qed.
Lemma append_assoc s1 s2 s3 : (s1 +:+ s2) +:+ s3 = s1 +:+ (s2 +:+ s3).
Proof. induction s1 as [|c s1 IH]; [done|]. rewrite !append_String, IH. done. Qed.

Lemma pretty_N_go_app x s : pretty_N_go x s = pretty_N_go x "" +:+ s.
Proof.
  revert s. induction (N.lt_wf_0 x) as [x _ IH]; intros s.
  destruct (decide (x = 0)%N) as [->|Hx]; [done|].
  assert (x `div` 10 < x)%N as Hlt by (apply N.div_lt; lia).
  rewrite !(pretty_N_go_step x) by lia. rewrite (IH _ Hlt (String _ s)), (IH _ Hlt (String _ "")).
  rewrite append_assoc. done.
Qed.

Fixpoint all_digits (t : string) : Prop :=
  match t with String c t => is_Some (digit_val c) ∧ all_digits t | EmptyString => True end.

Lemma read_digits_app acc t s :
  all_digits t → read_digits acc (t +:+ s) = read_digits (read_digits acc t).1 s.
Proof.
  revert acc. induction t as [|c t IH]; intros acc; [done|].
  intros [[d Hd] Ht]. rewrite append_String. simpl. rewrite Hd. by apply IH.
Qed.

Lemma all_digits_app t s : all_digits t → all_digits s → all_digits (t +:+ s).
Proof. induction t as [|c t IH]; [done|]. intros [? ?] ?. rewrite append_String. split; auto. Qed.

Lemma pretty_N_go_digits x : all_digits (pretty_N_go x "") ∧ (read_digits 0 (pretty_N_go x "")).1 = x.
Proof.
  induction (N.lt_wf_0 x) as [x _ IH].
  destruct (decide (x = 0)%N) as [->|Hx]; [done|].
  assert (x `div` 10 < x)%N as Hlt by (apply N.div_lt; lia).
  destruct (IH _ Hlt) as [Hd Hr].
  assert (digit_val (pretty_N_char (x `mod` 10)) = Some (x `mod` 10)%N) as Hc
    by (apply digit_val_char, N.mod_lt; lia).
  rewrite pretty_N_go_step, pretty_N_go_app by lia. split.
  - apply all_digits_app; [done|]. simpl. rewrite Hc. split; [eauto|done].
  - rewrite read_digits_app, Hr by done. simpl. rewrite Hc. simpl.
    pose proof (N.div_mod x 10). lia.
Qed.

Lemma read_json_nat n s :
  (∀ c s', s = String c s' → digit_val c = None) →
  read_digits 0 (json_nat n +:+ s) = (N.of_nat n, s).
Proof.
  intros Hs. rewrite json_nat_pretty. unfold pretty, pretty_nat, pretty, pretty_N.
  assert (read_digits_stop : ∀ acc, read_digits acc s = (acc, s)).
  { intros acc. destruct s as [|c s']; [done|]. simpl. by rewrite (Hs c s' eq_refl). }
  case_decide as H0.
  - rewrite H0. simpl. apply read_digits_stop.
  - destruct (pretty_N_go_digits (N.of_nat n)) as [Hd Hr].
    rewrite read_digits_app, Hr by done. apply read_digits_stop.
Qed.

(** Unfold the printer and the reader on a literal position. *)
Ltac json_read :=
  unfold json_pos, json_parse_pos; cbn [fst snd];
  rewrite append_String, append_Empty, read_json_nat by (intros ?c ?s' [= <- _]; done);
  rewrite append_String, append_Empty, read_json_nat by (intros ?c ?s' [= <- _]; done);
  rewrite !Nat2N.id.

(** [JSON.parse(JSON.stringify(p))] gives back the position [p]. *)
Lemma json_parse_print p : json_parse_pos (json_pos p) = Some p.
Proof. destruct p as [x y]. json_read. done. Qed.

(** Parsing back a list of printed positions gives the list. *)
Lemma omap_left_inverse {A B} (f : A → B) (g : B → option A) (l : list A) :
  (∀ x, g (f x) = Some x) → omap g (f <$> l) = l.
Proof. intros Hfg. induction l as [|x l IH]; [done|]. simpl. rewrite Hfg. f_equal. exact IH. Qed.

Lemma omap_json_parse (l : list pos) : omap json_parse_pos (json_pos <$> l) = l.
Proof. apply omap_left_inverse, json_parse_print. Qed.

(** Two positions have the same JSON text exactly when they are equal. *)
#[export] Instance json_pos_inj : Inj (=) (=) json_pos.
Proof.
  intros p q Hpq.
  assert (omap json_parse_pos (json_pos <$> [p]) = omap json_parse_pos (json_pos <$> [q])) as H
    by (cbn [fmap list_fmap]; by rewrite Hpq).
  rewrite !omap_json_parse in H. by injection H.
Qed.
