(* ===== verification/Spec.v ===== *)
(** * Spec: what the solver promises, and what its parts promise each other

    - [solution_of input g]: [g] is a complete 9x9 grid of digits, every
      row, column and block without repeated digit, extending [input].
    - [solver_spec]: the contract of [solve]: a solution when one exists,
      [null] only when none does.
    - [refines D' D]: [D'] is [D] with some candidates removed (the only
      change propagation and branching make to the domain grid).
    - [fits σ D]: the assignment [σ] is still allowed by the domains [D].
    - [Propagator]: the contract the search needs from constraint
      propagation; [AC3.ac3_propagator] shows that [ac3] meets it, and the
      theorems of [Backtrack] use nothing else about it. *)

From S2P Require Import Prelude Grid.

(** ** Solutions *)

Definition is_digit (d : nat) : Prop := 1 ≤ d ≤ 9.

Definition complete (g : grid) : Prop :=
  shape9 g ∧ ∀ p, on_board p → ∃ d, cell_at g p = Some d ∧ is_digit d.

Definition valid (g : grid) : Prop := ∀ p q, peers p q → cell_at g p ≠ cell_at g q.

Definition extends (input output : grid) : Prop :=
  ∀ p, on_board p → ∀ n, cell_at input p = Some n → cell_at output p = Some n.

Definition solution_of (input output : grid) : Prop :=
  complete output ∧ valid output ∧ extends input output.

Definition solver_spec (input : grid) (result : option grid) : Prop :=
  match result with
  | Some g => solution_of input g
  | None => ¬ ∃ g, solution_of input g
  end.

(** The inputs the theorems consider: 9x9, each cell [null] or a digit,
    and no two given digits in conflict. *)
Definition well_formed (g : grid) : Prop :=
  shape9 g ∧
  (∀ p, on_board p → cell_at g p = None ∨ ∃ d, cell_at g p = Some d ∧ is_digit d) ∧
  (∀ p q, peers p q → cell_at g p ≠ None → cell_at g p ≠ cell_at g q).

(** The conditions range over the 81 cells of the board, so they are
    decidable: each is equivalent to a check over [all_cells]. *)
Definition digit_cell (c : cell) : Prop := match c with Some d => is_digit d | None => False end.

#[export] Instance digit_cell_dec c : Decision (digit_cell c).
Proof. destruct c; simpl; unfold is_digit; apply _. Defined.

Lemma digit_cell_iff c : digit_cell c ↔ ∃ d, c = Some d ∧ is_digit d.
Proof. destruct c; simpl; naive_solver. Qed.


Definition given_kept (input output : grid) (p : pos) : Prop :=
  match cell_at input p with Some n => cell_at output p = Some n | None => True end.

Definition well_formed_check (g : grid) : Prop :=
  shape9 g ∧
    Forall (λ p, cell_at g p = None ∨ digit_cell (cell_at g p)) all_cells ∧
    Forall (λ p, Forall (λ q, peers p q → cell_at g p ≠ None → cell_at g p ≠ cell_at g q)
      all_cells) all_cells.

Lemma well_formed_iff g : well_formed g ↔ well_formed_check g.
Proof.
  unfold well_formed, well_formed_check. rewrite !Forall_forall. setoid_rewrite Forall_forall.
  setoid_rewrite elem_of_all_cells. setoid_rewrite digit_cell_iff.
  split; intros (H1 & H2 & H3); split_and!; auto.
  intros p q Hpq. apply H3; [apply Hpq|apply Hpq|done].
Qed.

Definition solution_check (input output : grid) : Prop :=
  (shape9 output ∧ Forall (λ p, digit_cell (cell_at output p)) all_cells) ∧
    Forall (λ p, Forall (λ q, peers p q → cell_at output p ≠ cell_at output q) all_cells) all_cells ∧
    Forall (given_kept input output) all_cells.

Lemma solution_of_iff input output : solution_of input output ↔ solution_check input output.
Proof.
  unfold solution_of, solution_check, complete, valid, extends. rewrite !Forall_forall.
  setoid_rewrite Forall_forall. setoid_rewrite elem_of_all_cells.
  setoid_rewrite digit_cell_iff. unfold given_kept.
  split; intros ([Hs Hc] & Hv & He); split_and!; auto.
  all: try (intros p q Hpq; apply Hv; [apply Hpq|apply Hpq|done]).
  all: try (intros p Hp n Hn; specialize (He p Hp); rewrite Hn in He; done).
  all: intros p Hp; specialize (He p Hp); destruct (cell_at input p); auto.
Qed.

#[export] Instance given_kept_dec input output p : Decision (given_kept input output p).
Proof. unfold given_kept. destruct (cell_at input p); apply _. Defined.

#[export] Instance well_formed_dec g : Decision (well_formed g).
Proof.
  destruct (decide (well_formed_check g)) as [H|H]; [left|right]; rewrite well_formed_iff; exact H.
Defined.

#[export] Instance solution_of_dec input output : Decision (solution_of input output).
Proof.
  destruct (decide (solution_check input output)) as [H|H]; [left|right];
    rewrite solution_of_iff; exact H.
Defined.

(** ** Domains *)

Definition refines (D' D : domains) : Prop :=
  ∀ p, match D !!@ p with
       | Some (DSet s) => ∃ s', D' !!@ p = Some (DSet s') ∧ s' `sublist_of` s
       | o => D' !!@ p = o
       end.

Definition fits (σ : pos → nat) (D : domains) : Prop :=
  ∀ p s, D !!@ p = Some (DSet s) → σ p ∈ s.

Definition respects (vars : list pos) (σ : pos → nat) : Prop :=
  ∀ a b, a ∈ vars → b ∈ vars → peers a b → σ a ≠ σ b.

(** [fits σ D] for a concrete domain grid of one row of two cells, by
    evaluation at each position. *)
Ltac solve_fits_row :=
  intros [[|?x] [|[|?y]]] ?s; vm_compute; intros ?Hs; try discriminate Hs;
  injection Hs as <-; repeat constructor.

#[export] Instance refines_preorder : PreOrder refines.
Proof.
  split.
  - intros D p. destruct (D !!@ p) as [[]|]; eauto.
  - intros D1 D2 D3 H12 H23 p. specialize (H12 p). specialize (H23 p).
    destruct (D3 !!@ p) as [[|?|s3]|]; try (rewrite H23 in H12; exact H12).
    destruct H23 as (s2 & H2 & Hs2). rewrite H2 in H12. destruct H12 as (s1 & H1 & Hs1).
    exists s1. split; [done|]. by trans s2.
Qed.

Lemma refines_update2 D p s s' :
  D !!@ p = Some (DSet s) → s' `sublist_of` s → refines (update2 D p (DSet s')) D.
Proof.
  intros Hp Hs q. rewrite lookup2_update2, Hp. case_decide as Hpq.
  - subst q. rewrite Hp. eauto.
  - destruct (D !!@ q) as [[]|]; eauto.
Qed.

Lemma refines_dom_at_sublist D' D p : refines D' D → dom_at D' p `sublist_of` dom_at D p.
Proof.
  intros H. specialize (H p). unfold dom_at.
  destruct (D !!@ p) as [[|?|s]|]; try (by rewrite H).
  destruct H as (s' & -> & ?). done.
Qed.

Lemma refines_dom_at D' D p : refines D' D → dom_at D' p ⊆ dom_at D p.
Proof. intros H x Hx. eapply elem_of_sublist; [done|]. by apply refines_dom_at_sublist. Qed.

Lemma refines_shape D' D : refines D' D → ∀ p, is_Some (D' !!@ p) ↔ is_Some (D !!@ p).
Proof.
  intros H p. specialize (H p). destruct (D !!@ p) as [[|?|s]|]; try (by rewrite H).
  destruct H as (s' & -> & _). split; eauto.
Qed.

Lemma fits_refines σ D D' p : refines D' D → fits σ D' → D !!@ p = Some (DSet []) → False.
Proof.
  intros HR Hf Hp. specialize (HR p). rewrite Hp in HR. destruct HR as (s' & Hs' & Hsub).
  apply Hf in Hs'. eapply elem_of_sublist in Hs'; [|done]. by apply elem_of_nil in Hs'.
Qed.

(** ** The contract of constraint propagation *)

Class Propagator := {
  propagate : list pos → pos → domains → option (bool * domains);
  (** it always returns *)
  propagate_total vars v D : propagate vars v D ≠ None;
  (** it only removes candidates *)
  propagate_refines vars v D r D' : propagate vars v D = Some (r, D') → refines D' D;
  (** it never loses an assignment that satisfies the constraints and is
      pinned at the cell just assigned *)
  propagate_complete vars v D σ :
    (∀ u, u ∈ vars → on_board u) → v ∈ vars → fits σ D → respects vars σ →
    dom_at D v ⊆ [σ v] →
    ∃ D', propagate vars v D = Some (true, D') ∧ fits σ D'
}.
