(* ===== verification/Examples.v ===== *)
(** * Examples: concrete grids

    The grid of [src/javascript/example.js] and the small inputs at which
    the theorems with hypotheses are instantiated, among them the grids
    that exhibit the findings.  A digit [0] in [of_digits] stands for
    an empty ([null]) cell. *)

From S2P Require Import Prelude Grid.

Definition of_digits (rows : list (list nat)) : grid :=
  map (map (λ n, if n =? 0 then None else Some n)) rows.

(** example.js, lines 3-17: the puzzle the example script solves
    ([N] is [null]). *)
Definition example_grid : grid := of_digits
  [[0; 0; 0; 0; 0; 0; 0; 0; 0];
   [0; 0; 0; 0; 0; 3; 0; 8; 5];
   [0; 0; 1; 0; 2; 0; 0; 0; 0];
   [0; 0; 0; 5; 0; 7; 0; 0; 0];
   [0; 0; 4; 0; 0; 0; 1; 0; 0];
   [0; 9; 0; 0; 0; 0; 0; 0; 0];
   [5; 0; 0; 0; 0; 0; 0; 7; 3];
   [0; 0; 2; 0; 1; 0; 0; 0; 0];
   [0; 0; 0; 0; 4; 0; 0; 0; 9]].

(** A puzzle with 51 empty cells that the search solves in 51 nodes. *)
Definition easy_grid : grid := of_digits
  [[5; 3; 0; 0; 7; 0; 0; 0; 0];
   [6; 0; 0; 1; 9; 5; 0; 0; 0];
   [0; 9; 8; 0; 0; 0; 0; 6; 0];
   [8; 0; 0; 0; 6; 0; 0; 0; 3];
   [4; 0; 0; 8; 0; 3; 0; 0; 1];
   [7; 0; 0; 0; 2; 0; 0; 0; 6];
   [0; 6; 0; 0; 0; 0; 2; 8; 0];
   [0; 0; 0; 4; 1; 9; 0; 0; 5];
   [0; 0; 0; 0; 8; 0; 0; 7; 9]].

Definition easy_solution : grid := of_digits
  [[5; 3; 4; 6; 7; 8; 9; 1; 2];
   [6; 7; 2; 1; 9; 5; 3; 4; 8];
   [1; 9; 8; 3; 4; 2; 5; 6; 7];
   [8; 5; 9; 7; 6; 1; 4; 2; 3];
   [4; 2; 6; 8; 5; 3; 7; 9; 1];
   [7; 1; 3; 9; 2; 4; 8; 5; 6];
   [9; 6; 1; 5; 3; 7; 2; 8; 4];
   [2; 8; 7; 4; 1; 9; 6; 3; 5];
   [3; 4; 5; 2; 8; 6; 1; 7; 9]].

(** The empty grid. *)
Definition empty_grid : grid := replicate 9 (replicate 9 None).

(** A domain grid in which every cell is the set [{1, 2}]. *)
Definition two_doms : domains := replicate 9 (replicate 9 (DSet [1; 2])).

(** Two variables of one row: (0,0) pinned to 1, (0,1) with [{1, 2}],
    and the assignment that gives them 1 and 2. *)
Definition pair_vars : list pos := [(0, 0); (0, 1)].
Definition pair_doms : domains := [[DSet [1]; DSet [1; 2]]].
Definition pair_sigma (p : pos) : nat := if decide (p = (0, 0)) then 1 else 2.

(** [easy_solution] with the cell (0,0) emptied: its only empty cell sees
    every digit but 5. *)
Definition gap_grid : grid := update2 easy_solution (0, 0) None.

(** A solution of [example_grid] (the only one: an exhaustive search finds
    no other, which the development does not prove). *)
Definition example_solution : grid := of_digits
  [[9; 8; 7; 6; 5; 4; 3; 2; 1];
   [2; 4; 6; 1; 7; 3; 9; 8; 5];
   [3; 5; 1; 9; 2; 8; 7; 4; 6];
   [1; 2; 8; 5; 3; 7; 6; 9; 4];
   [6; 3; 4; 8; 9; 2; 1; 5; 7];
   [7; 9; 5; 4; 6; 1; 8; 3; 2];
   [5; 1; 9; 2; 8; 6; 4; 7; 3];
   [4; 7; 2; 3; 1; 9; 5; 6; 8];
   [8; 6; 3; 7; 4; 5; 2; 1; 9]].

(** Well formed but unsolvable: column 0 and the block of (0,0) leave
    only the digit 5 to both (0,0) and (1,0).  Propagation from
    (1,0) := 5 empties the domain of (0,0), which the test of line 205
    does not look at. *)
Definition wipeout_grid : grid := of_digits
  [[0; 0; 0; 0; 0; 0; 0; 0; 0];
   [0; 0; 0; 0; 0; 0; 0; 0; 0];
   [1; 9; 0; 0; 0; 0; 0; 0; 0];
   [2; 0; 0; 0; 0; 0; 0; 0; 0];
   [3; 0; 0; 0; 0; 0; 0; 0; 0];
   [4; 0; 0; 0; 0; 0; 0; 0; 0];
   [6; 0; 0; 0; 0; 0; 0; 0; 0];
   [7; 0; 0; 0; 0; 0; 0; 0; 0];
   [8; 0; 0; 0; 0; 0; 0; 0; 0]].

(** Every cell given, every given a 1: no solution extends it. *)
Definition ones_grid : grid := replicate 9 (replicate 9 (Some 1)).
