(* ===== verification/Init.v ===== *)
(** * Init: the [Sudoku] constructor (sudoku.js, lines 6-60)

    The object the constructor builds and the three things it computes: the
    shape check that throws, the list of variables (the falsy cells, in
    row-major order) and the initial domain of every variable, [{1..9}]
    minus the values of its row, column and block (node consistency). *)

From Stdlib Require Import String.
From S2P Require Import Prelude Grid Examples.

(** ** The solver object *)

(** The fields of [this]: [explored], [variables], [values], [domains]. *)
Record sudoku : Type := mk_sudoku {
  explored : nat;
  variables : list pos;
  values : grid;
  doms : domains
}.

(** The string the constructor throws. *)
Definition grid_error : string := "Sudoku grid must be 9x9.".

(** Lines 21-26: the empty (falsy) cells, in the order of the double loop. *)
Definition variables_of (g : grid) : list pos :=
  filter (λ p, is_falsy (cell_at g p) = true) all_cells.

(** [s.delete(c)] for a cell value: deleting [null] does nothing. *)
Definition set_delete_cell (s : list nat) (c : cell) : list nat :=
  match c with Some n => set_delete s n | None => s end.

(** One unary-constraint step:
    [if (dom.has(grid[i][j])) dom.delete(grid[i][j])]. *)
Definition prune (g : grid) (s : list nat) (q : pos) : list nat :=
  if set_has s (cell_at g q) then set_delete_cell s (cell_at g q) else s.

(** Lines 35-58: the initial domain of the variable [p = [x, y]]. *)
Definition init_domain (g : grid) (p : pos) : list nat :=
  let '(x, y) := p in
  let s0 := [1; 2; 3; 4; 5; 6; 7; 8; 9] in
  let s1 := fold_left (λ s i, if i =? y then s else prune g s (x, i)) (seq 0 9) s0 in
  let s2 := fold_left (λ s i, if i =? x then s else prune g s (i, y)) (seq 0 9) s1 in
  fold_left (λ s q, if bool_decide (q = (x, y)) then s else prune g s q) (box_cells (x, y)) s2.

(** Lines 32-35: [structuredClone(grid)], then a fresh [Set] per variable. *)
Definition init_domains (g : grid) (vars : list pos) : domains :=
  fold_left (λ D p, update2 D p (DSet (init_domain g p))) vars (fmap (M:=list) clone_cell <$> g).

(** The constructor: it throws [grid_error] unless the grid is 9 by 9;
    [this.values] is the caller's grid itself (line 29). *)
Definition sudoku_new (g : grid) : string + sudoku :=
  if negb (length g =? 9) then inl grid_error
  else if existsb (λ row, negb (length row =? 9)) g then inl grid_error
  else
    let vars := variables_of g in
    inr {| explored := 0; variables := vars; values := g; doms := init_domains g vars |}.

(** ** The shape check *)

Lemma shape9_iff {A} (g : list (list A)) :
  shape9 g ↔ length g = 9 ∧ Forall (λ row, length row = 9) g.
Proof.
  unfold shape9. rewrite (symmetry_iff _ _ (replicate 9 9)), replicate_as_Forall,
    length_fmap, Forall_fmap. split; intros [? Hf]; split; try done.
    all: eapply Forall_impl; [exact Hf|]; intros row; unfold compose; simpl; congruence.
Qed.

Lemma check_shape_spec (g : grid) :
  negb (length g =? 9) = false ∧ existsb (λ row, negb (length row =? 9)) g = false ↔ shape9 g.
Proof.
  rewrite shape9_iff, negb_false_iff, Nat.eqb_eq, <-not_true_iff_false, existsb_exists,
    Forall_forall. setoid_rewrite negb_true_iff. setoid_rewrite Nat.eqb_neq.
  split; [intros [? Hn]; split; [done|]|intros [? Hf]; split; [done|]].
  - intros row Hrow. destruct (decide (length row = 9)); [done|]. exfalso.
    apply Hn. exists row. rewrite <-list_elem_of_In. auto.
  - intros (row & Hrow & Hne). apply Hne, Hf, list_elem_of_In, Hrow.
Qed.

(** ** Variables *)

Lemma elem_of_variables_of g p :
  p ∈ variables_of g ↔ on_board p ∧ is_falsy (cell_at g p) = true.
Proof. unfold variables_of. rewrite list_elem_of_filter, elem_of_all_cells. tauto. Qed.

Lemma NoDup_variables_of g : NoDup (variables_of g).
Proof. apply list.NoDup_filter, NoDup_all_cells. Qed.

(** ** Initial domains *)

Lemma elem_of_prune g s q d : d ∈ prune g s q ↔ d ∈ s ∧ cell_at g q ≠ Some d.
Proof.
  unfold prune, set_has, set_delete_cell. destruct (cell_at g q) as [n|]; [|naive_solver].
  case_bool_decide as Hn; [rewrite elem_of_set_delete|]; split.
  - intros [? ?]; split; [done|congruence].
  - intros [? ?]; split; [done|congruence].
  - intros Hd; split; [done|]. intros [= ->]. done.
  - tauto.
Qed.

(** The three loops of unary constraints, as one lemma on a loop of
    [prune] steps guarded by a skip test. *)
Lemma elem_of_prune_loop {B} g (skip : B → bool) (f : B → pos) (l : list B) s d :
  d ∈ fold_left (λ s i, if skip i then s else prune g s (f i)) l s ↔
  d ∈ s ∧ ∀ i, i ∈ l → skip i = false → cell_at g (f i) ≠ Some d.
Proof.
  revert s. induction l as [|i l IH]; intros s; simpl.
  - split; [intros; split; [done|]; intros ? []%elem_of_nil|tauto].
  - rewrite IH. destruct (skip i) eqn:Hskip; [|rewrite elem_of_prune];
      setoid_rewrite elem_of_cons; split; intros; destruct_and?; split_and?;
      try done; try (intros j [->|Hj] Hs; [congruence|auto]); auto.
Qed.

(** The domain the constructor gives a variable on the board: the digits
    1-9 that no other cell of its row, column or block holds. *)
Lemma elem_of_init_domain g p d :
  on_board p →
  d ∈ init_domain g p ↔ 1 ≤ d ≤ 9 ∧ ∀ q, peers p q → cell_at g q ≠ Some d.
Proof.
  destruct p as [x y]. intros [Hx Hy]. cbn [fst snd] in Hx, Hy. unfold init_domain.
  rewrite !elem_of_prune_loop.
  assert (d ∈ [1; 2; 3; 4; 5; 6; 7; 8; 9] ↔ 1 ≤ d ≤ 9) as ->.
  { rewrite list_elem_of_In. simpl. lia. }
  setoid_rewrite elem_of_seq. setoid_rewrite elem_of_box_cells.
  setoid_rewrite bool_decide_eq_false. setoid_rewrite Nat.eqb_neq.
  split.
  - intros [[[Hd Hrow] Hcol] Hbox]. split; [done|].
    intros [i j] (_ & [Hi Hj] & Hne & Hu). unfold same_unit in Hu. simpl in *.
    destruct Hu as [<-|[<-|[Hbi Hbj]]].
    + apply Hrow; [lia|congruence].
    + apply Hcol; [lia|congruence].
    + apply Hbox; [simpl; auto|congruence].
  - intros [Hd Hp]. refine (conj (conj (conj Hd _) _) _).
    + intros i Hi Hne. apply Hp. unfold peers, on_board, same_unit; cbn [fst snd].
      split_and!; try lia; congruence.
    + intros i Hi Hne. apply Hp. unfold peers, on_board, same_unit; cbn [fst snd].
      split_and!; try lia; congruence.
    + intros [i j] [Hbi Hbj] Hne. cbn [fst snd] in *. apply Hp.
      unfold peers, on_board, same_unit; cbn [fst snd].
      split_and!; try lia; try congruence; eapply same_block_lt9; eauto.
Qed.

Lemma init_domains_fold_lookup g (vars : list pos) (D : domains) p :
  shape9 D → (∀ v, v ∈ vars → on_board v) →
  fold_left (λ D p, update2 D p (DSet (init_domain g p))) vars D !!@ p =
    if decide (p ∈ vars) then Some (DSet (init_domain g p)) else D !!@ p.
Proof.
  revert D. induction vars as [|v vars IH]; intros D HD Hvars; simpl; [done|].
  rewrite IH by (auto with sudoku; intros; apply Hvars; by right).
  rewrite lookup2_update2.
  assert (is_Some (D !!@ v)) as [w Hw] by (apply shape9_lookup2; [done|apply Hvars; left]).
  rewrite Hw. repeat case_decide; set_solver.
Qed.

Lemma init_domains_lookup g vars p :
  shape9 g → (∀ v, v ∈ vars → on_board v) →
  init_domains g vars !!@ p =
    if decide (p ∈ vars) then Some (DSet (init_domain g p)) else clone_cell <$> g !!@ p.
Proof.
  intros Hg Hvars. unfold init_domains.
  rewrite init_domains_fold_lookup by auto using shape9_fmap. by rewrite lookup2_fmap.
Qed.

Lemma shape9_init_domains g vars : shape9 g → shape9 (init_domains g vars).
Proof.
  intros Hg. unfold init_domains. generalize (fmap (M:=list) clone_cell <$> g) (shape9_fmap clone_cell g Hg).
  induction vars as [|v vars IH]; intros D HD; simpl; auto with sudoku.
Qed.

(** ** The constructor *)

(** The object the constructor builds on a 9x9 grid. *)
Definition init_sudoku (g : grid) : sudoku :=
  {| explored := 0; variables := variables_of g; values := g; doms := init_domains g (variables_of g) |}.

Lemma sudoku_new_inr g s : sudoku_new g = inr s ↔ shape9 g ∧ s = init_sudoku g.
Proof.
  rewrite <-check_shape_spec. unfold sudoku_new.
  destruct (negb _), (existsb _ _); simpl; split; try naive_solver.
Qed.

(** C10: the constructor throws exactly when the grid is not 9 by 9. *)
Theorem sudoku_new_error g : sudoku_new g = inl grid_error ↔ ¬ shape9 g.
Proof.
  rewrite <-check_shape_spec. unfold sudoku_new.
  destruct (negb _), (existsb _ _); simpl; split; intros H; try done; naive_solver.
Qed.

(** C9: on a 9x9 grid the constructor builds the object the solver starts
    from: no node explored, [values] the caller's grid, the variables are
    the falsy cells of the board, every variable holds the set of digits
    that none of its peers holds, and every other cell keeps its clone. *)
Theorem sudoku_new_spec g s :
  sudoku_new g = inr s →
  shape9 g ∧ explored s = 0 ∧ values s = g ∧ shape9 (doms s) ∧
  (∀ p, p ∈ variables s ↔ on_board p ∧ is_falsy (cell_at g p) = true) ∧
  (∀ p, p ∈ variables s →
     ∃ dom, doms s !!@ p = Some (DSet dom) ∧
       ∀ d, d ∈ dom ↔ 1 ≤ d ≤ 9 ∧ ∀ q, peers p q → cell_at g q ≠ Some d) ∧
  (∀ p, p ∉ variables s → doms s !!@ p = clone_cell <$> g !!@ p).
Proof.
  intros [Hg ->]%sudoku_new_inr. simpl.
  assert (∀ v, v ∈ variables_of g → on_board v) as Hon by (intros v; rewrite elem_of_variables_of; tauto).
  split_and!; auto using shape9_init_domains.
  - apply elem_of_variables_of.
  - intros p Hp. rewrite init_domains_lookup, decide_True by auto.
    eexists; split; [done|]. intros d. apply elem_of_init_domain, Hon, Hp.
  - intros p Hp. by rewrite init_domains_lookup, decide_False by auto.
Qed.

Lemma sudoku_new_spec_witness :
  sudoku_new easy_grid = inr (init_sudoku easy_grid) ∧
  explored (init_sudoku easy_grid) = 0 ∧ values (init_sudoku easy_grid) = easy_grid.
Proof.
  assert (sudoku_new easy_grid = inr (init_sudoku easy_grid)) as H by (vm_compute; reflexivity).
  destruct (sudoku_new_spec easy_grid _ H) as (_ & H0 & Hv & _). split_and!; [exact H|exact H0|exact Hv].
Defined.

(** Initial domains are sublists of [1..9]: at most nine distinct digits. *)
Lemma prune_loop_sublist {B} g (skip : B → bool) (f : B → pos) (l : list B) s :
  fold_left (λ s i, if skip i then s else prune g s (f i)) l s `sublist_of` s.
Proof.
  revert s. induction l as [|i l IH]; intros s; simpl; [done|].
  etrans; [apply IH|]. destruct (skip i); [done|].
  unfold prune, set_delete_cell. destruct (set_has _ _), (cell_at g (f i)); try done.
  apply sublist_filter.
Qed.

Lemma init_domain_sublist g p : init_domain g p `sublist_of` [1; 2; 3; 4; 5; 6; 7; 8; 9].
Proof.
  destruct p as [x y]. unfold init_domain.
  etrans; [apply prune_loop_sublist|]. etrans; [apply prune_loop_sublist|].
  apply prune_loop_sublist.
Qed.

Lemma length_init_domain g p : length (init_domain g p) ≤ 9.
Proof. apply (sublist_length _ _ (init_domain_sublist g p)). Qed.
