(* ===== verification/Neighbours.v ===== *)
(** * Neighbours: the constraint graph (sudoku.js, lines 142-189, 234-239)

    [neighbours(v)] lists the variables that share a row, a column or a
    block with [v], collected in a JavaScript [Set] of JSON strings and
    parsed back; [consistent(v, values)] checks the value just written at
    [v] against the values of those neighbours.  The set of variables is
    [this.variables], the section variable [vars] here.  [neighbours_cells]
    shows the JSON [Set] gives the list the same loops give on positions
    ([neighbour_cells]), on which the properties are proved. *)

From S2P Require Import Prelude Grid Json Examples.

(** Lines 235-239: [arr.some(elem => JSON.stringify(elem) === JSON.stringify(item))]. *)
Definition item_in_array (arr : list pos) (item : pos) : bool :=
  existsb (λ e, bool_decide (json_pos e = json_pos item)) arr.

Section Neighbours.
Context (vars : list pos).

(** Lines 155-189.  The [Set] of JSON strings is a list without
    duplicates in insertion order ([js_set_add]); the result is
    [JSON.parse] of each string of the set, in order. *)
Definition neighbours (v : pos) : list pos :=
  let '(x, y) := v in
  let s1 := js_add_loop (λ i, negb (i =? y) && item_in_array vars (x, i))
              (λ i, json_pos (x, i)) (seq 0 9) [] in
  let s2 := js_add_loop (λ i, negb (i =? x) && item_in_array vars (i, y))
              (λ i, json_pos (i, y)) (seq 0 9) s1 in
  let s3 := js_add_loop (λ q, negb (bool_decide (q = (x, y))) && item_in_array vars q)
              (λ q, json_pos q) (box_cells (x, y)) s2 in
  omap json_parse_pos s3.

(** Lines 142-153: [false] as soon as a neighbour holds the value of [v]
    (JavaScript [===] on numbers and [null]). *)
Definition consistent (v : pos) (values : grid) : bool :=
  forallb (λ n, negb (bool_decide (cell_at values v = cell_at values n))) (neighbours v).

(** The same three loops on a [Set] of positions instead of their JSON
    strings: the reference the properties are first proved on. *)
Definition neighbour_cells (v : pos) : list pos :=
  let '(x, y) := v in
  let s1 := js_add_loop (λ i, negb (i =? y) && item_in_array vars (x, i))
              (λ i, (x, i)) (seq 0 9) [] in
  let s2 := js_add_loop (λ i, negb (i =? x) && item_in_array vars (i, y))
              (λ i, (i, y)) (seq 0 9) s1 in
  js_add_loop (λ q, negb (bool_decide (q = (x, y))) && item_in_array vars q)
    (λ q, q) (box_cells (x, y)) s2.
End Neighbours.

(** ** Properties *)

Lemma item_in_array_spec arr item : item_in_array arr item = true ↔ item ∈ arr.
Proof.
  unfold item_in_array. rewrite existsb_exists, list_elem_of_In.
  split; [intros (e & He & ->%bool_decide_eq_true%(inj _)); done|].
  intros; exists item; by rewrite bool_decide_eq_true.
Qed.

(** Keeping the JSON strings in the [Set] and parsing them back gives
    the list the same loops give on positions. *)
Lemma neighbours_cells vars v : neighbours vars v = neighbour_cells vars v.
Proof.
  destruct v as [x y]. unfold neighbours, neighbour_cells.
  change (@nil String.string) with (json_pos <$> @nil pos).
  rewrite !(js_add_loop_inj json_pos). apply omap_json_parse.
Qed.

Section NeighbourFacts.
Context (vars : list pos).

(** The neighbours of a cell of the board are the variables that are
    its peers (other cells of its row, column or block). *)
Theorem elem_of_neighbours v q :
  on_board v → q ∈ neighbours vars v ↔ q ∈ vars ∧ peers v q.
Proof.
  destruct v as [x y], q as [i j]. intros [Hx Hy]. cbn [fst snd] in Hx, Hy.
  rewrite neighbours_cells. unfold neighbour_cells. rewrite !elem_of_js_add_loop.
  setoid_rewrite elem_of_seq. setoid_rewrite elem_of_box_cells.
  setoid_rewrite andb_true_iff. setoid_rewrite negb_true_iff.
  setoid_rewrite bool_decide_eq_false. setoid_rewrite Nat.eqb_neq.
  setoid_rewrite item_in_array_spec.
  unfold peers, on_board, same_unit. cbn [fst snd]. split.
  - intros [[[[]%elem_of_nil|(k & Hk & [Hne Hin] & [= -> ->])]|(k & Hk & [Hne Hin] & [= -> ->])]
           |([k l] & [Hbk Hbl] & [Hne Hin] & [= -> ->])]; cbn [fst snd] in *;
      split_and!; try done; try lia; try congruence;
      eapply same_block_lt9; eauto.
  - intros (Hin & _ & [Hi Hj] & Hne & Hu).
    destruct (decide (i = x)) as [->|Hix]; [left; left; right; exists j; split_and!; auto with lia; congruence|].
    destruct (decide (j = y)) as [->|Hjy]; [left; right; exists i; split_and!; auto with lia|].
    right. exists (i, j). destruct Hu as [?|[?|[]]]; [lia|lia|]. split_and!; auto; congruence.
Qed.

Lemma NoDup_neighbours v : NoDup (neighbours vars v).
Proof.
  destruct v as [x y]. rewrite neighbours_cells. unfold neighbour_cells. repeat apply NoDup_js_add_loop. constructor.
Qed.

Lemma length_neighbours v : length (neighbours vars v) ≤ 27.
Proof.
  destruct v as [x y]. rewrite neighbours_cells. unfold neighbour_cells.
  assert (∀ n m k, n ≤ m → n + k ≤ m + k) as Hmono by lia.
  etrans; [apply length_js_add_loop|]. rewrite length_box_cells. apply (Hmono _ 18).
  etrans; [apply length_js_add_loop|]. rewrite length_seq. apply (Hmono _ 9).
  etrans; [apply length_js_add_loop|]. rewrite length_seq. simpl. lia.
Qed.

Lemma neighbours_sym v q :
  on_board v → q ∈ neighbours vars v → v ∈ vars → v ∈ neighbours vars q.
Proof.
  intros Hv Hq Hvv. apply elem_of_neighbours in Hq as [Hqv Hp]; [|done].
  apply elem_of_neighbours; [apply Hp|]. split; [done|].
  destruct Hp as (? & ? & ? & Hu). unfold peers, same_unit in *. intuition congruence.
Qed.

(** [consistent] accepts the value at [v] exactly when no variable that
    is a peer of [v] holds the same cell value. *)
Theorem consistent_spec v values :
  on_board v →
  consistent vars v values = true ↔
    ∀ n, n ∈ vars → peers v n → cell_at values n ≠ cell_at values v.
Proof.
  intros Hv. unfold consistent. rewrite forallb_forall. split.
  - intros H n Hn Hp Heq.
    assert (n ∈ neighbours vars v) as Hin by (apply elem_of_neighbours; auto).
    apply list_elem_of_In, H in Hin. rewrite Heq, bool_decide_eq_true_2 in Hin by done.
    discriminate.
  - intros H n Hn. rewrite <-list_elem_of_In, elem_of_neighbours in Hn by done.
    destruct Hn as [Hn Hp]. apply negb_true_iff, bool_decide_eq_false. intros Heq.
    by apply (H n).
Qed.
End NeighbourFacts.

(** C7: for a list of variables without repetition, [neighbours v] of a
    cell of the board lists each variable that is a peer of [v] exactly
    once: it is a permutation of the peers of [v] among the variables (so
    its length, the degree of [v], is their number). *)
Theorem neighbours_perm vars v :
  on_board v → NoDup vars → neighbours vars v ≡ₚ filter (peers v) vars.
Proof.
  intros Hv Hvars. apply NoDup_Permutation; [apply NoDup_neighbours|by apply list.NoDup_filter|].
  intros q. rewrite elem_of_neighbours, list_elem_of_filter by done. tauto.
Qed.

(** C8: after the search writes [d] at the cell [v] of a 9x9 grid,
    [consistent] accepts the assignment exactly when no variable that is a
    peer of [v] already holds [d]. *)
Theorem consistent_assign vars v values d :
  on_board v → shape9 values →
  consistent vars v (update2 values v (Some d)) = true ↔
    ∀ n, n ∈ vars → peers v n → cell_at values n ≠ Some d.
Proof.
  intros Hv Hsh. assert (is_Some (values !!@ v)) as Hs by (by apply shape9_lookup2).
  rewrite consistent_spec by done. setoid_rewrite cell_at_update2; [|done..].
  rewrite decide_True by done.
  split; intros H n Hn Hvn; specialize (H n Hn Hvn);
    rewrite decide_False in * by (destruct Hvn as (_ & _ & ? & _); done); done.
Qed.

Lemma neighbours_perm_witness :
  (on_board (4, 4) ∧ NoDup all_cells) ∧
  neighbours all_cells (4, 4) ≡ₚ filter (peers (4, 4)) all_cells ∧
  length (neighbours all_cells (4, 4)) = 20.
Proof.
  assert (on_board (4, 4)) as Hb by (split; simpl; lia).
  split_and!; [exact Hb|apply NoDup_all_cells| |vm_compute; reflexivity].
  exact (neighbours_perm all_cells (4, 4) Hb NoDup_all_cells).
Defined.

Lemma consistent_assign_witness :
  (on_board (0, 2) ∧ shape9 easy_grid) ∧
  ∀ n, n ∈ all_cells → peers (0, 2) n → cell_at easy_grid n ≠ Some 4.
Proof.
  assert (on_board (0, 2)) as Hb by (split; simpl; lia).
  assert (shape9 easy_grid) as Hs by reflexivity.
  split; [split; [exact Hb|exact Hs]|].
  apply (consistent_assign all_cells (0, 2) easy_grid 4 Hb Hs). vm_compute. reflexivity.
Defined.

(** Every cell of the board has 20 peers: 8 in its row, 8 in its
    column and 4 more in its block. *)
Lemma length_peers v : on_board v → length (filter (peers v) all_cells) = 20.
Proof.
  revert v. apply (forall_on_board_dec (λ v, length (filter (peers v) all_cells) = 20)).
  vm_compute. exact I.
Qed.

(** C15: a cell of the board has at most 20 neighbours (the degree the
    selection compares is at most 20), and exactly 20 when every cell of
    the board is a variable. *)
Theorem neighbours_bound vars v :
  on_board v →
  length (neighbours vars v) ≤ 20 ∧
  ((∀ q, on_board q → q ∈ vars) → length (neighbours vars v) = 20).
Proof.
  intros Hv. rewrite <-(length_peers v Hv).
  assert (∀ q, q ∈ neighbours vars v → q ∈ filter (peers v) all_cells) as Hsub.
  { intros q Hq. apply elem_of_neighbours in Hq as [_ Hq]; [|done].
    apply list_elem_of_filter. split; [done|]. apply elem_of_all_cells, Hq. }
  split.
  - apply submseteq_length, NoDup_submseteq; [apply NoDup_neighbours|exact Hsub].
  - intros Hall. apply Permutation_length, NoDup_Permutation;
      [apply NoDup_neighbours|apply list.NoDup_filter, NoDup_all_cells|].
    intros q. split; [apply Hsub|]. rewrite list_elem_of_filter. intros [Hq _].
    apply elem_of_neighbours; [done|]. split; [apply Hall, Hq|done].
Qed.

Lemma neighbours_bound_witness :
  on_board (4, 4) ∧ length (neighbours all_cells (4, 4)) ≤ 20 ∧ length (neighbours all_cells (4, 4)) = 20.
Proof.
  assert (on_board (4, 4)) as Hb by (split; simpl; lia).
  destruct (neighbours_bound all_cells (4, 4) Hb) as [H1 H2].
  split_and!; [exact Hb|exact H1|]. apply H2. intros q Hq. by apply elem_of_all_cells.
Defined.
