(* ===== verification/Select.v ===== *)
(** * Select: choosing the variable to branch on (sudoku.js, lines 107-140)

    [unassigned_variable(values, domains)] scans the [null] cells in
    row-major order keeping a best size [mrv] (initially 10), a best degree
    (initially 0) and a candidate.  The reference [mrv_last] is the same
    scan without the degree: the equivalence theorem shows that the degree
    bookkeeping never changes the result, and [mrv_last_spec] that the
    result is the last cell of minimum domain size. *)

From S2P Require Import Prelude Grid Examples Neighbours.

(** Lines 120-125: the [null] cells of [values], row-major. *)
Definition unassigned_variables (values : grid) : list pos :=
  filter (λ p, cell_at values p = None) all_cells.

(** [domains[x][y].size <= mrv]: [undefined <= mrv] is [false]. *)
Definition size_le (D : domains) (v : pos) (mrv : nat) : bool :=
  match size_at D v with Some sz => sz <=? mrv | None => false end.

(** One iteration of the loop of lines 127-138 on the state
    [(mrv, degree, candidate)]. *)
Definition mrv_step (vars : list pos) (D : domains)
    (st : nat * nat * option pos) (v : pos) : nat * nat * option pos :=
  let '(mrv, degree, candidate) := st in
  if size_le D v mrv then
    let candidate := Some v in
    let mrv := default 0 (size_at D v) in
    let n := length (neighbours vars v) in
    if degree <? n then (mrv, n, Some v) else (mrv, degree, candidate)
  else (mrv, degree, candidate).

Definition unassigned_variable (vars : list pos) (values : grid) (D : domains) : option pos :=
  (fold_left (mrv_step vars D) (unassigned_variables values) (10, 0, None)).2.

(** ** Reference: minimum remaining values, later cells winning ties *)

Definition mrv_ref_step (D : domains) (st : nat * option pos) (v : pos) : nat * option pos :=
  if size_le D v st.1 then (default 0 (size_at D v), Some v) else st.

Definition mrv_last (U : list pos) (D : domains) : option pos :=
  (fold_left (mrv_ref_step D) U (10, None)).2.

Lemma mrv_fold_equiv vars D U mrv degree c :
  (fold_left (mrv_step vars D) U (mrv, degree, c)).2 = (fold_left (mrv_ref_step D) U (mrv, c)).2.
Proof.
  revert mrv degree c. induction U as [|v U IH]; intros mrv degree c; simpl; [done|].
  unfold mrv_ref_step at 2. simpl. destruct (size_le D v mrv); [|apply IH].
  destruct (degree <? _); apply IH.
Qed.

(** C5: the selection is the degree-free MRV scan: the degree heuristic
    the code computes never changes which cell is chosen. *)
Theorem unassigned_variable_mrv vars values D :
  unassigned_variable vars values D = mrv_last (unassigned_variables values) D.
Proof. apply mrv_fold_equiv. Qed.

Lemma mrv_ref_fold_spec D U mrv c :
  (∀ u, u ∈ U → is_Some (size_at D u)) →
  let r := fold_left (mrv_ref_step D) U (mrv, c) in
  (r = (mrv, c) ∧ ∀ u, u ∈ U → mrv < default 0 (size_at D u)) ∨
  ∃ pre v post, U = pre ++ v :: post ∧ r = (default 0 (size_at D v), Some v) ∧
    default 0 (size_at D v) ≤ mrv ∧
    (∀ u, u ∈ pre → default 0 (size_at D v) ≤ default 0 (size_at D u)) ∧
    (∀ u, u ∈ post → default 0 (size_at D v) < default 0 (size_at D u)).
Proof.
  revert mrv c. induction U as [|u U IH]; intros mrv c HU; simpl.
  { left. split; [done|]. intros ? []%elem_of_nil. }
  assert (is_Some (size_at D u)) as [su Hsu] by (apply HU; left).
  assert (∀ w, w ∈ U → is_Some (size_at D w)) as HU' by (intros; apply HU; by right).
  destruct (su <=? mrv) eqn:Hle.
  all: assert (mrv_ref_step D (mrv, c) u = if su <=? mrv then (su, Some u) else (mrv, c)) as Hstep
    by (unfold mrv_ref_step, size_le; simpl; by rewrite Hsu).
  all: rewrite Hle in Hstep; rewrite Hstep; unbool.
  - destruct (IH su (Some u) HU') as [[-> Hpost]|(pre & v & post & -> & Hr & Hv & Hpre & Hpost)].
    + right. exists [], u, U. rewrite Hsu. simpl.
      split_and!; try done; try lia; try (intros ? []%elem_of_nil); auto.
    + right. exists (u :: pre), v, post. split_and!; try done; try lia.
      intros w [->|Hw]%elem_of_cons; [rewrite Hsu; simpl; lia|auto].
  - destruct (IH mrv c HU') as [[-> Hpost]|(pre & v & post & -> & Hr & Hv & Hpre & Hpost)].
    + left. split; [done|]. intros w [->|Hw]%elem_of_cons; [rewrite Hsu; simpl; lia|auto].
    + right. exists (u :: pre), v, post. split_and!; try done; try lia.
      intros w [->|Hw]%elem_of_cons; [rewrite Hsu; simpl; lia|auto].
Qed.

(** The reference scan over [U] returns [None] only on an empty list, and
    otherwise the last element of minimum domain size. *)
Lemma mrv_last_spec U D :
  Forall (λ u, size_le D u 10 = true) U →
  (U = [] ∧ mrv_last U D = None) ∨
  ∃ pre v post, U = pre ++ v :: post ∧ mrv_last U D = Some v ∧
    (∀ u, u ∈ pre → default 0 (size_at D v) ≤ default 0 (size_at D u)) ∧
    (∀ u, u ∈ post → default 0 (size_at D v) < default 0 (size_at D u)).
Proof.
  intros HU'. unfold mrv_last.
  assert (∀ u, u ∈ U → ∃ s, size_at D u = Some s ∧ s ≤ 10) as HU.
  { intros u Hu. eapply Forall_forall in HU'; [|exact Hu]. unfold size_le in HU'.
    destruct (size_at D u) as [s|]; [|done]. apply Nat.leb_le in HU'. eauto. }
  destruct (mrv_ref_fold_spec D U 10 None) as [[Hr Hall]|Hex].
  - intros u Hu. destruct (HU u Hu) as (s & -> & _). eauto.
  - left. rewrite Hr. split; [|done].
    destruct U as [|u U]; [done|].
    destruct (HU u (list_elem_of_here _ _)) as (s & Hs & Hle).
    specialize (Hall u (list_elem_of_here _ _)). rewrite Hs in Hall. simpl in Hall. lia.
  - right. destruct Hex as (pre & v & post & -> & -> & _ & Hpre & Hpost). eauto 10.
Qed.

(** C6: when every [null] cell holds a set of at most 10 candidates, the
    selection returns [null] only when no cell is [null], and otherwise the
    last [null] cell (row-major) whose domain size is the minimum. *)
Theorem unassigned_variable_spec vars values D :
  Forall (λ u, size_le D u 10 = true) (unassigned_variables values) →
  (unassigned_variables values = [] ∧ unassigned_variable vars values D = None) ∨
  ∃ pre v post, unassigned_variables values = pre ++ v :: post ∧
    unassigned_variable vars values D = Some v ∧
    (∀ u, u ∈ pre → default 0 (size_at D v) ≤ default 0 (size_at D u)) ∧
    (∀ u, u ∈ post → default 0 (size_at D v) < default 0 (size_at D u)).
Proof. unfold unassigned_variable. rewrite mrv_fold_equiv. apply mrv_last_spec. Qed.

Lemma unassigned_variable_spec_witness :
  Forall (λ u, size_le two_doms u 10 = true) (unassigned_variables empty_grid) ∧
  unassigned_variable all_cells empty_grid two_doms ≠ None.
Proof.
  assert (Forall (λ u, size_le two_doms u 10 = true) (unassigned_variables empty_grid)) as H.
  { refine (bool_decide_unpack _ _). vm_compute. exact I. }
  split; [exact H|].
  pose proof (unassigned_variable_spec all_cells empty_grid two_doms H) as Hs.
  destruct Hs as [[Hu _]|(pre & v & post & _ & Hv & _)].
  - vm_compute in Hu. discriminate Hu.
  - intros E. rewrite Hv in E. discriminate E.
Defined.



Lemma elem_of_unassigned_variables values p :
  p ∈ unassigned_variables values ↔ on_board p ∧ cell_at values p = None.
Proof. unfold unassigned_variables. rewrite list_elem_of_filter, elem_of_all_cells. tauto. Qed.
