(* ===== verification/AC3.v ===== *)
(** * AC3: constraint propagation (sudoku.js, lines 191-231)

    [revise(a, b, domains)] removes from the domain of [a] the first value
    that is also in the domain of [b]; [ac3(v, domains)] runs a FIFO queue
    of arcs seeded with [(n, v)] for every neighbour [n] of [v], revising
    each arc and, when the domain of [a] becomes a singleton, queueing the
    arcs [(c, a)] for the other neighbours [c] of [a].  The domains are
    mutated in place: the model returns the new domain grid.

    The loop is a [Fixpoint] on fuel.  [ac3_fuel] gives it one step more
    than the measure [28 * dom_total + length queue], which every iteration
    decreases (a removal shrinks [dom_total] by one and queues at most 27
    arcs, the bound on [neighbours]); [ac3_terminates] proves that this
    fuel never runs out.  [ac3_pinned_idempotent] is the idempotence the
    specification asks for, from the pinned seeds the search uses: a
    second run from the same cell on the result changes nothing. *)

From S2P Require Import Prelude Grid Json Spec Examples Neighbours.

Section AC3.
Context (vars : list pos).

(** Lines 219-231. *)
Definition revise (a b : pos) (D : domains) : bool * domains :=
  match find (λ value, bool_decide (value ∈ dom_at D b)) (dom_at D a) with
  | Some value => (true, update2 D a (DSet (set_delete (dom_at D a) value)))
  | None => (false, D)
  end.

(** Lines 210-213: [for (c of new_neighbours) if (domains[a].size === 1)
    queue.push([c, a])]. *)
Definition push_arcs (D : domains) (a : pos) (cs : list pos) (queue : list (pos * pos))
    : list (pos * pos) :=
  fold_left (λ q c, if bool_decide (size_at D a = Some 1) then q ++ [(c, a)] else q) cs queue.

(** Lines 201-216.  Line 205 tests the size of [domains[a[0]][b[0]]]:
    the row of [a] and the {e row} of [b], as the code is written. *)
Fixpoint ac3_loop (fuel : nat) (queue : list (pos * pos)) (D : domains)
    : option (bool * domains) :=
  match fuel with
  | 0 => None
  | S fuel =>
    match queue with
    | [] => Some (true, D)
    | (a, b) :: queue =>
      let '(revised, D) := revise a b D in
      if revised then
        if bool_decide (size_at D (a.1, b.1) = Some 0) then Some (false, D)
        else
          let new_neighbours := filter (λ e, json_pos e ≠ json_pos b) (neighbours vars a) in
          ac3_loop fuel (push_arcs D a new_neighbours queue) D
      else ac3_loop fuel queue D
    end
  end.

Definition ac3_measure (queue : list (pos * pos)) (D : domains) : nat :=
  28 * dom_total D + length queue.

Definition ac3_fuel (queue : list (pos * pos)) (D : domains) : nat :=
  S (ac3_measure queue D).

(** Lines 196-199: the queue starts with the arcs [(n, v)]. *)
Definition ac3 (v : pos) (D : domains) : option (bool * domains) :=
  let queue := map (λ n, (n, v)) (neighbours vars v) in
  ac3_loop (ac3_fuel queue D) queue D.
End AC3.

(** ** [revise] *)

Lemma dom_at_Some D p : dom_at D p ≠ [] → D !!@ p = Some (DSet (dom_at D p)).
Proof. unfold dom_at. destruct (D !!@ p) as [[]|]; done. Qed.

(** When it reports a removal, [revise] deleted from the set of [a] a
    value of that set that the set of [b] holds. *)
Lemma revise_true a b D D' :
  revise a b D = (true, D') →
  ∃ value, value ∈ dom_at D a ∧ value ∈ dom_at D b ∧
    D !!@ a = Some (DSet (dom_at D a)) ∧
    D' = update2 D a (DSet (set_delete (dom_at D a) value)).
Proof.
  unfold revise. destruct (find _ _) as [value|] eqn:Hf; [|done]. intros [= <-].
  apply find_some in Hf as [Hin Hb%bool_decide_eq_true]. apply list_elem_of_In in Hin.
  exists value. split_and!; auto. apply dom_at_Some. by intros Hn; rewrite Hn in Hin; apply elem_of_nil in Hin.
Qed.

Lemma revise_false a b D D' :
  revise a b D = (false, D') → D' = D ∧ ∀ x, x ∈ dom_at D a → x ∉ dom_at D b.
Proof.
  unfold revise. destruct (find _ _) eqn:Hf; [done|]. intros [= <-]. split; [done|].
  intros x Hx Hb. eapply find_none in Hf; [|by apply list_elem_of_In].
  by rewrite bool_decide_eq_true_2 in Hf.
Qed.

(** ** The queue *)

Lemma length_push_arcs D a cs queue : length (push_arcs D a cs queue) ≤ length queue + length cs.
Proof.
  unfold push_arcs. revert queue. induction cs as [|c cs IH]; intros queue; simpl; [lia|].
  etrans; [apply IH|]. case_bool_decide; rewrite ?length_app; simpl; lia.
Qed.

Lemma elem_of_push_arcs D a cs queue arc :
  arc ∈ push_arcs D a cs queue ↔
  arc ∈ queue ∨ (size_at D a = Some 1 ∧ ∃ c, c ∈ cs ∧ arc = (c, a)).
Proof.
  unfold push_arcs. revert queue. induction cs as [|c cs IH]; intros queue; simpl.
  { split; [auto|]. intros [?|(_ & ? & []%elem_of_nil & _)]; done. }
  rewrite IH. setoid_rewrite elem_of_cons. case_bool_decide as Hs.
  - rewrite elem_of_app, list_elem_of_singleton. naive_solver.
  - naive_solver.
Qed.

(** ** Termination *)

Lemma revise_true_total a b D D' :
  revise a b D = (true, D') → dom_total D' < dom_total D.
Proof.
  intros (value & Ha & Hb & HDa & ->)%revise_true.
  pose proof (dom_total_update2 D a _ (DSet (set_delete (dom_at D a) value)) HDa) as Heq.
  pose proof (length_set_delete (dom_at D a) value Ha). simpl in Heq. lia.
Qed.

Lemma ac3_step_measure vars a b queue D D' :
  revise a b D = (true, D') →
  ac3_measure (push_arcs D' a (filter (λ e, json_pos e ≠ json_pos b) (neighbours vars a)) queue) D' <
  ac3_measure ((a, b) :: queue) D.
Proof.
  intros Hr. apply revise_true_total in Hr.
  pose proof (length_push_arcs D' a (filter (λ e, json_pos e ≠ json_pos b) (neighbours vars a)) queue).
  pose proof (length_filter (λ e, json_pos e ≠ json_pos b) (neighbours vars a)).
  pose proof (length_neighbours vars a). unfold ac3_measure in *. simpl. lia.
Qed.

(** The AC-3 loop stops before its fuel runs out whenever the fuel
    exceeds the measure [28 * dom_total D + length queue]. *)
Lemma ac3_loop_total vars fuel queue D :
  ac3_measure queue D < fuel → ac3_loop vars fuel queue D ≠ None.
Proof.
  revert queue D. induction fuel as [|fuel IH]; intros queue D Hf; [lia|].
  destruct queue as [|[a b] queue]; simpl; [done|].
  destruct (revise a b D) as [[] D'] eqn:Hr.
  - case_bool_decide; [done|]. apply IH.
    pose proof (ac3_step_measure vars a b queue D D' Hr). lia.
  - apply revise_false in Hr as [-> _]. apply IH. unfold ac3_measure in *. simpl in Hf. lia.
Qed.

Lemma ac3_fuel_enough queue D : ac3_measure queue D < ac3_fuel queue D.
Proof. unfold ac3_fuel. lia. Qed.

(** C4: [ac3] always returns: the fuel [ac3_fuel] it is given never runs
    out, so the [while] loop of lines 201-216 terminates on every domain
    grid and every seed cell. *)
Theorem ac3_terminates vars v D : ac3 vars v D ≠ None.
Proof. unfold ac3. apply ac3_loop_total, ac3_fuel_enough. Qed.

(** ** Propagation only removes candidates *)

Lemma revise_refines a b D r D' : revise a b D = (r, D') → refines D' D.
Proof.
  destruct r.
  - intros (value & _ & _ & Ha & ->)%revise_true.
    eapply refines_update2; [done|apply sublist_filter].
  - intros [-> _]%revise_false. reflexivity.
Qed.

(** Whatever it returns, the loop leaves every cell that is not a set
    unchanged and only removes candidates from the sets. *)
Lemma ac3_loop_refines vars fuel queue D r D' :
  ac3_loop vars fuel queue D = Some (r, D') → refines D' D.
Proof.
  revert queue D. induction fuel as [|fuel IH]; intros queue D; simpl; [done|].
  destruct queue as [|[a b] queue]; [intros [= _ <-]; reflexivity|].
  destruct (revise a b D) as [revised D1] eqn:Hr. pose proof (revise_refines _ _ _ _ _ Hr).
  destruct revised.
  - case_bool_decide.
    + intros [= _ <-]. done.
    + intros Hl. etrans; [eapply IH, Hl|done].
  - intros Hl. etrans; [eapply IH, Hl|done].
Qed.

(** ** Propagation keeps every solution *)

(** An arc [(a, b)] of the queue: two variables that are peers, [b]
    pinned to at most the value [σ b]. *)
Definition arc_ok (vars : list pos) (σ : pos → nat) (D : domains) (arc : pos * pos) : Prop :=
  arc.1 ∈ vars ∧ arc.2 ∈ vars ∧ peers arc.1 arc.2 ∧ dom_at D arc.2 ⊆ [σ arc.2].

Section Complete.
Context (vars : list pos) (σ : pos → nat).
Hypothesis Hvars : ∀ u, u ∈ vars → on_board u.
Hypothesis Hresp : respects vars σ.

Lemma revise_keeps_fits a b D D' :
  arc_ok vars σ D (a, b) → fits σ D → revise a b D = (true, D') → fits σ D'.
Proof.
  intros (Ha & Hb & Hab & Hpin) Hfit (value & Hva & Hvb & HDa & ->)%revise_true.
  apply Hpin, list_elem_of_singleton in Hvb as ->. simpl in *.
  intros p s. rewrite lookup2_update2, HDa. case_decide as Hp; [subst p|by apply Hfit].
  intros [= <-]. apply elem_of_set_delete. split; [by eapply Hfit|].
  by apply Hresp.
Qed.

Lemma push_arcs_ok a b D queue :
  a ∈ vars → fits σ D →
  Forall (arc_ok vars σ D) queue →
  Forall (arc_ok vars σ D) (push_arcs D a (filter (λ e, json_pos e ≠ json_pos b) (neighbours vars a)) queue).
Proof.
  intros Ha Hfit Hq. apply Forall_forall. intros arc [Hin|[H1 (c & Hc & ->)]]%elem_of_push_arcs.
  - by eapply Forall_forall in Hq.
  - apply list_elem_of_filter in Hc as [_ Hc].
    apply elem_of_neighbours in Hc as [Hc Hac]; [|auto].
    apply size_at_dom_at in H1 as [HDa Hlen].
    split_and!; simpl; auto using peers_sym.
    assert (σ a ∈ dom_at D a) as Hσ by (by eapply Hfit).
    destruct (dom_at D a) as [|w [|]]; simpl in Hlen; try lia.
    apply list_elem_of_singleton in Hσ as ->. done.
Qed.

Lemma arcs_ok_refines D D' queue :
  refines D' D → Forall (arc_ok vars σ D) queue → Forall (arc_ok vars σ D') queue.
Proof.
  intros HR Hq. eapply Forall_impl; [exact Hq|]. intros [a b] (? & ? & ? & Hpin). split_and!; auto.
  etrans; [apply refines_dom_at, HR|done].
Qed.

Lemma ac3_loop_complete fuel queue D :
  ac3_measure queue D < fuel → fits σ D → Forall (arc_ok vars σ D) queue →
  ∃ D', ac3_loop vars fuel queue D = Some (true, D') ∧ fits σ D'.
Proof.
  revert queue D. induction fuel as [|fuel IH]; intros queue D Hf Hfit Hq; [lia|].
  destruct queue as [|[a b] queue]; simpl; [eauto|].
  apply Forall_cons in Hq as [Hab Hq].
  destruct (revise a b D) as [[] D1] eqn:Hr.
  - pose proof (revise_keeps_fits a b D D1 Hab Hfit Hr) as Hfit1.
    pose proof (revise_refines _ _ _ _ _ Hr) as HR.
    case_bool_decide as Hz.
    + exfalso. apply size_at_dom_at in Hz as [Hz Hlen].
      destruct (dom_at D1 _); [|done]. by apply (fits_refines σ D1 D1 (a.1, b.1)).
    + apply IH; [pose proof (ac3_step_measure vars a b queue D D1 Hr); lia|done|].
      apply push_arcs_ok; [apply Hab|done|]. by eapply arcs_ok_refines.
  - apply revise_false in Hr as [-> _]. apply IH; [unfold ac3_measure in *; simpl in Hf; lia|done|done].
Qed.
End Complete.

(** The seed arcs [(n, v)] satisfy [arc_ok] when [σ] pins [v]. *)
Lemma ac3_seed_ok vars σ v D :
  (∀ u, u ∈ vars → on_board u) → v ∈ vars → dom_at D v ⊆ [σ v] →
  Forall (arc_ok vars σ D) (map (λ n, (n, v)) (neighbours vars v)).
Proof.
  intros Hvars Hv Hpin. apply Forall_forall. intros [n v'] (n' & [= -> ->] & Hn)%list_elem_of_fmap.
  apply elem_of_neighbours in Hn as [Hn Hp]; [|auto].
  split_and!; simpl; auto using peers_sym.
Qed.

(** C11: whatever it returns, [ac3] leaves every cell that is not a set
    unchanged and only removes candidates from the sets (the domains are
    mutated in place, never widened). *)
Theorem ac3_refines vars v D r D' : ac3 vars v D = Some (r, D') → refines D' D.
Proof. unfold ac3. apply ac3_loop_refines. Qed.

(** C3: if an assignment [σ] of the variables satisfies every constraint
    between them, is allowed by the domains and pins the cell [v] just
    assigned, then [ac3] seeded at [v] reports success and every domain it
    returns still allows [σ]: propagation never prunes a solution. *)
Theorem ac3_complete vars σ v D :
  (∀ u, u ∈ vars → on_board u) → v ∈ vars → respects vars σ → fits σ D →
  dom_at D v ⊆ [σ v] →
  ∃ D', ac3 vars v D = Some (true, D') ∧ fits σ D'.
Proof.
  intros Hvars Hv Hresp Hfit Hpin.
  apply (ac3_loop_complete vars σ Hvars Hresp); [apply ac3_fuel_enough|done|by apply ac3_seed_ok].
Qed.

(** ** Re-running from a pinned cell *)

Lemma ac3_loop_noop vars fuel queue D :
  length queue < fuel → (∀ a b, (a, b) ∈ queue → revise a b D = (false, D)) →
  ac3_loop vars fuel queue D = Some (true, D).
Proof.
  revert fuel. induction queue as [|[a b] queue IH]; intros [|fuel] Hf Hq; simpl in *; try lia; [done|].
  rewrite Hq by left. apply IH; [lia|]. intros a' b' Hab. apply Hq. by right.
Qed.

Lemma revise_none a b D : (∀ y, y ∈ dom_at D a → y ∉ dom_at D b) → revise a b D = (false, D).
Proof.
  intros Hno. unfold revise. destruct (find _ _) as [y|] eqn:Hf; [|done].
  apply find_some in Hf as [Hin Hb%bool_decide_eq_true]. apply list_elem_of_In in Hin.
  by destruct (Hno y Hin).
Qed.

(** [push_arcs] only appends to the queue. *)
Lemma push_arcs_app D a cs queue : ∃ extra, push_arcs D a cs queue = queue ++ extra.
Proof.
  unfold push_arcs. revert queue. induction cs as [|c cs IH]; intros queue; simpl.
  - exists []. by rewrite app_nil_r.
  - case_bool_decide; [destruct (IH (queue ++ [(c, a)])) as [e ->]|destruct (IH queue) as [e ->]].
    + exists ([(c, a)] ++ e). by rewrite app_assoc.
    + by exists e.
Qed.

(** The seed arcs [(n, v)] come before every arc the loop appends, so
    they are all revised while [v] still holds its one value [x]: after a
    successful run no seed neighbour holds [x]. *)
Lemma ac3_loop_seeds vars v x fuel seeds pushed D D' :
  dom_at D v = [x] → (∀ n, n ∈ seeds → n ≠ v) →
  ac3_loop vars fuel (map (λ n, (n, v)) seeds ++ pushed) D = Some (true, D') →
  ∀ n, n ∈ seeds → x ∉ dom_at D' n.
Proof.
  revert fuel pushed D. induction seeds as [|n seeds IH]; intros fuel pushed D Hv Hne;
    [intros _ m Hm; by apply elem_of_nil in Hm|].
  destruct fuel as [|fuel]; [done|]. simpl.
  assert (n ≠ v) as Hnv by (apply Hne; left).
  assert (∀ m, m ∈ seeds → m ≠ v) as Hne' by (intros m Hm; apply Hne; by right).
  destruct (revise n v D) as [[] D1] eqn:Hr.
  - pose proof Hr as (value & Hva & Hvb & HDa & ->)%revise_true.
    rewrite Hv in Hvb. apply list_elem_of_singleton in Hvb as ->.
    case_bool_decide; [done|].
    destruct (push_arcs_app (update2 D n (DSet (set_delete (dom_at D n) x))) n
      (filter (λ e, json_pos e ≠ json_pos v) (neighbours vars n))
      (map (λ n0, (n0, v)) seeds ++ pushed)) as [extra ->].
    rewrite <-app_assoc. intros Hl m [->|Hm]%elem_of_cons.
    + intros Hx. apply ac3_loop_refines in Hl. apply (refines_dom_at _ _ n Hl) in Hx.
      rewrite dom_at_update2, decide_True in Hx by (done || eauto).
      by apply elem_of_set_delete in Hx as [_ []].
    + apply (IH fuel (pushed ++ extra) (update2 D n (DSet (set_delete (dom_at D n) x)))); [|done|done|done].
      rewrite dom_at_update2, decide_False by (done || eauto). done.
  - apply revise_false in Hr as [-> Hno]. intros Hl m [->|Hm]%elem_of_cons.
    + intros Hx. apply ac3_loop_refines in Hl. apply (refines_dom_at _ _ n Hl) in Hx.
      apply (Hno x Hx). rewrite Hv. by left.
    + by apply (IH fuel pushed D).
Qed.

(** C20: the idempotence of domain pruning (specification, section 8),
    for the seeds the search uses.  When [ac3] seeded at a cell [v] whose
    domain is the single value [x] (the cell just assigned) succeeds with
    domains [D'], running it again from [v] on [D'] succeeds and changes
    no domain: the first run already removed [x] from every neighbour of
    [v], and the second run only revises the arcs [(n, v)]. *)
Theorem ac3_pinned_idempotent vars v x D D' :
  (∀ u, u ∈ vars → on_board u) → v ∈ vars → dom_at D v = [x] →
  ac3 vars v D = Some (true, D') → ac3 vars v D' = Some (true, D').
Proof.
  intros Hvars Hv Hpin Hac. unfold ac3 in *.
  assert (∀ n, n ∈ neighbours vars v → n ≠ v) as Hne.
  { intros n Hn ->. apply elem_of_neighbours in Hn as [_ (_ & _ & Hvv & _)]; [done|auto]. }
  pose proof (ac3_loop_seeds vars v x (ac3_fuel (map (λ n, (n, v)) (neighbours vars v)) D)
    (neighbours vars v) [] D D' Hpin Hne) as Hseeds.
  rewrite app_nil_r in Hseeds. specialize (Hseeds Hac).
  assert (dom_at D' v ⊆ [x]) as Hv' by (rewrite <-Hpin; eapply refines_dom_at, ac3_loop_refines, Hac).
  apply ac3_loop_noop; [unfold ac3_fuel, ac3_measure; lia|].
  intros a b (n & [= -> ->] & Hn)%list_elem_of_fmap. apply revise_none.
  intros y Hy Hyv. apply Hv', list_elem_of_singleton in Hyv as ->. by apply (Hseeds n Hn).
Qed.

(** The pinning hypothesis is needed: seeded at (0,1), whose domain is
    [{1, 2}], the first run succeeds and the second refutes the domains
    although the assignment (0,0) := 2, (0,1) := 1 still fits them. *)
Lemma ac3_pinned_idempotent_witness :
  ((∀ u, u ∈ pair_vars → on_board u) ∧ (0, 0) ∈ pair_vars ∧ dom_at pair_doms (0, 0) = [1] ∧
   ac3 pair_vars (0, 0) pair_doms = Some (true, [[DSet [1]; DSet [2]]])) ∧
  ac3 pair_vars (0, 0) [[DSet [1]; DSet [2]]] = Some (true, [[DSet [1]; DSet [2]]]) ∧
  ac3 pair_vars (0, 1) [[DSet [1; 2]; DSet [1; 2]]] = Some (true, [[DSet [2]; DSet [1; 2]]]) ∧
  ac3 pair_vars (0, 1) [[DSet [2]; DSet [1; 2]]] = Some (false, [[DSet []; DSet [1; 2]]]).
Proof.
  assert (∀ u, u ∈ pair_vars → on_board u) as H1.
  { intros u Hu. unfold pair_vars in Hu. rewrite !elem_of_cons, elem_of_nil in Hu.
    destruct Hu as [->|[->|[]]]; split; simpl; lia. }
  assert ((0, 0) ∈ pair_vars) as H2 by constructor.
  assert (dom_at pair_doms (0, 0) = [1]) as H3 by (vm_compute; reflexivity).
  assert (ac3 pair_vars (0, 0) pair_doms = Some (true, [[DSet [1]; DSet [2]]])) as H4
    by (vm_compute; reflexivity).
  split; [split_and!; assumption|]. split; [exact (ac3_pinned_idempotent pair_vars (0, 0) 1 _ _ H1 H2 H3 H4)|].
  split; vm_compute; reflexivity.
Defined.

#[export] Program Instance ac3_propagator : Propagator := {| propagate := ac3 |}.
Next Obligation. intros vars v D. unfold ac3. apply ac3_loop_total, ac3_fuel_enough. Qed.
Next Obligation. intros vars v D r D'. unfold ac3. apply ac3_loop_refines. Qed.
Next Obligation.
  intros vars v D σ Hvars Hv Hfit Hresp Hpin.
  apply (ac3_loop_complete vars σ Hvars Hresp); [apply ac3_fuel_enough|done|by apply ac3_seed_ok].
Qed.

Lemma ac3_complete_witness :
  ((∀ u, u ∈ pair_vars → on_board u) ∧ (0, 0) ∈ pair_vars ∧ respects pair_vars pair_sigma ∧
   fits pair_sigma pair_doms ∧ dom_at pair_doms (0, 0) ⊆ [pair_sigma (0, 0)]) ∧
  ∃ D', ac3 pair_vars (0, 0) pair_doms = Some (true, D') ∧ fits pair_sigma D'.
Proof.
  assert (∀ u, u ∈ pair_vars → on_board u) as H1.
  { intros u Hu. unfold pair_vars in Hu. rewrite !elem_of_cons, elem_of_nil in Hu.
    destruct Hu as [->|[->|[]]]; split; simpl; lia. }
  assert ((0, 0) ∈ pair_vars) as H2 by constructor.
  assert (respects pair_vars pair_sigma) as H3.
  { intros a b Ha Hb (_ & _ & Hne & _). unfold pair_vars in Ha, Hb.
    rewrite !elem_of_cons, elem_of_nil in Ha, Hb.
    destruct Ha as [->|[->|[]]], Hb as [->|[->|[]]]; try congruence; vm_compute; lia. }
  assert (fits pair_sigma pair_doms) as H4.
  { solve_fits_row. }
  assert (dom_at pair_doms (0, 0) ⊆ [pair_sigma (0, 0)]) as H5.
  { vm_compute. intros x Hx. exact Hx. }
  split; [split_and!; assumption|].
  exact (ac3_complete pair_vars pair_sigma (0, 0) pair_doms H1 H2 H3 H4 H5).
Defined.

Lemma ac3_refines_witness :
  ac3 pair_vars (0, 0) pair_doms = Some (true, [[DSet [1]; DSet [2]]]) ∧
  refines [[DSet [1]; DSet [2]]] pair_doms.
Proof.
  assert (ac3 pair_vars (0, 0) pair_doms = Some (true, [[DSet [1]; DSet [2]]])) as H
    by (vm_compute; reflexivity).
  split; [exact H|exact (ac3_refines pair_vars (0, 0) pair_doms true _ H)].
Defined.
