(* ===== verification/AC3Spec.v ===== *)
(** * AC3Spec: the AC-3 of the specification and its agreement with the code

    The specification (section 4.2, step 3) fails propagation when the
    domain of [a] becomes empty after [revise(a, b)].  Line 205 of
    sudoku.js tests [domains[a[0]][b[0]]] instead.  [ac3_loop_spec] is the
    code's loop with the test of the specification; everything else
    (the seeding, [revise], the filter and the queueing) is the code's.

    [ac3_loop_spec_agrees] shows that the two loops give the same
    successful result on every run that leaves no domain empty, and
    [ac3_spec_propagator] makes the specification's loop a [Propagator].
    Both serve [SpecSearch], which compares the two searches. *)

From S2P Require Import Prelude Grid Json Spec Examples Neighbours AC3.

(** No cell of the domain grid is an empty set. *)
Definition no_empty (D : domains) : Prop := ∀ p, size_at D p ≠ Some 0.

Section AC3Spec.
Context (vars : list pos).

(** The loop of lines 201-216 with the failure test of the
    specification: the domain of [a], just revised. *)
Fixpoint ac3_loop_spec (fuel : nat) (queue : list (pos * pos)) (D : domains)
    : option (bool * domains) :=
  match fuel with
  | 0 => None
  | S fuel =>
    match queue with
    | [] => Some (true, D)
    | (a, b) :: queue =>
      let '(revised, D) := revise a b D in
      if revised then
        if bool_decide (size_at D a = Some 0) then Some (false, D)
        else
          let new_neighbours := filter (λ e, json_pos e ≠ json_pos b) (neighbours vars a) in
          ac3_loop_spec fuel (push_arcs D a new_neighbours queue) D
      else ac3_loop_spec fuel queue D
    end
  end.

Definition ac3_spec (v : pos) (D : domains) : option (bool * domains) :=
  let queue := map (λ n, (n, v)) (neighbours vars v) in
  ac3_loop_spec (ac3_fuel queue D) queue D.
End AC3Spec.

(** ** Empty domains *)

Lemma size0_refines D' D p : refines D' D → size_at D p = Some 0 → size_at D' p = Some 0.
Proof.
  intros HR Hp. apply size_at_dom_at in Hp as [Hp Hl]. specialize (HR p). rewrite Hp in HR.
  destruct HR as (s' & Hs' & Hsub). unfold size_at. rewrite Hs'.
  destruct (dom_at D p); [|done]. by apply sublist_nil_r in Hsub as ->.
Qed.

Lemma revise_no_empty a b D D1 :
  revise a b D = (true, D1) → no_empty D → size_at D1 a ≠ Some 0 → no_empty D1.
Proof.
  intros (value & _ & _ & _ & ->)%revise_true Hne Ha p.
  destruct (decide (a = p)) as [<-|Hap]; [done|].
  unfold size_at. rewrite lookup2_update2_ne by done. apply Hne.
Qed.

Lemma fits_no_empty σ D : fits σ D → no_empty D.
Proof.
  intros Hf p Hp. apply size_at_dom_at in Hp as [Hp Hl]. apply Hf in Hp.
  destruct (dom_at D p); [by apply elem_of_nil in Hp|simpl in Hl; lia].
Qed.

(** ** Agreement with the code's loop *)

(** The two loops, run with the same fuel from domains without an empty
    set, succeed with the same domains, exactly when the code's loop
    succeeds without emptying a domain. *)
Lemma ac3_loop_spec_agrees vars fuel queue D D' :
  no_empty D →
  ac3_loop_spec vars fuel queue D = Some (true, D') ↔
  ac3_loop vars fuel queue D = Some (true, D') ∧ no_empty D'.
Proof.
  revert queue D. induction fuel as [|fuel IH]; intros queue D Hne; simpl; [naive_solver|].
  destruct queue as [|[a b] queue]; [naive_solver|].
  destruct (revise a b D) as [[] D1] eqn:Hr.
  - case_bool_decide as Ha.
    + split; [done|]. intros [Hc Hne']. case_bool_decide; [done|].
      apply ac3_loop_refines in Hc. exfalso. by apply (Hne' a), (size0_refines _ D1).
    + pose proof (revise_no_empty a b D D1 Hr Hne Ha) as Hne1.
      case_bool_decide as Hb; [by destruct (Hne1 (a.1, b.1))|]. by apply IH.
  - apply revise_false in Hr as [-> _]. by apply IH.
Qed.

(** ** The specification's loop is a propagator *)

Lemma ac3_loop_spec_total vars fuel queue D :
  ac3_measure queue D < fuel → ac3_loop_spec vars fuel queue D ≠ None.
Proof.
  revert queue D. induction fuel as [|fuel IH]; intros queue D Hf; [lia|].
  destruct queue as [|[a b] queue]; simpl; [done|].
  destruct (revise a b D) as [[] D'] eqn:Hr.
  - case_bool_decide; [done|]. apply IH.
    pose proof (ac3_step_measure vars a b queue D D' Hr). lia.
  - apply revise_false in Hr as [-> _]. apply IH. unfold ac3_measure in *. simpl in Hf. lia.
Qed.

Lemma ac3_loop_spec_refines vars fuel queue D r D' :
  ac3_loop_spec vars fuel queue D = Some (r, D') → refines D' D.
Proof.
  revert queue D. induction fuel as [|fuel IH]; intros queue D; simpl; [done|].
  destruct queue as [|[a b] queue]; [intros [= _ <-]; reflexivity|].
  destruct (revise a b D) as [revised D1] eqn:Hr. pose proof (revise_refines _ _ _ _ _ Hr).
  destruct revised; [case_bool_decide; [by intros [= _ <-]|]|].
  all: intros Hl; etrans; [eapply IH, Hl|done].
Qed.

Lemma ac3_spec_complete vars σ v D :
  (∀ u, u ∈ vars → on_board u) → v ∈ vars → fits σ D → respects vars σ →
  dom_at D v ⊆ [σ v] →
  ∃ D', ac3_spec vars v D = Some (true, D') ∧ fits σ D'.
Proof.
  intros Hvars Hv Hfit Hresp Hpin.
  destruct (ac3_loop_complete vars σ Hvars Hresp (ac3_fuel (map (λ n, (n, v)) (neighbours vars v)) D)
    (map (λ n, (n, v)) (neighbours vars v)) D) as (D' & Hl & Hfit');
    [apply ac3_fuel_enough|done|by apply ac3_seed_ok|].
  exists D'. split; [|done]. unfold ac3_spec.
  apply ac3_loop_spec_agrees; [by apply (fits_no_empty σ)|split; [done|by apply (fits_no_empty σ)]].
Qed.

Program Definition ac3_spec_propagator : Propagator := {| propagate := ac3_spec |}.
Next Obligation. intros vars v D. unfold ac3_spec. apply ac3_loop_spec_total, ac3_fuel_enough. Qed.
Next Obligation. intros vars v D r D'. unfold ac3_spec. apply ac3_loop_spec_refines. Qed.
Next Obligation. intros vars v D σ. apply ac3_spec_complete. Qed.
