(* ===== verification/Backtrack.v ===== *)
(** * Backtrack: the search (sudoku.js, lines 72-105)

    [backtrack(values, domains)] returns [values] when no cell is [null];
    otherwise it counts one explored node, selects a variable [v] and tries
    every value of its domain in order on copies of the grid and of the
    domains: a value is kept when [consistent] accepts it and propagation
    from [v] (pinned to that value) succeeds, and the first recursive call
    that returns a grid wins.

    The search is written against the [Propagator] interface of [Spec]
    (the code calls [this.ac3]; [Solve.solve] instantiates it with
    [AC3.ac3_propagator]).  The counter [this.explored] is the state of
    the monad [M].  The recursion is on fuel: [backtrack_total] shows that
    any fuel above the number of [null] cells is enough, since every
    recursive call fills one more [null] cell; [backtrack_shiftable] that
    the nodes a search explores do not depend on the counter's start.
    [empty_domain_abandoned]: a branch that holds an empty domain is
    abandoned at its next node; [try_values_short_circuit]: the first
    grid found wins and later candidates are not explored. *)

From S2P Require Import Prelude Grid Spec Examples Init Neighbours Select AC3.

(** Line 78: [values.every(row => row.every(cell => cell !== null))]. *)
Definition solved (values : grid) : bool :=
  forallb (λ row, forallb (λ c, bool_decide (c ≠ None)) row) values.

Section Search.
Context `{Propagator} (vars : list pos).

(** Lines 87-103: the loop over the candidate values of [v]; [rec] is
    the recursive call [this.backtrack]. *)
Definition try_values (rec : grid → domains → M (option grid))
    (values : grid) (D : domains) (v : pos) : list nat → M (option grid) :=
  fix loop vals :=
    match vals with
    | [] => ret None
    | value :: vals =>
      let new_values := update2 values v (Some value) in
      let new_domains := D in
      if consistent vars v new_values then
        match propagate vars v (update2 new_domains v (DSet [value])) with
        | None => crash
        | Some (false, _) => loop vals
        | Some (true, new_domains) =>
          let* result := rec new_values new_domains in
          match result with Some g => ret (Some g) | None => loop vals end
        end
      else loop vals
    end.

(** Lines 72-105.  [let [x, y] = v] with [v = null] throws: [crash]. *)
Fixpoint backtrack (fuel : nat) (values : grid) (D : domains) : M (option grid) :=
  match fuel with
  | 0 => crash
  | S fuel =>
    if solved values then ret (Some values)
    else
      tick ;;
      match unassigned_variable vars values D with
      | None => crash
      | Some v => try_values (backtrack fuel) values D v (dom_at D v)
      end
  end.
End Search.

(** ** The goal test and the number of [null] cells *)

Lemma solved_spec values :
  shape9 values → solved values = true ↔ ∀ p, on_board p → cell_at values p ≠ None.
Proof.
  intros Hsh. unfold solved. rewrite forallb_forall. split.
  - intros Hall p Hp. apply (shape9_lookup2 values p Hsh) in Hp as [c Hc].
    unfold cell_at. rewrite Hc. simpl. unfold lookup2 in Hc.
    destruct (values !! p.1) as [row|] eqn:Hrow; simplify_eq/=.
    specialize (Hall row (proj1 (list_elem_of_In _ _) (list_elem_of_lookup_2 _ _ _ Hrow))).
    rewrite forallb_forall in Hall.
    specialize (Hall c (proj1 (list_elem_of_In _ _) (list_elem_of_lookup_2 _ _ _ Hc))).
    by apply bool_decide_eq_true in Hall.
  - intros Hall row Hrow. apply forallb_forall. intros c Hc.
    apply list_elem_of_In, list_elem_of_lookup in Hrow as [i Hi].
    apply list_elem_of_In, list_elem_of_lookup in Hc as [j Hj].
    assert (values !!@ (i, j) = Some c) as Hij by (unfold lookup2, grid, cell in *; cbn [fst snd]; by rewrite Hi).
    apply bool_decide_eq_true. specialize (Hall (i, j)).
    unfold cell_at in Hall. rewrite Hij in Hall. apply Hall, (shape9_lookup2 values); eauto.
Qed.

(** A 9x9 grid without [null] cells is solved. *)
Lemma count_null_solved values : shape9 values → count_null values = 0 → solved values = true.
Proof.
  intros Hsh Hc. apply (solved_spec values Hsh). intros p Hp Hnull.
  assert (p ∈ filter (λ q, cell_at values q = None) all_cells) as Hin
    by (apply list_elem_of_filter; split; [done|by apply elem_of_all_cells]).
  unfold count_null in Hc. apply nil_length_inv in Hc. rewrite Hc in Hin. by apply elem_of_nil in Hin.
Qed.

(** Writing a value into an empty cell of the board leaves one empty
    cell less. *)
Lemma count_null_update2_eq values v x :
  on_board v → shape9 values → cell_at values v = None →
  count_null values = S (count_null (update2 values v (Some x))).
Proof.
  intros Hv Hsh Hnull. unfold count_null.
  assert (is_Some (values !!@ v)) as Hs by (by apply shape9_lookup2).
  apply (length_filter_one _ _ _ v); [apply NoDup_all_cells|by apply elem_of_all_cells|done| |].
  - rewrite cell_at_update2, decide_True by done. done.
  - intros y Hy. rewrite cell_at_update2, decide_False by done. done.
Qed.

Lemma count_null_update2 values v x :
  on_board v → shape9 values → cell_at values v = None →
  count_null (update2 values v (Some x)) < count_null values.
Proof. intros Hv Hsh Hnull. rewrite (count_null_update2_eq values v x) by done. lia. Qed.

(** ** The search never gets stuck *)

(** What the search needs to make progress: every [null] cell of the board
    is a variable whose domain is a set of at most nine candidates. *)
Definition progress_inv (vars : list pos) (values : grid) (D : domains) : Prop :=
  shape9 values ∧
  ∀ p, on_board p → cell_at values p = None →
    p ∈ vars ∧ ∃ s, D !!@ p = Some (DSet s) ∧ length s ≤ 9.

Lemma progress_sizes (vars : list pos) values D :
  shape9 values →
  (∀ p, on_board p → cell_at values p = None →
     p ∈ vars ∧ ∃ s, D !!@ p = Some (DSet s) ∧ length s ≤ 9) →
  Forall (λ u, size_le D u 10 = true) (unassigned_variables values).
Proof.
  intros Hsh Hinv. apply Forall_forall. intros u [Hu Hnull]%elem_of_unassigned_variables.
  destruct (Hinv u Hu Hnull) as (_ & s & Hs & Hlen).
  unfold size_le, size_at. rewrite Hs. apply Nat.leb_le. lia.
Qed.

(** The selected cell splits the [null] cells: the ones before it have
    domains at least as large, the ones after it strictly larger. *)
Lemma selected_spec vars values D v :
  progress_inv vars values D → unassigned_variable vars values D = Some v →
  ∃ pre post, unassigned_variables values = pre ++ v :: post ∧
    (∀ u, u ∈ pre → default 0 (size_at D v) ≤ default 0 (size_at D u)) ∧
    (∀ u, u ∈ post → default 0 (size_at D v) < default 0 (size_at D u)).
Proof.
  intros [Hsh Hinv] Hv.
  assert (unassigned_variable vars values D = mrv_last (unassigned_variables values) D) as Heq
    by apply mrv_fold_equiv. rewrite Heq in *.
  destruct (mrv_last_spec (unassigned_variables values) D) as [[_ Hn]|(pre & w & post & Hu & Hw & H)].
  - by apply (progress_sizes vars).
  - congruence.
  - rewrite Hv in Hw. injection Hw as <-. eauto.
Qed.

Lemma selected_is_null vars values D v :
  progress_inv vars values D → unassigned_variable vars values D = Some v →
  on_board v ∧ cell_at values v = None.
Proof.
  intros Hinv Hv. destruct (selected_spec vars values D v Hinv Hv) as (pre & post & Hu & _).
  apply elem_of_unassigned_variables. rewrite Hu. apply elem_of_app. right. apply list_elem_of_here.
Qed.

(** The selected cell has a domain no larger than any [null] cell's. *)
Lemma selected_min vars values D v u :
  progress_inv vars values D → unassigned_variable vars values D = Some v →
  on_board u → cell_at values u = None → default 0 (size_at D v) ≤ default 0 (size_at D u).
Proof.
  intros Hinv Hv Hu Hnull. destruct (selected_spec vars values D v Hinv Hv) as (pre & post & HU & Hpre & Hpost).
  assert (u ∈ unassigned_variables values) as Hin by (by apply elem_of_unassigned_variables).
  rewrite HU in Hin. apply elem_of_app in Hin as [Hin|[->|Hin]%elem_of_cons]; [by apply Hpre|done|].
  apply Hpost in Hin. lia.
Qed.

Lemma selection_exists vars values D :
  progress_inv vars values D → solved values = false →
  ∃ v, unassigned_variable vars values D = Some v.
Proof.
  intros [Hsh Hinv] Hns.
  assert (unassigned_variable vars values D = mrv_last (unassigned_variables values) D) as Heq
    by apply mrv_fold_equiv. rewrite Heq in *.
  destruct (mrv_last_spec (unassigned_variables values) D) as [[Hu _]|(pre & w & post & _ & Hw & _)]; eauto.
  - by apply (progress_sizes vars).
  - exfalso. apply not_true_iff_false in Hns. apply Hns, solved_spec; [done|].
    intros p Hp Hnull. assert (p ∈ unassigned_variables values) as Hin
      by (by apply elem_of_unassigned_variables). rewrite Hu in Hin. by apply elem_of_nil in Hin.
Qed.

Lemma progress_inv_step `{Propagator} vars values D v value D' :
  progress_inv vars values D → on_board v →
  is_Some (D !!@ v) → refines D' (update2 D v (DSet [value])) →
  progress_inv vars (update2 values v (Some value)) D'.
Proof.
  intros [Hsh Hinv] Hv HDv HR. split; [auto with sudoku|].
  intros p Hp. assert (is_Some (values !!@ v)) by (by apply shape9_lookup2).
  rewrite cell_at_update2 by done. case_decide as Hvp; [done|]. intros Hnull.
  destruct (Hinv p Hp Hnull) as (Hpv & s & Hs & Hlen). split; [done|].
  specialize (HR p). rewrite lookup2_update2, decide_False in HR by done. rewrite Hs in HR.
  destruct HR as (s' & Hs' & Hsub). exists s'. split; [done|].
  pose proof (sublist_length _ _ Hsub). lia.
Qed.

Section Total.
Context `{Propagator} (vars : list pos).

Lemma try_values_total fuel values D v vals n :
  progress_inv vars values D → on_board v → cell_at values v = None → is_Some (D !!@ v) →
  count_null values < S fuel →
  (∀ values' D' n', progress_inv vars values' D' → count_null values' < fuel →
     backtrack vars fuel values' D' n' ≠ None) →
  try_values vars (backtrack vars fuel) values D v vals n ≠ None.
Proof.
  intros Hinv Hv Hnull HDv Hfuel IH. revert n. induction vals as [|value vals IHv]; intros n; simpl; [done|].
  destruct (consistent vars v _); [|done].
  destruct (propagate vars v _) as [[[] D']|] eqn:Hp; [|done|by apply propagate_total in Hp].
  unfold bind. destruct (backtrack vars fuel _ D' n) as [[r n1]|] eqn:Hb.
  - destruct r; [done|]. apply IHv.
  - exfalso. revert Hb. apply IH.
    + eapply progress_inv_step; eauto using propagate_refines.
    + pose proof (count_null_update2 values v value Hv (proj1 Hinv) Hnull). lia.
Qed.

(** From any state where every [null] cell is a variable holding a set
    of at most nine candidates, [backtrack] returns (a grid or [null])
    whenever its fuel exceeds the number of [null] cells: the recursion
    depth is bounded by the number of empty cells, and the selection
    never comes back empty-handed. *)
Lemma backtrack_total fuel values D n :
  progress_inv vars values D → count_null values < fuel → backtrack vars fuel values D n ≠ None.
Proof.
  revert values D n. induction fuel as [|fuel IH]; intros values D n Hinv Hfuel; [lia|].
  simpl. destruct (solved values) eqn:Hs; [done|].
  destruct (selection_exists vars values D Hinv Hs) as [v Hv].
  unfold bind, tick. rewrite Hv.
  destruct (selected_is_null vars values D v Hinv Hv) as [Hvb Hnull].
  destruct Hinv as [Hsh Hinv']. destruct (Hinv' v Hvb Hnull) as (_ & s & Hs' & _).
  apply try_values_total; eauto. split; eauto.
Qed.
End Total.

(** The constructor's object satisfies [progress_inv]: every [null] cell
    is falsy, hence a variable, and its domain is [init_domain]. *)
Lemma progress_inv_init g : shape9 g → progress_inv (variables_of g) g (init_domains g (variables_of g)).
Proof.
  intros Hg. split; [done|]. intros p Hp Hnull.
  assert (p ∈ variables_of g) as Hv by (apply elem_of_variables_of; by rewrite Hnull).
  split; [done|].
  rewrite init_domains_lookup, decide_True by (done || intros v; rewrite elem_of_variables_of; tauto).
  eexists; split; [done|apply length_init_domain].
Qed.


(** ** The explored counter *)

Section Counter.
Context `{Propagator} (vars : list pos).

Lemma backtrack_shiftable fuel values D : shiftable (backtrack vars fuel values D).
Proof.
  revert values D. induction fuel as [|fuel IH]; intros values D; simpl; [auto with sudoku|].
  destruct (solved values); [auto with sudoku|]. apply bind_shiftable; [auto with sudoku|].
  intros []. destruct (unassigned_variable vars values D) as [v|]; [|auto with sudoku].
  induction (dom_at D v) as [|value vals IHv]; simpl; [auto with sudoku|].
  destruct (consistent vars v _); [|done].
  destruct (propagate vars v _) as [[[] D']|]; [|done|auto with sudoku].
  apply bind_shiftable; [apply IH|]. intros [g'|]; auto with sudoku.
Qed.

(** The number of nodes a search explores does not depend on the value
    the counter starts from. *)
Lemma backtrack_count fuel values D n r k :
  backtrack vars fuel values D 0 = Some (r, k) → backtrack vars fuel values D n = Some (r, n + k).
Proof. intros Hb. by rewrite backtrack_shiftable, Hb. Qed.
End Counter.

(** A loop that returns a grid got it from the search below one of its
    candidates, which passed the consistency check and propagation. *)
Lemma try_values_Some `{Propagator} vars rec values D v vals n g n' :
  try_values vars rec values D v vals n = Some (Some g, n') →
  ∃ value D' m, value ∈ vals ∧ consistent vars v (update2 values v (Some value)) = true ∧
    propagate vars v (update2 D v (DSet [value])) = Some (true, D') ∧
    rec (update2 values v (Some value)) D' m = Some (Some g, n').
Proof.
  revert n. induction vals as [|value vals IH]; intros n; simpl; [done|].
  assert (∀ k, try_values vars rec values D v vals k = Some (Some g, n') →
    ∃ value' D' m, value' ∈ value :: vals ∧ consistent vars v (update2 values v (Some value')) = true ∧
      propagate vars v (update2 D v (DSet [value'])) = Some (true, D') ∧
      rec (update2 values v (Some value')) D' m = Some (Some g, n')) as IH'.
  { intros k (value' & D' & m & Hin & ?)%IH. exists value', D', m. split; [by right|done]. }
  destruct (consistent vars v _) eqn:Hc; [|apply IH'].
  destruct (propagate vars v _) as [[[] D']|] eqn:Hp; [|apply IH'|done].
  rewrite bind_Some. intros ([g1|] & n1 & Hb & Hk); [|by apply IH' in Hk].
  injection Hk as -> ->. exists value, D', n. split_and!; [left|done..].
Qed.

(** [progress_inv] on a concrete state, by evaluation over the board. *)
Lemma progress_inv_check vars values D :
  shape9 values →
  bool_decide (Forall (λ p, cell_at values p = None → p ∈ vars ∧ size_le D p 9 = true) all_cells) →
  progress_inv vars values D.
Proof.
  intros Hsh Hall. split; [done|]. intros p Hp Hnull.
  destruct (forall_on_board_dec _ Hall p Hp Hnull) as [Hv Hs]. split; [done|].
  unfold size_le, size_at in Hs. destruct (D !!@ p) as [[|n|s]|]; try discriminate Hs.
  exists s. split; [done|]. by apply Nat.leb_le.
Qed.

(** C24: the search never goes past an empty domain.  When some [null]
    cell of the board has an empty set of candidates, [backtrack] counts
    one node, selects a cell whose set is empty too (the minimum size is
    0), tries no value and returns [null]: the branch is abandoned at
    the first node that sees the empty domain, as the specification's
    domain invariant requires. *)
Theorem empty_domain_abandoned `{Propagator} vars fuel values D n u :
  progress_inv vars values D → on_board u → cell_at values u = None → dom_at D u = [] →
  backtrack vars (S fuel) values D n = Some (None, S n).
Proof.
  intros Hinv Hu Hnull Hdom.
  assert (solved values = false) as Hs.
  { apply not_true_iff_false. intros Hs. by apply (proj1 (solved_spec values (proj1 Hinv)) Hs u). }
  destruct (selection_exists vars values D Hinv Hs) as [v Hv].
  assert (dom_at D v = []) as Hv0.
  { pose proof (selected_min vars values D v u Hinv Hv Hu Hnull) as Hle.
    destruct (selected_is_null vars values D v Hinv Hv) as [Hvb Hvn].
    destruct (proj2 Hinv u Hu Hnull) as (_ & s & Hsu & _).
    destruct (proj2 Hinv v Hvb Hvn) as (_ & t & Ht & _).
    unfold size_at, dom_at in *. rewrite Hsu in Hdom, Hle. rewrite Ht in Hle |- *. subst s.
    destruct t; simpl in Hle; [done|lia]. }
  simpl. rewrite Hs. unfold bind, tick. rewrite Hv, Hv0. reflexivity.
Qed.

Lemma empty_domain_abandoned_witness :
  let D := update2 (init_domains gap_grid (variables_of gap_grid)) (0, 0) (DSet []) in
  backtrack (variables_of gap_grid) 2 gap_grid D 0 = Some (None, 1).
Proof.
  intros D. apply (empty_domain_abandoned (variables_of gap_grid) 1 gap_grid D 0 (0, 0)).
  - apply progress_inv_check; [vm_compute; reflexivity|].
    refine (bool_decide_unpack _ _). vm_compute. exact I.
  - split; simpl; lia.
  - vm_compute. reflexivity.
  - vm_compute. reflexivity.
Defined.

(** C27: the first solution wins (specification, section 4.3, step e).
    Once the search below a candidate returns a grid, the loop returns it
    at once: candidates after it are neither tried nor counted, so
    appending more candidates to the domain changes neither the grid nor
    the explored count. *)
Theorem try_values_short_circuit `{Propagator} vars rec values D v vals vals' n g n' :
  try_values vars rec values D v vals n = Some (Some g, n') →
  try_values vars rec values D v (vals ++ vals') n = Some (Some g, n').
Proof.
  revert n. induction vals as [|value vals IH]; intros n; simpl; [done|].
  destruct (consistent vars v _); [|apply IH].
  destruct (propagate vars v _) as [[[] D']|]; [|apply IH|done].
  rewrite !bind_Some. intros (r1 & n1 & Hb & Hk). exists r1, n1. split; [done|].
  destruct r1; [done|by apply IH].
Qed.

Lemma try_values_short_circuit_witness :
  let vars := variables_of gap_grid in
  let D := init_domains gap_grid vars in
  try_values vars (backtrack vars 1) gap_grid D (0, 0) [5] 0 = Some (Some easy_solution, 0) ∧
  try_values vars (backtrack vars 1) gap_grid D (0, 0) ([5] ++ [6; 7]) 0 = Some (Some easy_solution, 0).
Proof.
  intros vars D.
  assert (try_values vars (backtrack vars 1) gap_grid D (0, 0) [5] 0 = Some (Some easy_solution, 0)) as H
    by (vm_compute; reflexivity).
  split; [exact H|exact (try_values_short_circuit vars _ gap_grid D (0, 0) [5] [6; 7] 0 _ _ H)].
Defined.
