(* ===== verification/Correctness.v ===== *)
(** * Correctness: the search finds exactly the solutions of the puzzle

    For a well-formed input grid [g] (9x9, digits or [null], no two given
    digits in conflict), the states [(values, domains)] the search visits
    satisfy [search_inv]: given cells untouched, every variable's domain a
    sublist of its initial domain, every assigned variable holding a
    digit of its initial domain, and no two assigned peer variables equal.
    From it:
    - [backtrack_sound]: a grid the search returns is a solution of [g];
    - [backtrack_complete]: if [g] has a solution, the search returns one.
    [Solve.solve_correct] combines them with [Backtrack.backtrack_total].
    Everything about propagation comes from the [Propagator] interface. *)

From S2P Require Import Prelude Grid Spec Examples Init Neighbours Select AC3 Backtrack.

Record search_inv (g values : grid) (D : domains) : Prop := {
  si_shape : shape9 values;
  si_fixed : ∀ p, on_board p → p ∉ variables_of g → cell_at values p = cell_at g p;
  si_domains : ∀ p, p ∈ variables_of g →
    ∃ s, D !!@ p = Some (DSet s) ∧ s `sublist_of` init_domain g p;
  si_assigned : ∀ p d, p ∈ variables_of g → cell_at values p = Some d → d ∈ init_domain g p;
  si_distinct : ∀ p q, p ∈ variables_of g → q ∈ variables_of g → peers p q →
    cell_at values p ≠ None → cell_at values p ≠ cell_at values q
}.

Arguments si_shape {_ _ _} _.
Arguments si_fixed {_ _ _} _ _ _ _.
Arguments si_domains {_ _ _} _ _ _.
Arguments si_assigned {_ _ _} _ _ _ _ _.
Arguments si_distinct {_ _ _} _ _ _ _ _ _ _.

Section WellFormed.
Context (g : grid) (Hwf : well_formed g).

Lemma wf_vars p : p ∈ variables_of g ↔ on_board p ∧ cell_at g p = None.
Proof.
  rewrite elem_of_variables_of. destruct Hwf as (_ & Hcells & _). split.
  - intros [Hp Hf]. split; [done|]. destruct (Hcells p Hp) as [|(d & Hd & Hdig)]; [done|].
    rewrite Hd in Hf. destruct d; [unfold is_digit in Hdig; lia|done].
  - intros [Hp ->]. done.
Qed.

Lemma wf_vars_on_board u : u ∈ variables_of g → on_board u.
Proof. rewrite wf_vars. tauto. Qed.

Lemma wf_given p : on_board p → p ∉ variables_of g → ∃ d, cell_at g p = Some d ∧ is_digit d.
Proof.
  intros Hp Hn. destruct Hwf as (_ & Hcells & _). destruct (Hcells p Hp) as [Hnull|]; [|done].
  exfalso. apply Hn, wf_vars. auto.
Qed.

Lemma search_inv_progress values D : search_inv g values D → progress_inv (variables_of g) values D.
Proof.
  intros Hinv. split; [apply (si_shape Hinv)|]. intros p Hp Hnull.
  assert (p ∈ variables_of g) as Hv.
  { destruct (decide (p ∈ variables_of g)) as [|Hn]; [done|].
    destruct (wf_given p Hp Hn) as (d & Hd & _). rewrite (si_fixed Hinv) in Hnull by done. congruence. }
  split; [done|]. destruct (si_domains Hinv p Hv) as (s & Hs & Hsub).
  exists s. split; [done|]. etrans; [apply sublist_length, Hsub|apply length_init_domain].
Qed.

Lemma search_inv_init : search_inv g g (init_domains g (variables_of g)).
Proof.
  destruct Hwf as (Hsh & _ & _). split.
  - done.
  - done.
  - intros p Hp. rewrite init_domains_lookup, decide_True by auto using wf_vars_on_board. eauto.
  - intros p d Hp. apply wf_vars in Hp as [_ ->]. done.
  - intros p q Hp _ _. apply wf_vars in Hp as [_ ->]. done.
Qed.

Lemma search_inv_step values D v value D' :
  search_inv g values D → v ∈ variables_of g → value ∈ dom_at D v →
  consistent (variables_of g) v (update2 values v (Some value)) = true →
  refines D' (update2 D v (DSet [value])) →
  search_inv g (update2 values v (Some value)) D'.
Proof.
  intros Hinv Hv Hval Hcons HR.
  pose proof (wf_vars_on_board v Hv) as Hvb.
  assert (is_Some (values !!@ v)) as Hvs by (apply shape9_lookup2; [apply (si_shape Hinv)|done]).
  destruct (si_domains Hinv v Hv) as (s & HDv & Hs).
  unfold dom_at in Hval. rewrite HDv in Hval.
  pose proof (proj1 (consistent_spec (variables_of g) v _ Hvb) Hcons) as Hc. clear Hcons. rename Hc into Hcons.
  split.
  - apply shape9_update2, (si_shape Hinv).
  - intros p Hp Hn. rewrite cell_at_update2 by done.
    rewrite decide_False by congruence. by apply (si_fixed Hinv).
  - intros p Hp. specialize (HR p). rewrite lookup2_update2, HDv in HR. case_decide as Hvp.
    + subst p. destruct HR as (s' & Hs' & Hsub). exists s'. split; [done|].
      etrans; [exact Hsub|]. etrans; [by apply singleton_sublist_l|done].
    + destruct (si_domains Hinv p Hp) as (s0 & Hs0 & Hsub0). rewrite Hs0 in HR.
      destruct HR as (s' & Hs' & Hsub). exists s'. split; [done|]. by etrans.
  - intros p d Hp. rewrite cell_at_update2 by done. case_decide as Hvp.
    + intros [= <-]. subst p. eapply elem_of_sublist; [exact Hval|exact Hs].
    + by apply (si_assigned Hinv).
  - intros p q Hp Hq Hpq. rewrite !cell_at_update2 by done.
    destruct (decide (v = p)) as [<-|Hvp]; destruct (decide (v = q)) as [<-|Hvq].
    + destruct Hpq as (_ & _ & Hne & _). done.
    + rewrite decide_True, decide_False by done. intros _.
      specialize (Hcons q Hq Hpq). rewrite !cell_at_update2, decide_False,
        decide_True in Hcons by done. congruence.
    + rewrite decide_False, decide_True by done. intros _.
      specialize (Hcons p Hp (peers_sym _ _ Hpq)).
      rewrite !cell_at_update2, decide_False, decide_True in Hcons by done. congruence.
    + rewrite decide_False, decide_False by done. by apply (si_distinct Hinv).
Qed.

Lemma search_inv_solved values D :
  search_inv g values D → solved values = true → solution_of g values.
Proof.
  intros Hinv Hsolved. pose proof (si_shape Hinv) as Hsh.
  pose proof (proj1 (solved_spec values Hsh) Hsolved) as Hfull.
  assert (∀ p, on_board p → ∃ d, cell_at values p = Some d ∧ is_digit d ∧
            (p ∈ variables_of g → d ∈ init_domain g p) ∧
            (p ∉ variables_of g → cell_at g p = Some d)) as Hcell.
  { intros p Hp. destruct (cell_at values p) as [d|] eqn:Hd; [|by destruct (Hfull p Hp)].
    exists d. destruct (decide (p ∈ variables_of g)) as [Hv|Hv].
    - pose proof (si_assigned Hinv p d Hv Hd) as Hin.
      pose proof (proj1 (elem_of_init_domain g p d Hp) Hin) as [Hdig _].
      split_and!; [done|done|intros _; done|intros Hn; done].
    - rewrite (si_fixed Hinv) in Hd by done.
      destruct (wf_given p Hp Hv) as (d' & Hd' & Hdig). rewrite Hd in Hd'. injection Hd' as <-.
      split_and!; [done|done|intros Hn; done|intros _; done]. }
  split_and!.
  - split; [done|]. intros p Hp. destruct (Hcell p Hp) as (d & ? & ? & _). eauto.
  - intros p q Hpq. pose proof Hpq as (Hp & Hq & Hne & Hu).
    destruct (Hcell p Hp) as (dp & Hdp & _ & Hvp & Hgp).
    destruct (Hcell q Hq) as (dq & Hdq & _ & Hvq & Hgq). rewrite Hdp, Hdq.
    destruct (decide (p ∈ variables_of g)) as [Hpv|Hpv];
      destruct (decide (q ∈ variables_of g)) as [Hqv|Hqv].
    + rewrite <-Hdp, <-Hdq. apply (si_distinct Hinv); [done..|congruence].
    + specialize (Hvp Hpv). apply elem_of_init_domain in Hvp as [_ Hvp]; [|done].
      specialize (Hvp q Hpq). rewrite Hgq in Hvp by done. congruence.
    + specialize (Hvq Hqv). apply elem_of_init_domain in Hvq as [_ Hvq]; [|done].
      specialize (Hvq p (peers_sym _ _ Hpq)). rewrite Hgp in Hvq by done. congruence.
    + destruct Hwf as (_ & _ & Hconf). rewrite <-(Hgp Hpv), <-(Hgq Hqv).
      apply Hconf; [done|]. by rewrite (Hgp Hpv).
  - intros p Hp n Hn.
    assert (p ∉ variables_of g) as Hpv by (rewrite wf_vars; intros [_ Hnull]; congruence).
    rewrite (si_fixed Hinv) by done. done.
Qed.
End WellFormed.

Section Search.
Context `{Propagator} (g : grid) (Hwf : well_formed g).
Notation vars := (variables_of g).

Lemma selected_var values D v :
  search_inv g values D → unassigned_variable vars values D = Some v →
  v ∈ vars ∧ cell_at values v = None.
Proof.
  intros Hinv Hv. pose proof (search_inv_progress g Hwf values D Hinv) as Hp.
  destruct (selected_is_null vars values D v Hp Hv) as [Hvb Hnull].
  split; [|done]. by apply Hp.
Qed.

(** ** Soundness *)

Lemma try_values_sound fuel values D v vals n g' n' :
  (∀ values' D' n1 n2, search_inv g values' D' →
     backtrack vars fuel values' D' n1 = Some (Some g', n2) → solution_of g g') →
  search_inv g values D → v ∈ vars → vals ⊆ dom_at D v →
  try_values vars (backtrack vars fuel) values D v vals n = Some (Some g', n') →
  solution_of g g'.
Proof.
  intros IH Hinv Hv. revert n. induction vals as [|value vals IHv]; intros n Hvals; simpl; [done|].
  assert (value ∈ dom_at D v) as Hval by (apply Hvals; left).
  assert (vals ⊆ dom_at D v) as Hvals' by (intros x Hx; apply Hvals; by right).
  destruct (consistent vars v _) eqn:Hcons; [|by apply IHv].
  destruct (propagate vars v _) as [[[] D']|] eqn:Hp; [|by apply IHv|done].
  unfold bind. destruct (backtrack vars fuel _ D' n) as [[[g''|] n1]|] eqn:Hb; [|by apply IHv|done].
  intros [= -> _]. eapply IH; [|exact Hb].
  eapply search_inv_step; eauto using propagate_refines.
Qed.

(** Every grid the search returns is a solution of the input: it is
    complete, has no repeated digit in a row, column or block, and keeps
    every given digit. *)
Lemma backtrack_sound fuel values D n g' n' :
  search_inv g values D → backtrack vars fuel values D n = Some (Some g', n') → solution_of g g'.
Proof.
  revert values D n n'. induction fuel as [|fuel IH]; intros values D n n' Hinv; simpl; [done|].
  destruct (solved values) eqn:Hs.
  - intros [= <- _]. by eapply search_inv_solved.
  - unfold bind, tick. destruct (unassigned_variable vars values D) as [v|] eqn:Hv; [|done].
    destruct (selected_var values D v Hinv Hv) as [Hvv _].
    apply try_values_sound; [intros; eapply IH; eauto|done|done|intros x Hx; done].
Qed.

(** ** Completeness *)

Section WithSolution.
Context (sol : grid) (Hsol : solution_of g sol).

Definition σ (p : pos) : nat := default 0 (cell_at sol p).

Lemma sol_cell p : on_board p → cell_at sol p = Some (σ p).
Proof.
  intros Hp. destruct Hsol as [[_ Hc] _]. destruct (Hc p Hp) as (d & Hd & _).
  unfold σ. by rewrite Hd.
Qed.

Lemma sol_respects : respects vars σ.
Proof.
  intros a b Ha Hb Hab Heq. destruct Hsol as (_ & Hvalid & _).
  apply (Hvalid a b Hab). rewrite !sol_cell by apply Hab. by rewrite Heq.
Qed.

Definition agrees (values : grid) : Prop :=
  ∀ p, on_board p → ∀ d, cell_at values p = Some d → cell_at sol p = Some d.

Lemma sol_fits_init : fits σ (init_domains g vars).
Proof.
  intros p s. rewrite init_domains_lookup by (apply Hwf || apply wf_vars_on_board, Hwf).
  case_decide as Hp; [|destruct (g !!@ p) as [[]|]; done].
  intros [= <-]. pose proof (wf_vars_on_board g Hwf p Hp) as Hpb.
  apply elem_of_init_domain; [done|]. destruct Hsol as ([_ Hc] & Hvalid & Hext). split.
  - destruct (Hc p Hpb) as (d & Hd & Hdig). unfold σ. by rewrite Hd.
  - intros q Hpq Hgq. apply Hext in Hgq; [|apply Hpq]. apply (Hvalid p q Hpq).
    rewrite Hgq, sol_cell; [done|apply Hpq].
Qed.

Lemma sol_consistent values v :
  shape9 values → agrees values → v ∈ vars →
  consistent vars v (update2 values v (Some (σ v))) = true.
Proof.
  intros Hsh Hagr Hv. pose proof (wf_vars_on_board g Hwf v Hv) as Hvb.
  assert (is_Some (values !!@ v)) by (by apply shape9_lookup2).
  apply consistent_spec; [done|]. intros q Hq Hvq.
  rewrite !cell_at_update2, decide_False, decide_True by (done || apply Hvq).
  intros Hq'. apply Hagr in Hq'; [|apply Hvq].
  apply (proj1 (proj2 Hsol) v q Hvq). rewrite Hq'. by apply sol_cell.
Qed.

Lemma sol_fits_pin D v :
  fits σ D → is_Some (D !!@ v) → fits σ (update2 D v (DSet [σ v])).
Proof.
  intros Hfit HDv p s. rewrite lookup2_update2. case_decide as Hvp; [|apply Hfit].
  destruct (D !!@ v); [|by destruct HDv]. intros [= <-]. subst p. by left.
Qed.

Lemma try_values_complete fuel values D v vals n :
  (∀ values' D' n1, search_inv g values' D' → agrees values' → fits σ D' →
     count_null values' < fuel → ∃ g' n2, backtrack vars fuel values' D' n1 = Some (Some g', n2)) →
  search_inv g values D → agrees values → fits σ D → v ∈ vars → cell_at values v = None →
  count_null values < S fuel →
  vals ⊆ dom_at D v → σ v ∈ vals →
  ∃ g' n', try_values vars (backtrack vars fuel) values D v vals n = Some (Some g', n').
Proof.
  intros IH Hinv Hagr Hfit Hv Hnull Hfuel. pose proof (wf_vars_on_board g Hwf v Hv) as Hvb.
  destruct (si_domains Hinv v Hv) as (s & HDv & _).
  assert (∀ value D' n0, value ∈ dom_at D v →
    consistent vars v (update2 values v (Some value)) = true →
    propagate vars v (update2 D v (DSet [value])) = Some (true, D') →
    backtrack vars fuel (update2 values v (Some value)) D' n0 ≠ None) as Htot.
  { intros value D' n0 Hval Hc Hp. apply backtrack_total.
    - apply (search_inv_progress g Hwf). eapply search_inv_step; eauto using propagate_refines.
    - pose proof (count_null_update2 values v value Hvb (si_shape Hinv) Hnull). lia. }
  revert n. induction vals as [|value vals IHv]; intros n Hvals Hin; [by apply elem_of_nil in Hin|].
  assert (value ∈ dom_at D v) as Hval by (apply Hvals; left).
  assert (vals ⊆ dom_at D v) as Hvals' by (intros x Hx; apply Hvals; by right).
  simpl. destruct (decide (value = σ v)) as [->|Hne].
  - rewrite sol_consistent by (done || apply (si_shape Hinv)).
    destruct (propagate_complete vars v (update2 D v (DSet [σ v])) σ) as (D' & Hp & Hfit').
    { exact (wf_vars_on_board g Hwf). }
    { done. }
    { apply sol_fits_pin; [done|rewrite HDv; eauto]. }
    { apply sol_respects. }
    { rewrite dom_at_update2, decide_True by (done || rewrite HDv; eauto). done. }
    rewrite Hp. unfold bind.
    destruct (IH (update2 values v (Some (σ v))) D' n) as (g' & n2 & ->); eauto.
    + eapply (search_inv_step g Hwf); [done|done|done| |eapply propagate_refines, Hp].
      apply sol_consistent; [apply (si_shape Hinv)|done|done].
    + intros p Hpb d. rewrite cell_at_update2 by (apply shape9_lookup2; [apply (si_shape Hinv)|done]).
      case_decide; [intros [= <-]; subst; by apply sol_cell|by apply Hagr].
    + pose proof (count_null_update2 values v (σ v) Hvb (si_shape Hinv) Hnull). lia.
  - apply elem_of_cons in Hin as [?|Hin]; [done|].
    destruct (consistent vars v _) eqn:Hc; [|by apply IHv].
    destruct (propagate vars v _) as [[[] D']|] eqn:Hp; [|by apply IHv|by apply propagate_total in Hp].
    unfold bind. destruct (backtrack vars fuel _ D' n) as [[[g'|] n1]|] eqn:Hb; eauto.
    exfalso. by apply (Htot value D' n).
Qed.

(** If the input has a solution, the search (with enough fuel) returns
    a grid: propagation and the consistency check never prune every
    branch that leads to a solution. *)
Lemma backtrack_complete fuel values D n :
  search_inv g values D → agrees values → fits σ D → count_null values < fuel →
  ∃ g' n', backtrack vars fuel values D n = Some (Some g', n').
Proof.
  revert values D n. induction fuel as [|fuel IH]; intros values D n Hinv Hagr Hfit Hfuel; [lia|].
  simpl. destruct (solved values) eqn:Hs; [eauto|].
  destruct (selection_exists vars values D (search_inv_progress g Hwf values D Hinv) Hs) as [v Hv].
  unfold bind, tick. rewrite Hv.
  destruct (selected_var values D v Hinv Hv) as [Hvv Hnull].
  destruct (si_domains Hinv v Hvv) as (s & HDv & _).
  apply try_values_complete; eauto.
  unfold dom_at. rewrite HDv. by eapply Hfit.
Qed.
End WithSolution.
End Search.

(** ** Fidelity on every input *)

Lemma agrees_update2 sol values v value :
  shape9 values → on_board v → cell_at values v = None →
  agrees sol (update2 values v (Some value)) → agrees sol values.
Proof.
  intros Hsh Hv Hnull Hagr p Hp d Hd. apply Hagr; [done|].
  rewrite cell_at_update2 by (by apply shape9_lookup2). case_decide; [subst; congruence|done].
Qed.

(** The grid a search returns keeps every filled cell of the grid it
    started from, whatever the grid (well formed or not): the search only
    writes the [null] cells it selects. *)
Lemma backtrack_keeps `{Propagator} vars fuel values D n g' n' :
  progress_inv vars values D → backtrack vars fuel values D n = Some (Some g', n') → agrees g' values.
Proof.
  revert values D n n'. induction fuel as [|fuel IH]; intros values D n n' Hinv; simpl; [done|].
  destruct (solved values); [by intros [= <- _] p _ d|].
  unfold bind, tick. destruct (unassigned_variable vars values D) as [v|] eqn:Hv; [|done].
  destruct (selected_is_null vars values D v Hinv Hv) as [Hvb Hnull].
  destruct (proj2 Hinv v Hvb Hnull) as (_ & s & HDv & _).
  intros (value & D' & m & Hin & Hc & Hp & Hb)%try_values_Some.
  eapply agrees_update2; [apply (proj1 Hinv)|done|done|].
  eapply IH; [|exact Hb]. eapply progress_inv_step; eauto using propagate_refines.
Qed.
