(* ===== verification/Solve.v ===== *)
(** * Solve: the entry point [solve] (sudoku.js, lines 62-70)

    [solve(show_explored)] runs [backtrack] from the object's [values] and
    [domains] with the counter [this.explored], and returns the solution,
    or the pair [[solution, explored]] when asked.  The theorems: [solve]
    always returns on a grid the constructor accepts, it meets
    [solver_spec] on well-formed grids (the refinement theorem), the
    counter is never reset between calls, a returned grid keeps every
    filled cell of any accepted input (fidelity), and the end-to-end
    scenarios of the specification (a single empty cell, the empty grid,
    a puzzle). *)

From S2P Require Import Prelude Grid Spec Examples Init Neighbours Select AC3 Backtrack Correctness.

(** What [solve(show_explored)] returns: the solution (or [null]), with
    the explored count when asked. *)
Inductive solve_result : Type :=
  | Plain (solution : option grid)
  | WithExplored (solution : option grid) (explored : nat).

Definition result_solution (r : solve_result) : option grid :=
  match r with Plain x => x | WithExplored x _ => x end.

Definition solve_fuel (s : sudoku) : nat := S (count_null (values s)).

(** Lines 62-70: the search starts from [this.values] and [this.domains]
    and leaves its count in [this.explored], which is never reset. *)
Definition solve (show_explored : bool) (s : sudoku) : option (solve_result * sudoku) :=
  match backtrack (variables s) (solve_fuel s) (values s) (doms s) (explored s) with
  | Some (solution, n) =>
    let s' := {| explored := n; variables := variables s; values := values s; doms := doms s |} in
    Some (if show_explored then WithExplored solution n else Plain solution, s')
  | None => None
  end.

(** C2: on every grid the constructor accepts (any 9x9 grid, consistent
    or not, with any cell values), [solve] returns: the search neither
    runs out of fuel nor reaches [let [x, y] = v] with [v = null]. *)
Theorem solve_total show_explored g s :
  sudoku_new g = inr s → solve show_explored s ≠ None.
Proof.
  intros [Hg ->]%sudoku_new_inr. unfold solve, solve_fuel, init_sudoku. cbn [explored variables values doms].
  destruct (backtrack _ _ _ _ _) as [[]|] eqn:Hb; [done|]. exfalso. revert Hb.
  apply backtrack_total; [by apply progress_inv_init|lia].
Qed.

Lemma solve_total_witness :
  sudoku_new easy_grid = inr (init_sudoku easy_grid) ∧ solve false (init_sudoku easy_grid) ≠ None.
Proof.
  assert (sudoku_new easy_grid = inr (init_sudoku easy_grid)) as H by (vm_compute; reflexivity).
  split; [exact H|exact (solve_total false easy_grid _ H)].
Defined.

(** C12: [solve] never resets [this.explored]: a second [solve] on the same
    object returns the same solution and adds the same number of explored
    nodes again on top of the first count. *)
Theorem solve_explored_accumulates b1 b2 s r1 s1 r2 s2 :
  solve b1 s = Some (r1, s1) → solve b2 s1 = Some (r2, s2) →
  result_solution r2 = result_solution r1 ∧
  ∃ k, explored s1 = explored s + k ∧ explored s2 = explored s1 + k.
Proof.
  unfold solve, solve_fuel. destruct s as [e vs vl D0]. cbn [explored variables values doms].
  rewrite (backtrack_shiftable vs (S (count_null vl)) vl D0 e).
  destruct (backtrack vs (S (count_null vl)) vl D0 0) as [[r k]|] eqn:Hb; cbn [fmap option_fmap option_map]; [|done].
  intros [= <- <-]. cbn [explored variables values doms]. rewrite (backtrack_count vs _ vl D0 (e + k) r k Hb).
  intros [= <- <-]. split; [by destruct b1, b2|]. exists k. cbn [explored]. split; [done|lia].
Qed.

Lemma solve_explored_accumulates_witness :
  let s1 := {| explored := 1; variables := variables_of gap_grid; values := gap_grid;
               doms := init_domains gap_grid (variables_of gap_grid) |} in
  let s2 := {| explored := 2; variables := variables_of gap_grid; values := gap_grid;
               doms := init_domains gap_grid (variables_of gap_grid) |} in
  (solve true (init_sudoku gap_grid) = Some (WithExplored (Some easy_solution) 1, s1) ∧
   solve true s1 = Some (WithExplored (Some easy_solution) 2, s2)) ∧
  ∃ k, explored s1 = explored (init_sudoku gap_grid) + k ∧ explored s2 = explored s1 + k.
Proof.
  intros s1 s2.
  assert (solve true (init_sudoku gap_grid) = Some (WithExplored (Some easy_solution) 1, s1)) as H1
    by (vm_compute; reflexivity).
  assert (solve true s1 = Some (WithExplored (Some easy_solution) 2, s2)) as H2
    by (vm_compute; reflexivity).
  split; [split; [exact H1|exact H2]|].
  exact (proj2 (solve_explored_accumulates true true _ _ _ _ _ H1 H2)).
Defined.

(** The search run by [solve] from the constructor's object meets
    [solver_spec] on every well-formed grid. *)
Lemma solve_init_spec (g : grid) (show_explored : bool) :
  well_formed g →
  ∃ r s', solve show_explored (init_sudoku g) = Some (r, s') ∧ solver_spec g (result_solution r).
Proof.
  intros Hwf. unfold solve, solve_fuel, init_sudoku. cbn [explored variables values doms].
  pose proof (search_inv_init g Hwf) as Hinv.
  destruct (backtrack (variables_of g) (S (count_null g)) g (init_domains g (variables_of g)) 0)
    as [[r n]|] eqn:Hb.
  - eexists (if show_explored then WithExplored r n else Plain r), _.
    split; [reflexivity|].
    assert (result_solution (if show_explored then WithExplored r n else Plain r) = r) as ->
      by (by destruct show_explored).
    destruct r as [g'|]; simpl.
    + eapply (backtrack_sound g Hwf); [exact Hinv|exact Hb].
    + intros [sol Hsol].
      destruct (backtrack_complete g Hwf sol Hsol (S (count_null g)) g
        (init_domains g (variables_of g)) 0) as (g' & n' & Hb'); eauto using sol_fits_init.
      * intros p Hp d Hd. by apply Hsol.
      * congruence.
  - exfalso. revert Hb. apply backtrack_total; [|lia].
    apply progress_inv_init, Hwf.
Qed.

(** When the input is well formed and has a solution, [solve] returns
    one. *)
Lemma solve_finds g show_explored sol :
  well_formed g → solution_of g sol →
  ∃ r s' g', solve show_explored (init_sudoku g) = Some (r, s') ∧
    result_solution r = Some g' ∧ solution_of g g'.
Proof.
  intros Hwf Hsol. destruct (solve_init_spec g show_explored Hwf) as (r & s' & Hs & Hspec).
  destruct (result_solution r) as [g'|] eqn:Hr; [by exists r, s', g'|].
  destruct Hspec. by exists sol.
Qed.

(** Without [show_explored], [solve] returns the solution alone. *)
Lemma solve_plain s r s' : solve false s = Some (r, s') → r = Plain (result_solution r).
Proof. unfold solve. destruct (backtrack _ _ _ _ _) as [[]|]; [|done]. by intros [= <- _]. Qed.

(** C1: [solve] refines its specification.  On every well-formed input the
    constructor succeeds, [solve] returns, and its result is a solution of
    the input when one exists and [null] only when none does. *)
Theorem solve_correct (g : grid) (show_explored : bool) :
  well_formed g →
  ∃ s r s', sudoku_new g = inr s ∧ solve show_explored s = Some (r, s') ∧
    solver_spec g (result_solution r).
Proof.
  intros Hwf. destruct (solve_init_spec g show_explored Hwf) as (r & s' & Hs & Hspec).
  exists (init_sudoku g), r, s'. split_and!; [|done|done].
  apply sudoku_new_inr. split; [apply Hwf|done].
Qed.

Lemma solve_correct_witness :
  well_formed easy_grid ∧
  ∃ s r s', sudoku_new easy_grid = inr s ∧ solve false s = Some (r, s') ∧
    solver_spec easy_grid (result_solution r).
Proof.
  assert (well_formed easy_grid) as Hwf by (refine (bool_decide_unpack _ _); vm_compute; exact I).
  split; [exact Hwf|exact (solve_correct easy_grid false Hwf)].
Defined.

(** C26: the fidelity property of the specification, on every input.
    On every grid the constructor accepts (well formed or not, with 0
    cells or conflicting givens), a grid that [solve] returns keeps
    every filled cell of the input: the search only writes the [null]
    cells it selects. *)
Theorem solve_keeps_givens g s b r s' g' :
  sudoku_new g = inr s → solve b s = Some (r, s') → result_solution r = Some g' →
  ∀ p, on_board p → ∀ d, cell_at g p = Some d → cell_at g' p = Some d.
Proof.
  intros [Hg ->]%sudoku_new_inr. unfold solve, solve_fuel, init_sudoku. cbn [explored variables values doms].
  destruct (backtrack _ _ _ _ _) as [[res n]|] eqn:Hb; [|done].
  intros [= <- <-] Hr. assert (res = Some g') as -> by (destruct b; exact Hr).
  exact (backtrack_keeps _ _ _ _ _ _ _ (progress_inv_init g Hg) Hb).
Qed.

Lemma solve_keeps_givens_witness :
  cell_at gap_grid (0, 1) = Some 3 ∧ cell_at easy_solution (0, 1) = Some 3.
Proof.
  assert (sudoku_new gap_grid = inr (init_sudoku gap_grid)) as Hn by (vm_compute; reflexivity).
  assert (solve false (init_sudoku gap_grid) =
    Some (Plain (Some easy_solution), {| explored := 1; variables := variables_of gap_grid;
      values := gap_grid; doms := init_domains gap_grid (variables_of gap_grid) |})) as Hs
    by (vm_compute; reflexivity).
  assert (cell_at gap_grid (0, 1) = Some 3) as Hc by (vm_compute; reflexivity).
  split; [exact Hc|].
  exact (solve_keeps_givens gap_grid _ false _ _ easy_solution Hn Hs eq_refl (0, 1)
    ltac:(split; simpl; lia) 3 Hc).
Defined.

(** ** A run *)

(** ** A grid with a single empty cell *)

Section SingleGap.
Context (g : grid) (p : pos) (d : nat).
Hypothesis Hwf : well_formed g.
Hypothesis Hp : on_board p.
Hypothesis Hgap : ∀ q, on_board q → cell_at g q = None ↔ q = p.
Hypothesis Hd : is_digit d.
Hypothesis Hfree : ∀ q, peers p q → cell_at g q ≠ Some d.
Hypothesis Hforced : ∀ k, is_digit k → k ≠ d → ∃ q, peers p q ∧ cell_at g q = Some k.

Lemma gap_nulls : filter (λ q, cell_at g q = None) all_cells = [p].
Proof.
  apply NoDup_singleton_eq; [apply list.NoDup_filter, NoDup_all_cells|].
  intros q. rewrite list_elem_of_filter, elem_of_all_cells.
  split; [intros [Hq Hb]; by apply Hgap|intros ->; split; [by apply Hgap|done]].
Qed.

Lemma gap_variables : variables_of g = [p].
Proof.
  apply NoDup_singleton_eq; [apply NoDup_variables_of|]. intros q.
  rewrite wf_vars by done. split; [intros [Hq Hn]; by apply Hgap|intros ->; split; [done|by apply Hgap]].
Qed.

Lemma gap_domain : init_domains g [p] !!@ p = Some (DSet [d]).
Proof.
  assert (init_domain g p = [d]) as Hdom.
  { apply NoDup_singleton_eq.
    - eapply sublist_NoDup; [|apply init_domain_sublist]. repeat constructor; set_solver.
    - intros k. rewrite elem_of_init_domain by done. split.
      + intros [Hk Hpk]. destruct (decide (k = d)) as [|Hne]; [done|].
        destruct (Hforced k Hk Hne) as (q & Hq & Hqk). by destruct (Hpk q Hq).
      + intros ->. split; [done|done]. }
  rewrite init_domains_lookup, decide_True; [by rewrite Hdom|by left|apply Hwf|].
  intros v ->%list_elem_of_singleton. done.
Qed.

Lemma gap_neighbours : neighbours [p] p = [].
Proof.
  destruct (neighbours [p] p) as [|q l] eqn:E; [done|]. exfalso.
  assert (q ∈ neighbours [p] p) as Hq by (rewrite E; left).
  apply elem_of_neighbours in Hq as [->%list_elem_of_singleton (_ & _ & Hne & _)]; done.
Qed.

(** The search opens one node, selects [p], writes [d] there, finds no
    arc to propagate, and returns at the next node. *)
Lemma gap_backtrack D :
  D !!@ p = Some (DSet [d]) → backtrack [p] 2 g D 0 = Some (Some (update2 g p (Some d)), 1).
Proof.
  intros HD. pose proof (proj1 Hwf) as Hsh.
  assert (solved g = false) as Hns.
  { apply not_true_iff_false. rewrite solved_spec by done. intros Hall. by apply (Hall p Hp), Hgap. }
  assert (solved (update2 g p (Some d)) = true) as Hs.
  { rewrite solved_spec by auto with sudoku. intros q Hq.
    rewrite cell_at_update2 by (by apply shape9_lookup2). case_decide; [done|].
    intros Hnull%Hgap; [congruence|done]. }
  assert (unassigned_variable [p] g D = Some p) as Hsel.
  { unfold unassigned_variable, unassigned_variables. rewrite gap_nulls. cbn [fold_left].
    unfold mrv_step, size_le, size_at. rewrite HD, gap_neighbours. done. }
  assert (dom_at D p = [d]) as Hdp by (unfold dom_at; by rewrite HD).
  cbn [backtrack]. rewrite Hns. unfold bind at 1, tick. cbn beta iota.
  rewrite Hsel, Hdp. cbn [try_values]. unfold consistent. rewrite gap_neighbours.
  cbn [propagate ac3_propagator forallb]. unfold ac3. rewrite gap_neighbours.
  unfold bind. cbn [backtrack]. rewrite Hs. done.
Qed.
End SingleGap.

(** C14: the end-to-end scenario of the specification: on a well-formed
    grid whose only empty cell [p] sees every digit but [d] among its
    peers, [solve] fills [p] with [d], changes no other cell, and reports
    one explored node. *)
Theorem solve_single_gap b g p d :
  well_formed g → on_board p →
  (∀ q, on_board q → cell_at g q = None ↔ q = p) →
  is_digit d → (∀ q, peers p q → cell_at g q ≠ Some d) →
  (∀ k, is_digit k → k ≠ d → ∃ q, peers p q ∧ cell_at g q = Some k) →
  ∃ s', solve b (init_sudoku g) =
    Some (if b then WithExplored (Some (update2 g p (Some d))) 1
          else Plain (Some (update2 g p (Some d))), s').
Proof.
  intros Hwf Hp Hgap Hd Hfree Hforced.
  unfold solve, init_sudoku, solve_fuel. cbn [explored variables values doms].
  assert (count_null g = 1) as -> by (unfold count_null; by rewrite (gap_nulls g p)).
  rewrite (gap_variables g p) by done. rewrite (gap_backtrack g p d) by eauto using gap_domain.
  eexists. done.
Qed.

Lemma solve_single_gap_witness :
  (well_formed gap_grid ∧ on_board (0, 0) ∧
   (∀ q, on_board q → cell_at gap_grid q = None ↔ q = (0, 0)) ∧ is_digit 5 ∧
   (∀ q, peers (0, 0) q → cell_at gap_grid q ≠ Some 5) ∧
   (∀ k, is_digit k → k ≠ 5 → ∃ q, peers (0, 0) q ∧ cell_at gap_grid q = Some k)) ∧
  ∃ s', solve false (init_sudoku gap_grid) = Some (Plain (Some (update2 gap_grid (0, 0) (Some 5))), s').
Proof.
  assert (well_formed gap_grid) as H1 by (refine (bool_decide_unpack _ _); vm_compute; exact I).
  assert (on_board (0, 0)) as H2 by (split; simpl; lia).
  assert (∀ q, on_board q → cell_at gap_grid q = None ↔ q = (0, 0)) as H3.
  { apply forall_on_board. refine (bool_decide_unpack _ _). vm_compute. exact I. }
  assert (is_digit 5) as H4 by (unfold is_digit; lia).
  assert (∀ q, peers (0, 0) q → cell_at gap_grid q ≠ Some 5) as H5.
  { assert (∀ q, on_board q → peers (0, 0) q → cell_at gap_grid q ≠ Some 5) as H.
    { apply (forall_on_board (λ q, peers (0, 0) q → cell_at gap_grid q ≠ Some 5)). refine (bool_decide_unpack _ _). vm_compute. exact I. }
    intros q Hq. exact (H q (proj1 (proj2 Hq)) Hq). }
  assert (∀ k, is_digit k → k ≠ 5 → ∃ q, peers (0, 0) q ∧ cell_at gap_grid q = Some k) as H6.
  { assert (Forall (λ k, k ≠ 5 → Exists (λ q, peers (0, 0) q ∧ cell_at gap_grid q = Some k) all_cells)
      (seq 1 9)) as H by (refine (bool_decide_unpack _ _); vm_compute; exact I).
    intros k Hk Hne. rewrite Forall_forall in H.
    assert (k ∈ seq 1 9) as Hin by (rewrite elem_of_seq; unfold is_digit in Hk; lia).
    destruct (proj1 (Exists_exists _ _) (H k Hin Hne)) as (q & _ & Hq). eauto. }
  split; [split_and!; assumption|].
  exact (solve_single_gap false gap_grid (0, 0) 5 H1 H2 H3 H4 H5 H6).
Defined.

(** C13: the goal test of line 78 comes before any check of the
    givens.  On every 9x9 grid without a [null] cell, whatever its
    numbers (conflicting givens, cells holding 0), [solve] returns the
    input grid itself and explores no node.  The specification asks for
    [NoSolution] on a grid whose givens conflict; the code never looks. *)
Theorem solve_full_grid g s b :
  sudoku_new g = inr s → count_null g = 0 →
  solve b s = Some (if b then WithExplored (Some g) 0 else Plain (Some g), s).
Proof.
  intros [Hg ->]%sudoku_new_inr Hc. unfold solve, solve_fuel.
  cbn [init_sudoku explored variables values doms]. rewrite Hc. cbn [backtrack].
  rewrite (count_null_solved g Hg Hc). reflexivity.
Qed.

Lemma solve_full_grid_witness :
  (sudoku_new ones_grid = inr (init_sudoku ones_grid) ∧ count_null ones_grid = 0) ∧
  solve false (init_sudoku ones_grid) = Some (Plain (Some ones_grid), init_sudoku ones_grid).
Proof.
  assert (sudoku_new ones_grid = inr (init_sudoku ones_grid)) as H1 by (vm_compute; reflexivity).
  assert (count_null ones_grid = 0) as H2 by (vm_compute; reflexivity).
  split; [split; assumption|exact (solve_full_grid ones_grid _ false H1 H2)].
Defined.
