(* ===== verification/Explored.v ===== *)
(** * Explored: bounds on the explored-node counter (sudoku.js, lines 62-105)

    [this.explored] counts the calls of [backtrack] on a grid that is not
    solved (line 81).  The search tree below a grid with [k] empty cells
    has depth at most [k], and every node has at most nine children (the
    candidates of the selected cell), so a search explores at most
    [tree_nodes k = (9^k - 1) / 8] nodes; a search that finds a solution
    explores at least [k] nodes, one per cell it fills on the path to it. *)

From S2P Require Import Prelude Grid Spec Examples Init Neighbours Select AC3 Backtrack Correctness Solve.

(** The number of inner nodes of a complete tree of depth [k] and
    branching nine. *)
Fixpoint tree_nodes (k : nat) : nat :=
  match k with 0 => 0 | S k => S (9 * tree_nodes k) end.

(** The object the first [solve] on the grid with a single empty cell
    leaves: it explored one node. *)
Definition gap_final : sudoku :=
  {| explored := 1; variables := variables_of gap_grid; values := gap_grid;
     doms := init_domains gap_grid (variables_of gap_grid) |}.

Section Nodes.
Context `{Propagator} (vars : list pos).

(** The child searches of a node, as [try_values] runs them: the grid
    with [v] set to [value] and the domains propagation returned. *)
Definition child_run (fuel : nat) (values : grid) (D : domains) (v : pos)
    (R : grid → domains → option grid → nat → nat → Prop) : Prop :=
  ∀ value D' m r m', propagate vars v (update2 D v (DSet [value])) = Some (true, D') →
    backtrack vars fuel (update2 values v (Some value)) D' m = Some (r, m') →
    R (update2 values v (Some value)) D' r m m'.

Lemma tree_nodes_closed k : 8 * tree_nodes k + 1 = 9 ^ k.
Proof. induction k as [|k IH]; simpl; lia. Qed.

Lemma solved_count_null values : shape9 values → solved values = true → count_null values = 0.
Proof.
  intros Hsh Hs0. pose proof (proj1 (solved_spec values Hsh) Hs0) as Hs. unfold count_null.
  destruct (filter _ all_cells) as [|p l] eqn:Hf; [done|exfalso].
  assert (p ∈ filter (λ p, cell_at values p = None) all_cells) as Hp
    by (rewrite Hf; apply list_elem_of_here).
  apply list_elem_of_filter in Hp as [Hnull Hin%elem_of_all_cells]. by apply (Hs p).
Qed.

(** The loop over the candidates adds at most [B] nodes per candidate
    when every child search adds at most [B]. *)
Lemma try_values_nodes fuel values D v vals B n r n' :
  child_run fuel values D v (λ _ _ _ m m', m ≤ m' ≤ m + B) →
  try_values vars (backtrack vars fuel) values D v vals n = Some (r, n') →
  n ≤ n' ≤ n + length vals * B.
Proof.
  intros Hch. revert n. induction vals as [|value vals IH]; intros n; simpl.
  - intros [= _ <-]. lia.
  - destruct (consistent vars v _); [|intros Hl; apply IH in Hl; lia].
    destruct (propagate vars v _) as [[[] D']|] eqn:Hp; [|intros Hl; apply IH in Hl; lia|done].
    rewrite bind_Some. intros ([g|] & n1 & Hb & Hk); apply (Hch _ _ _ _ _ Hp) in Hb.
    + injection Hk as _ <-. lia.
    + apply IH in Hk. lia.
Qed.

(** A loop that returns a grid got it from one of its child searches,
    started with a counter no smaller than the loop's. *)
Lemma try_values_found fuel values D v vals n g n' :
  child_run fuel values D v (λ _ _ _ m m', m ≤ m') →
  try_values vars (backtrack vars fuel) values D v vals n = Some (Some g, n') →
  ∃ value D' m, propagate vars v (update2 D v (DSet [value])) = Some (true, D') ∧
    backtrack vars fuel (update2 values v (Some value)) D' m = Some (Some g, n') ∧ n ≤ m.
Proof.
  intros Hch. revert n. induction vals as [|value vals IH]; intros n; simpl; [done|].
  destruct (consistent vars v _); [|apply IH].
  destruct (propagate vars v _) as [[[] D']|] eqn:Hp; [|apply IH|done].
  rewrite bind_Some. intros ([g1|] & n1 & Hb & Hk).
  - injection Hk as -> ->. exists value, D', n. split_and!; [done|done|lia].
  - pose proof (Hch _ _ _ _ _ Hp Hb) as Hn; cbn beta in Hn.
    destruct (IH n1 Hk) as (value' & D'' & m & ? & ? & ?). exists value', D'', m. split_and!; [done|done|lia].
Qed.

(** The facts about a node that is not solved: the selected cell is an
    empty cell of the board with at most nine candidates, and each child
    grid has one empty cell less and satisfies [progress_inv]. *)
Lemma node_facts values D v :
  progress_inv vars values D → unassigned_variable vars values D = Some v →
  length (dom_at D v) ≤ 9 ∧
  ∀ value D', propagate vars v (update2 D v (DSet [value])) = Some (true, D') →
    progress_inv vars (update2 values v (Some value)) D' ∧
    count_null values = S (count_null (update2 values v (Some value))).
Proof.
  intros Hinv Hv. destruct (selected_is_null vars values D v Hinv Hv) as [Hvb Hnull].
  pose proof Hinv as [Hsh Hinv']. destruct (Hinv' v Hvb Hnull) as (_ & s & Hs & Hlen).
  split; [unfold dom_at; by rewrite Hs|]. intros value D' Hp. split.
  - eapply progress_inv_step; eauto using propagate_refines.
  - by apply count_null_update2_eq.
Qed.

(** Every search adds at most [tree_nodes k] to the counter, where [k]
    is the number of empty cells of its grid. *)
Lemma backtrack_nodes fuel values D n r n' :
  progress_inv vars values D → backtrack vars fuel values D n = Some (r, n') →
  n ≤ n' ≤ n + tree_nodes (count_null values).
Proof.
  revert values D n r n'. induction fuel as [|fuel IH]; intros values D n r n' Hinv; [done|].
  simpl. destruct (solved values); [intros [= _ <-]; lia|].
  unfold bind, tick. destruct (unassigned_variable vars values D) as [v|] eqn:Hv; [|done].
  destruct (node_facts values D v Hinv Hv) as (Hlen & Hch).
  destruct (count_null values) as [|k] eqn:Hk.
  { exfalso. destruct (selected_is_null vars values D v Hinv Hv) as [Hvb Hnull].
    pose proof (count_null_update2 values v 1 Hvb (proj1 Hinv) Hnull). lia. }
  intros Hl. apply (try_values_nodes fuel values D v _ (tree_nodes k)) in Hl.
  - assert (length (dom_at D v) * tree_nodes k ≤ 9 * tree_nodes k) by nia. simpl. lia.
  - intros value D' m r' m' Hp Hb. destruct (Hch value D' Hp) as [Hinv' Hc].
    apply IH in Hb; [|done]. injection Hc as Hc. cbn beta. by rewrite <-Hc in Hb.
Qed.

(** A search that returns a grid adds at least [k] to the counter, where
    [k] is the number of empty cells of its grid. *)
Lemma backtrack_found_nodes fuel values D n g n' :
  progress_inv vars values D → backtrack vars fuel values D n = Some (Some g, n') →
  n + count_null values ≤ n'.
Proof.
  revert values D n n'. induction fuel as [|fuel IH]; intros values D n n' Hinv; [done|].
  simpl. destruct (solved values) eqn:Hs.
  { intros [= _ <-]. rewrite (solved_count_null values (proj1 Hinv) Hs). lia. }
  unfold bind, tick. destruct (unassigned_variable vars values D) as [v|] eqn:Hv; [|done].
  destruct (node_facts values D v Hinv Hv) as (_ & Hch).
  intros Hl. apply try_values_found in Hl as (value & D' & m & Hp & Hb & Hm).
  - destruct (Hch value D' Hp) as [Hinv' ->]. apply IH in Hb; [lia|done].
  - intros value D' m r m' Hp Hb. cbn beta.
    pose proof (backtrack_nodes fuel _ D' m r m' (proj1 (Hch value D' Hp)) Hb). lia.
Qed.
End Nodes.

(** The two bounds for the search [solve] runs on a new object. *)
Lemma solve_nodes g s b r s' :
  sudoku_new g = inr s → solve b s = Some (r, s') →
  explored s' ≤ tree_nodes (count_null g) ∧
  (∀ g', result_solution r = Some g' → count_null g ≤ explored s').
Proof.
  intros [Hg ->]%sudoku_new_inr. unfold solve, solve_fuel, init_sudoku. cbn [explored variables values doms].
  pose proof (progress_inv_init g Hg) as Hinv.
  destruct (backtrack _ _ _ _ _) as [[res n]|] eqn:Hb; [|done].
  intros [= <- <-]. cbn [explored]. split.
  - apply (backtrack_nodes _ _ _ _ _ _ _ Hinv) in Hb. lia.
  - intros g'. destruct b; simpl; intros ->; by apply (backtrack_found_nodes _ _ _ _ _ _ _ Hinv) in Hb.
Qed.

(** C21: the explored count is bounded by the size of the search tree.
    On every grid the constructor accepts, the count [solve] leaves in
    [this.explored] after the first call is at most [(9^k - 1) / 8], where
    [k] is the number of empty cells of the grid: the search never visits
    a node twice and branches at most nine ways at most [k] deep. *)
Theorem solve_explored_bound g s b r s' :
  sudoku_new g = inr s → solve b s = Some (r, s') →
  8 * explored s' + 1 ≤ 9 ^ count_null g.
Proof.
  intros Hn Hs. destruct (solve_nodes g s b r s' Hn Hs) as [Hle _].
  rewrite <-tree_nodes_closed. lia.
Qed.

Lemma gap_new : sudoku_new gap_grid = inr (init_sudoku gap_grid).
Proof. vm_compute. reflexivity. Qed.

Lemma gap_solve b : solve b (init_sudoku gap_grid) =
  Some (if b then WithExplored (Some easy_solution) 1 else Plain (Some easy_solution), gap_final).
Proof. destruct b; vm_compute; reflexivity. Qed.

Lemma solve_explored_bound_witness :
  8 * explored gap_final + 1 ≤ 9 ^ count_null gap_grid.
Proof. exact (solve_explored_bound gap_grid _ false _ _ gap_new (gap_solve false)). Defined.

(** C22: a search that finds a solution explores at least one node per
    empty cell.  When the first [solve] on a new object returns a grid,
    [this.explored] is at least the number of [null] cells of the input:
    the path from the root to the solution fills one cell per node. *)
Theorem solve_explored_path g s b r s' g' :
  sudoku_new g = inr s → solve b s = Some (r, s') → result_solution r = Some g' →
  count_null g ≤ explored s'.
Proof. intros Hn Hs. exact (proj2 (solve_nodes g s b r s' Hn Hs) g'). Qed.

Lemma solve_explored_path_witness : count_null gap_grid ≤ explored gap_final.
Proof.
  exact (solve_explored_path gap_grid _ true _ _ easy_solution gap_new (gap_solve true) eq_refl).
Defined.
