(* ===== verification/Driver.v ===== *)
(** * Driver: the example script (example.js)

    [example.js] builds a [Sudoku] on its grid and prints what [solve()]
    returns.  [example_script] is the value handed to [console.log] (the
    printing itself is output, not modelled); [None] stands for a run
    that does not reach the print (the constructor throws, or the search
    does not return).  The theorem shows the script prints a solution of
    its grid, without running the search: the grid is well formed and
    has a solution, so [solve_init_spec] applies. *)

From S2P Require Import Prelude Grid Spec Examples Init Backtrack Solve.

(** example.js, lines 5-19: [let s = new Sudoku(...); console.log(s.solve())]. *)
Definition example_script : option solve_result :=
  match sudoku_new example_grid with
  | inr s => fst <$> solve false s
  | inl _ => None
  end.

(** C23: the example script prints a solution of its grid: the
    constructor accepts the grid, [solve()] returns, and the value given
    to [console.log] is a grid (not [null], not a pair with the count)
    that is complete, valid and keeps every given of the script's grid. *)
Theorem example_prints_solution :
  ∃ g', example_script = Some (Plain (Some g')) ∧ solution_of example_grid g'.
Proof.
  assert (sudoku_new example_grid = inr (init_sudoku example_grid)) as Hn by (vm_compute; reflexivity).
  destruct (solve_finds example_grid false example_solution) as (r & s' & g' & Hs & Hr & Hsol);
    [refine (bool_decide_unpack _ _); vm_compute; exact I..|].
  exists g'. split; [|exact Hsol]. unfold example_script. rewrite Hn, Hs.
  cbn [fmap option_fmap option_map fst]. by rewrite (solve_plain _ _ _ Hs), Hr.
Qed.
