(* ===== verification/Search.v ===== *)
(** * Search: the backtracking search as a transition system

    One step of [backtrack] (sudoku.js, lines 80-100) takes a state
    [(values, domains)] that is not solved, selects the variable [v]
    ([unassigned_variable]), picks a value of its domain that [consistent]
    accepts and that propagation from [v] pinned to that value does not
    refute, and moves to the copies [new_values], [new_domains] the code
    recurses on.  [search_step] is that step as a relation, [reachable g]
    the states of the search tree of the grid [g] (every state some call
    of [backtrack] is made on), and the depth-first search of [Backtrack]
    explores this tree:
    - [backtrack_steps], [solve_reaches]: a grid [backtrack] (and so
      [solve]) returns is the grid of a solved state reached by search
      steps (the search refines the relation);
    - [reachable_state_ok]: every reachable state is a 9x9 grid keeping
      the givens, whose domains only ever lose candidates;
    - [reachable_domain_bound]: in every reachable state the domain of an
      empty cell holds at most 9 candidates, below the [mrv = 10] the
      selection starts from (lines 112-113);
    - [search_depth]: each step fills exactly one empty cell, so every run
      has at most as many steps as the input has empty cells. *)

From stdpp Require Import relations.
From S2P Require Import Prelude Grid Spec Examples Init Neighbours Select AC3 Backtrack Correctness Solve.

Definition state : Type := grid * domains.

Section Steps.
Context `{Propagator} (vars : list pos).

(** Lines 80-100: from an unsolved state, assign [value] to the selected
    variable [v] and propagate; the step exists when the code recurses. *)
Inductive search_step : state → state → Prop :=
  | step_assign values D v value D' :
      solved values = false →
      unassigned_variable vars values D = Some v →
      value ∈ dom_at D v →
      consistent vars v (update2 values v (Some value)) = true →
      propagate vars v (update2 D v (DSet [value])) = Some (true, D') →
      search_step (values, D) (update2 values v (Some value), D').

(** ** The search refines the transition system *)

Lemma try_values_steps fuel values D v vals n g' n' :
  unassigned_variable vars values D = Some v → solved values = false → vals ⊆ dom_at D v →
  (∀ values' D' n1 n2, backtrack vars fuel values' D' n1 = Some (Some g', n2) →
     ∃ D'', rtc search_step (values', D') (g', D'') ∧ solved g' = true) →
  try_values vars (backtrack vars fuel) values D v vals n = Some (Some g', n') →
  ∃ D'', rtc search_step (values, D) (g', D'') ∧ solved g' = true.
Proof.
  intros Hv Hns Hvals IH. revert n. induction vals as [|value vals IHv]; intros n; simpl; [done|].
  assert (vals ⊆ dom_at D v) as Hvals' by (intros x Hx; apply Hvals; by right).
  destruct (consistent vars v _) eqn:Hc; [|by apply IHv].
  destruct (propagate vars v _) as [[[] D']|] eqn:Hp; [|by apply IHv|done].
  unfold bind. destruct (backtrack vars fuel _ D' n) as [[[g''|] n1]|] eqn:Hb; [|by apply IHv|done].
  intros [= -> _]. destruct (IH _ _ _ _ Hb) as (D'' & Hsteps & Hsolved).
  exists D''. split; [|done]. eapply rtc_l; [|exact Hsteps].
  econstructor; eauto. apply Hvals. left.
Qed.

Lemma backtrack_steps fuel values D n g' n' :
  backtrack vars fuel values D n = Some (Some g', n') →
  ∃ D', rtc search_step (values, D) (g', D') ∧ solved g' = true.
Proof.
  revert values D n n'. induction fuel as [|fuel IH]; intros values D n n'; simpl; [done|].
  destruct (solved values) eqn:Hs; [intros [= <- _]; exists D; split; [apply rtc_refl|done]|].
  unfold bind, tick. destruct (unassigned_variable vars values D) as [v|] eqn:Hv; [|done].
  apply try_values_steps; [done|done|intros x Hx; exact Hx|]. intros; eapply IH; eauto.
Qed.
End Steps.

(** The states of the search tree of the input grid [g]: those reached
    from the constructor's [(values, domains)]. *)
Definition reachable `{Propagator} (g : grid) (st : state) : Prop :=
  rtc (search_step (variables_of g)) (g, init_domains g (variables_of g)) st.

(** ** Invariants of the reachable states *)

Section Invariant.
Context `{Propagator} (g : grid).
Hypothesis Hg : shape9 g.
Notation vars := (variables_of g).

Record state_ok (st : state) : Prop := {
  so_progress : progress_inv vars st.1 st.2;
  so_givens : ∀ p, on_board p → cell_at g p ≠ None → cell_at st.1 p = cell_at g p;
  so_refines : refines st.2 (init_domains g vars)
}.

Lemma state_ok_init : state_ok (g, init_domains g vars).
Proof. split; simpl; [by apply progress_inv_init|done|reflexivity]. Qed.

Lemma state_ok_step st st' : search_step vars st st' → state_ok st → state_ok st'.
Proof.
  intros [values D v value D' Hns Hv Hval Hc Hp] [Hprog Hgiv Href]. simpl in *.
  destruct (selected_is_null vars values D v Hprog Hv) as [Hvb Hnull].
  destruct (proj2 Hprog v Hvb Hnull) as (_ & s & HDv & _).
  pose proof (propagate_refines _ _ _ _ _ Hp) as HR.
  assert (is_Some (values !!@ v)) as Hvs by (apply shape9_lookup2; [apply Hprog|done]).
  split; simpl.
  - eapply progress_inv_step; eauto.
  - intros p Hpb Hgp. rewrite cell_at_update2 by done. case_decide as Hvp; [|by apply Hgiv].
    subst p. exfalso. apply Hgp. rewrite <-(Hgiv v Hvb) by done. done.
  - etrans; [exact HR|]. etrans; [|exact Href].
    eapply refines_update2; [exact HDv|]. apply singleton_sublist_l.
    unfold dom_at in Hval. by rewrite HDv in Hval.
Qed.

Lemma reachable_ok st : reachable g st → state_ok st.
Proof.
  unfold reachable. revert st. apply rtc_ind_r; [apply state_ok_init|].
  intros st1 st2 _ Hs. by apply state_ok_step.
Qed.
End Invariant.

(** ** The claims *)

(** C16: every state of the search tree of a 9x9 grid is a 9x9 grid that
    keeps every given cell of the input, and its domains are the initial
    domains with candidates removed (sets stay sets, other cells keep
    their clone). *)
Theorem reachable_state_ok g st :
  shape9 g → reachable g st →
  shape9 st.1 ∧ (∀ p, on_board p → cell_at g p ≠ None → cell_at st.1 p = cell_at g p) ∧
  refines st.2 (init_domains g (variables_of g)).
Proof.
  intros Hg Hr. destruct (reachable_ok g Hg st Hr) as [[Hsh _] Hgiv Href]. done.
Qed.

(** C17: in every state of the search tree of a 9x9 grid, an empty cell
    is a variable whose domain is a set of at most 9 candidates: the
    [mrv = 10] the selection starts from (lines 112-113, "greater than the
    maximum possible value") is above every size it compares. *)
Theorem reachable_domain_bound g st p :
  shape9 g → reachable g st → on_board p → cell_at st.1 p = None →
  p ∈ variables_of g ∧ ∃ k, size_at st.2 p = Some k ∧ k ≤ 9.
Proof.
  intros Hg Hr Hp Hnull. destruct (reachable_ok g Hg st Hr) as [[_ Hprog] _ _].
  destruct (Hprog p Hp Hnull) as (Hv & s & Hs & Hlen). split; [done|].
  exists (length s). unfold size_at. by rewrite Hs.
Qed.

(** Each step fills exactly one empty cell. *)
Lemma search_step_count g st st' :
  shape9 g → state_ok g st → search_step (variables_of g) st st' →
  count_null st.1 = S (count_null st'.1).
Proof.
  intros Hg Hok Hs. destruct Hs as [values D v value D' Hns Hv Hval Hc Hp]. simpl in *.
  destruct (so_progress g _ Hok) as [Hsh Hprog].
  destruct (selected_is_null (variables_of g) values D v (so_progress g _ Hok) Hv) as [Hvb Hnull].
  by apply count_null_update2_eq.
Qed.

Lemma nsteps_count g k st0 st :
  shape9 g → state_ok g st0 → nsteps (search_step (variables_of g)) k st0 st →
  count_null st.1 + k = count_null st0.1.
Proof.
  intros Hg Hok Hk. revert Hok.
  induction Hk as [st0|k st0 st1 st2 Hs Hk IH]; intros Hok; [by rewrite Nat.add_0_r|].
  pose proof (search_step_count g st0 st1 Hg Hok Hs).
  specialize (IH (state_ok_step g st0 st1 Hs Hok)). lia.
Qed.

(** C18: the search tree of a 9x9 grid is as deep as the grid has empty
    cells: a run of [k] search steps from the constructor's state leaves
    exactly [k] empty cells fewer, so no run is longer than the number of
    empty cells (the recursion depth of [backtrack]). *)
Theorem search_depth g k st :
  shape9 g → nsteps (search_step (variables_of g)) k (g, init_domains g (variables_of g)) st →
  count_null st.1 + k = count_null g.
Proof. intros Hg Hk. exact (nsteps_count g k _ st Hg (state_ok_init g Hg) Hk). Qed.

(** C19: [solve] implements the search tree: every grid it returns is the
    grid of a solved state reachable by search steps from the
    constructor's state. *)
Theorem solve_reaches g show_explored r s' g' :
  solve show_explored (init_sudoku g) = Some (r, s') → result_solution r = Some g' →
  ∃ D, reachable g (g', D) ∧ solved g' = true.
Proof.
  unfold solve, init_sudoku, solve_fuel. cbn [explored variables values doms].
  destruct (backtrack _ _ _ _ _) as [[res n]|] eqn:Hb; [|intros Hn; discriminate Hn].
  intros [= <- _] Hr. assert (res = Some g') as -> by (destruct show_explored; exact Hr).
  apply backtrack_steps in Hb. exact Hb.
Qed.

(** ** Witnesses on [gap_grid] *)

Definition gap_start : state := (gap_grid, init_domains gap_grid (variables_of gap_grid)).

(** The domains after the one step of the search of [gap_grid]. *)
Definition gap_after : domains :=
  match ac3 (variables_of gap_grid) (0, 0) (update2 gap_start.2 (0, 0) (DSet [5])) with
  | Some (_, D') => D'
  | None => gap_start.2
  end.

Lemma gap_step : search_step (variables_of gap_grid) gap_start (update2 gap_grid (0, 0) (Some 5), gap_after).
Proof.
  apply step_assign; [vm_compute; reflexivity|vm_compute; reflexivity| |vm_compute; reflexivity|].
  - vm_compute. left.
  - vm_compute. reflexivity.
Qed.

Lemma reachable_state_ok_witness :
  (shape9 gap_grid ∧ reachable gap_grid (update2 gap_grid (0, 0) (Some 5), gap_after)) ∧
  shape9 (update2 gap_grid (0, 0) (Some 5)) ∧
  refines gap_after (init_domains gap_grid (variables_of gap_grid)).
Proof.
  assert (shape9 gap_grid) as Hg by reflexivity.
  assert (reachable gap_grid (update2 gap_grid (0, 0) (Some 5), gap_after)) as Hr
    by (apply rtc_once, gap_step).
  destruct (reachable_state_ok gap_grid _ Hg Hr) as (Hsh & _ & Href).
  split; [split; [exact Hg|exact Hr]|split; [exact Hsh|exact Href]].
Defined.

Lemma reachable_domain_bound_witness :
  (shape9 gap_grid ∧ reachable gap_grid gap_start ∧ on_board (0, 0) ∧ cell_at gap_grid (0, 0) = None) ∧
  (0, 0) ∈ variables_of gap_grid.
Proof.
  assert (shape9 gap_grid) as Hg by reflexivity.
  assert (reachable gap_grid gap_start) as Hr by apply rtc_refl.
  assert (on_board (0, 0)) as Hp by (split; simpl; lia).
  assert (cell_at gap_grid (0, 0) = None) as Hn by reflexivity.
  split; [split_and!; assumption|].
  exact (proj1 (reachable_domain_bound gap_grid gap_start (0, 0) Hg Hr Hp Hn)).
Defined.

Lemma search_depth_witness :
  (shape9 gap_grid ∧
   nsteps (search_step (variables_of gap_grid)) 1 gap_start (update2 gap_grid (0, 0) (Some 5), gap_after)) ∧
  count_null (update2 gap_grid (0, 0) (Some 5)) + 1 = count_null gap_grid.
Proof.
  assert (shape9 gap_grid) as Hg by reflexivity.
  assert (nsteps (search_step (variables_of gap_grid)) 1 gap_start
    (update2 gap_grid (0, 0) (Some 5), gap_after)) as Hk by (apply nsteps_once, gap_step).
  split; [split; [exact Hg|exact Hk]|].
  exact (search_depth gap_grid 1 _ Hg Hk).
Defined.

Lemma solve_reaches_witness :
  (solve false (init_sudoku gap_grid) =
     Some (Plain (Some easy_solution),
           {| explored := 1; variables := variables_of gap_grid; values := gap_grid;
              doms := init_domains gap_grid (variables_of gap_grid) |}) ∧
   result_solution (Plain (Some easy_solution)) = Some easy_solution) ∧
  ∃ D, reachable gap_grid (easy_solution, D) ∧ solved easy_solution = true.
Proof.
  assert (solve false (init_sudoku gap_grid) =
     Some (Plain (Some easy_solution),
           {| explored := 1; variables := variables_of gap_grid; values := gap_grid;
              doms := init_domains gap_grid (variables_of gap_grid) |})) as Hs by (vm_compute; reflexivity).
  split; [split; [exact Hs|reflexivity]|].
  exact (solve_reaches gap_grid false _ _ easy_solution Hs eq_refl).
Defined.
