(* ===== verification/SpecSearch.v ===== *)
(** * SpecSearch: the wrong wipeout test never changes the answer

    [backtrack] is written against the [Propagator] interface, so it runs
    with the code's [ac3] ([AC3.ac3_propagator]) or with the loop of the
    specification ([AC3Spec.ac3_spec_propagator]).  On every well-formed
    grid the two searches return the same grid, or both [null]; only the
    number of explored nodes can differ (the witness of
    [spec_search_same_answer] shows a grid where it does).

    The proof runs the two searches side by side.  [live values D] says
    that every solution of the input that keeps the filled cells of
    [values] is allowed by [D]; it holds at the root and after every
    successful propagation.  At a candidate that some solution extends,
    both propagations succeed with the same domains (completeness of the
    code's [ac3] and [AC3Spec.ac3_loop_spec_agrees]), so both searches
    take the same step.  At a candidate no solution extends, the search
    below it returns [null] in both (soundness, and
    [Correctness.backtrack_keeps]: the grid it returns would extend the
    candidate), so both go on to the next candidate. *)

From S2P Require Import Prelude Grid Spec Examples Init Neighbours Select AC3 AC3Spec Backtrack Correctness Solve.

Section Same.
Context (g : grid) (Hwf : well_formed g).
Notation vars := (variables_of g).

(** Every solution of [g] that keeps the filled cells of [values] is
    allowed by [D]. *)
Definition live (values : grid) (D : domains) : Prop :=
  ∀ sol, solution_of g sol → agrees sol values → fits (σ sol) D.

(** A solution that extends the candidate [v := value] is allowed by
    the pinned domains. *)
Lemma pinned_fits values D v value sol :
  live values D → shape9 values → v ∈ vars → cell_at values v = None → is_Some (D !!@ v) →
  solution_of g sol → agrees sol (update2 values v (Some value)) →
  fits (σ sol) (update2 D v (DSet [value])) ∧ dom_at (update2 D v (DSet [value])) v ⊆ [σ sol v].
Proof.
  intros Hlive Hsh Hv Hnull HDv Hsol Hagr. pose proof (wf_vars_on_board g Hwf v Hv) as Hvb.
  assert (σ sol v = value) as Hσ.
  { unfold σ. rewrite (Hagr v Hvb value); [done|].
    rewrite cell_at_update2, decide_True by (done || by apply shape9_lookup2). done. }
  split.
  - rewrite <-Hσ. apply sol_fits_pin; [|done]. apply Hlive; [done|]. by eapply agrees_update2.
  - rewrite dom_at_update2, decide_True by done. by rewrite Hσ.
Qed.

(** After a successful propagation of the code, [live] still holds. *)
Lemma live_step values D v value D' :
  live values D → shape9 values → v ∈ vars → cell_at values v = None → is_Some (D !!@ v) →
  @propagate ac3_propagator vars v (update2 D v (DSet [value])) = Some (true, D') →
  live (update2 values v (Some value)) D'.
Proof.
  intros Hlive Hsh Hv Hnull HDv Hp sol Hsol Hagr.
  destruct (pinned_fits values D v value sol) as [Hfit Hpin]; [done..|].
  destruct (@propagate_complete ac3_propagator vars v _ (σ sol) (wf_vars_on_board g Hwf) Hv Hfit
    (sol_respects g sol Hsol) Hpin) as (D'' & Hp' & Hfit').
  rewrite Hp in Hp'. by injection Hp' as <-.
Qed.

(** At a candidate some solution extends, both propagations succeed with
    the same domains. *)
Lemma both_agree values D v value :
  live values D → shape9 values → v ∈ vars → cell_at values v = None → is_Some (D !!@ v) →
  (∃ sol, solution_of g sol ∧ agrees sol (update2 values v (Some value))) →
  ∃ D', @propagate ac3_propagator vars v (update2 D v (DSet [value])) = Some (true, D') ∧
    @propagate ac3_spec_propagator vars v (update2 D v (DSet [value])) = Some (true, D').
Proof.
  intros Hlive Hsh Hv Hnull HDv (sol & Hsol & Hagr).
  destruct (pinned_fits values D v value sol) as [Hfit Hpin]; [done..|].
  destruct (@propagate_complete ac3_propagator vars v _ (σ sol) (wf_vars_on_board g Hwf) Hv Hfit
    (sol_respects g sol Hsol) Hpin) as (D' & Hp & Hfit').
  exists D'. split; [done|]. change (ac3_spec vars v (update2 D v (DSet [value])) = Some (true, D')).
  unfold ac3_spec. apply ac3_loop_spec_agrees; [by apply (fits_no_empty (σ sol))|].
  split; [exact Hp|by apply (fits_no_empty (σ sol))].
Qed.

(** At a candidate no solution extends, a search skips to the next
    candidate, whatever the propagator. *)
Lemma dead_value `{Propagator} fuel values D v value vals n :
  search_inv g values D → v ∈ vars → cell_at values v = None → value ∈ dom_at D v →
  count_null values < S fuel →
  ¬ (∃ sol, solution_of g sol ∧ agrees sol (update2 values v (Some value))) →
  ∃ k, try_values vars (backtrack vars fuel) values D v (value :: vals) n =
    try_values vars (backtrack vars fuel) values D v vals k.
Proof.
  intros Hinv Hv Hnull Hval Hf Hdead. simpl.
  destruct (consistent vars v _) eqn:Hc; [|eauto].
  destruct (propagate vars v _) as [[[] D']|] eqn:Hp; [|eauto|by apply propagate_total in Hp].
  assert (search_inv g (update2 values v (Some value)) D') as Hinv'
    by (eapply (search_inv_step g Hwf); eauto using propagate_refines).
  unfold bind. destruct (backtrack vars fuel _ D' n) as [[[g'|] k]|] eqn:Hb; [|eauto|].
  - exfalso. apply Hdead. exists g'. split; [by eapply (backtrack_sound g Hwf)|by eapply backtrack_keeps; [apply (search_inv_progress g Hwf)|]].
  - exfalso. revert Hb. apply backtrack_total; [by apply (search_inv_progress g Hwf)|].
    pose proof (count_null_update2 values v value (wf_vars_on_board g Hwf v Hv) (si_shape Hinv) Hnull).
    lia.
Qed.
(** The two loops over the candidates of [v] return the same grid (or
    both [null]) when the searches below any candidate do. *)
Lemma try_values_same fuel values D v vals n m :
  (∀ values' D' n1 m1, search_inv g values' D' → live values' D' → count_null values' < fuel →
     fst <$> @backtrack ac3_propagator vars fuel values' D' n1 =
     fst <$> @backtrack ac3_spec_propagator vars fuel values' D' m1) →
  search_inv g values D → live values D → v ∈ vars → cell_at values v = None →
  count_null values < S fuel → vals ⊆ dom_at D v →
  fst <$> @try_values ac3_propagator vars (@backtrack ac3_propagator vars fuel) values D v vals n =
  fst <$> @try_values ac3_spec_propagator vars (@backtrack ac3_spec_propagator vars fuel) values D v vals m.
Proof.
  intros IH Hinv Hlive Hv Hnull Hf. pose proof (si_shape Hinv) as Hsh.
  pose proof (wf_vars_on_board g Hwf v Hv) as Hvb.
  destruct (si_domains Hinv v Hv) as (s & HDv & _). assert (is_Some (D !!@ v)) as HDv' by eauto.
  revert n m. induction vals as [|value vals IHv]; intros n m Hvals; [done|].
  assert (value ∈ dom_at D v) as Hval by (apply Hvals; left).
  assert (vals ⊆ dom_at D v) as Hvals' by (intros x Hx; apply Hvals; by right).
  set (D1 := update2 D v (DSet [value])).
  assert ((∃ D', @propagate ac3_propagator vars v D1 = Some (true, D') ∧
                 @propagate ac3_spec_propagator vars v D1 = Some (true, D')) ∨
          ¬ ∃ sol, solution_of g sol ∧ agrees sol (update2 values v (Some value))) as [(D' & H1 & H2)|Hdead].
  { destruct (@propagate ac3_propagator vars v D1) as [[[] Da]|] eqn:Ha,
      (@propagate ac3_spec_propagator vars v D1) as [[[] Db]|] eqn:Hb;
      try (destruct (decide (Da = Db)) as [<-|]; [by left; eauto|]);
      right; intros Hex; destruct (both_agree values D v value) as (D' & Ha' & Hb'); try done;
      unfold D1 in *; congruence. }
  - simpl in H1, H2 |- *. destruct (consistent vars v _) eqn:Hc; [|by apply IHv]. fold D1. rewrite H1, H2.
    assert (search_inv g (update2 values v (Some value)) D') as Hinv'
      by (eapply (search_inv_step g Hwf); eauto using propagate_refines).
    pose proof (count_null_update2 values v value Hvb Hsh Hnull) as Hlt.
    pose proof (IH _ D' n m Hinv' (live_step values D v value D' Hlive Hsh Hv Hnull HDv' H1)
      ltac:(lia)) as Heq.
    unfold bind.
    destruct (@backtrack ac3_propagator vars fuel _ D' n) as [[r1 k1]|] eqn:Hb1;
      [|exfalso; revert Hb1; apply backtrack_total; [by apply (search_inv_progress g Hwf)|lia]].
    destruct (@backtrack ac3_spec_propagator vars fuel _ D' m) as [[r2 k2]|] eqn:Hb2;
      [|exfalso; revert Hb2; apply backtrack_total; [by apply (search_inv_progress g Hwf)|lia]].
    injection Heq as <-. destruct r1; [done|by apply IHv].
  - destruct (dead_value (H:=ac3_propagator) fuel values D v value vals n) as [k1 ->]; [done..|].
    destruct (dead_value (H:=ac3_spec_propagator) fuel values D v value vals m) as [k2 ->]; [done..|].
    by apply IHv.
Qed.

(** The two searches return the same grid, or both [null]. *)
Lemma backtrack_same fuel values D n m :
  search_inv g values D → live values D → count_null values < fuel →
  fst <$> @backtrack ac3_propagator vars fuel values D n =
  fst <$> @backtrack ac3_spec_propagator vars fuel values D m.
Proof.
  revert values D n m. induction fuel as [|fuel IH]; intros values D n m Hinv Hlive Hf; [lia|].
  simpl. destruct (solved values); [done|].
  unfold bind, tick. destruct (unassigned_variable vars values D) as [v|] eqn:Hv; [|done].
  destruct (selected_var g Hwf values D v Hinv Hv) as [Hvv Hnull].
  apply try_values_same; auto.
Qed.
End Same.

(** C25: the wrong cell tested at line 205 never changes what the
    search answers.  On every well-formed grid, the search from the
    constructor's state returns the same result (the same grid, or
    [null] in both) with the code's [ac3] as with the AC-3 of the
    specification, which tests the domain just revised; only the
    explored counts may differ. *)
Theorem spec_search_same_answer g :
  well_formed g →
  ∃ r n1 n2,
    backtrack (variables_of g) (S (count_null g)) g (init_domains g (variables_of g)) 0 = Some (r, n1) ∧
    @backtrack ac3_spec_propagator (variables_of g) (S (count_null g)) g
      (init_domains g (variables_of g)) 0 = Some (r, n2).
Proof.
  intros Hwf. pose proof (progress_inv_init g (proj1 Hwf)) as Hp.
  assert (live g g (init_domains g (variables_of g))) as Hlive
    by (intros sol Hsol _; by apply sol_fits_init).
  pose proof (backtrack_same g Hwf (S (count_null g)) g _ 0 0 (search_inv_init g Hwf) Hlive
    ltac:(lia)) as Heq.
  destruct (backtrack _ _ _ _ 0) as [[r1 n1]|] eqn:H1;
    [|exfalso; revert H1; apply backtrack_total; [exact Hp|lia]].
  destruct (@backtrack ac3_spec_propagator _ _ _ _ 0) as [[r2 n2]|] eqn:H2;
    [|exfalso; revert H2; apply backtrack_total; [exact Hp|lia]].
  injection Heq as <-. eauto.
Qed.

(** On [wipeout_grid] both searches answer [null]; the code's explores
    two nodes, because its [ac3] misses the wipeout of (0,0) after
    (1,0) := 5 and the search goes one level down, where the next node
    finds the empty domain; with the specification's test it explores
    one. *)
Lemma spec_search_same_answer_witness :
  well_formed wipeout_grid ∧
  (∃ r n1 n2,
    backtrack (variables_of wipeout_grid) (S (count_null wipeout_grid)) wipeout_grid
      (init_domains wipeout_grid (variables_of wipeout_grid)) 0 = Some (r, n1) ∧
    @backtrack ac3_spec_propagator (variables_of wipeout_grid) (S (count_null wipeout_grid))
      wipeout_grid (init_domains wipeout_grid (variables_of wipeout_grid)) 0 = Some (r, n2)) ∧
  backtrack (variables_of wipeout_grid) (S (count_null wipeout_grid)) wipeout_grid
    (init_domains wipeout_grid (variables_of wipeout_grid)) 0 = Some (None, 2) ∧
  @backtrack ac3_spec_propagator (variables_of wipeout_grid) (S (count_null wipeout_grid))
    wipeout_grid (init_domains wipeout_grid (variables_of wipeout_grid)) 0 = Some (None, 1).
Proof.
  assert (well_formed wipeout_grid) as Hwf by (refine (bool_decide_unpack _ _); vm_compute; exact I).
  split; [exact Hwf|]. split; [exact (spec_search_same_answer wipeout_grid Hwf)|].
  split; vm_compute; reflexivity.
Defined.
